(** * Fund-flow tracing engine: network expander, multi-hop tracer,
      address monitor and rate limiter.

    A shallow embedding of
      - src/network_expander.py       (RateLimiter, etherscan_request,
                                        get_transactions,
                                        is_exchange_deposit_pattern,
                                        analyze_address, bfs_expand),
      - src/tools/multi_hop_tracer_v2.py   (get_canonical_address,
                                        get_outgoing_transactions, trace_hops),
      - src/tools/address_monitor_daemon.py (get_balances, get_tx_counts,
                                        check_addresses),
    and the properties the specification states about them.

    Conventions.
      - A Python [dict] or [set] whose iteration order is not observed is a
        [gmap] / [gset]; a [dict] whose insertion order is observed (the
        [destinations] counter of the classifier) is an association list.
      - Python floats are IEEE binary64 values: Rocq's primitive [float].
        The rate limiter alone is stated over exact rationals ([Q]), see
        [Module RateLimiter].
      - The network is a function from requests to responses, fixed for the
        duration of one call; a failed request is a value of the response
        type, as the code turns every exception into one. *)

From Stdlib Require Import ZArith List String Ascii Bool Lia Sorted QArith Qminmax Lqa Floats.
From stdpp Require Import gmap strings list.

Local Open Scope string_scope.
Local Open Scope list_scope.
Local Open Scope nat_scope.

(* ===================================================================== *)
(** * Python strings *)
(* ===================================================================== *)

Module PyStr.

(** [str.lower()] on the ASCII range, which is all an address holds. *)
Definition lower_ascii (c : ascii) : ascii :=
  let n := nat_of_ascii c in
  if (65 <=? n)%nat && (n <=? 90)%nat then ascii_of_nat (n + 32) else c.

Fixpoint lower (s : string) : string :=
  match s with
  | EmptyString => EmptyString
  | String c s' => String (lower_ascii c) (lower s')
  end.

(** [needle in hay] for strings. *)
Fixpoint contains (needle hay : string) : bool :=
  String.prefix needle hay ||
  match hay with
  | EmptyString => false
  | String _ hay' => contains needle hay'
  end.

(** Truth value of a string: non-empty. *)
Definition truthy (s : string) : bool :=
  match s with EmptyString => false | _ => true end.

Lemma lower_ascii_idem c : lower_ascii (lower_ascii c) = lower_ascii c.
Proof.
  destruct c as [[] [] [] [] [] [] [] []]; reflexivity.
Qed.

Lemma lower_idem s : lower (lower s) = lower s.
Proof.
  induction s as [|c s IH]; simpl; [reflexivity|].
  now rewrite lower_ascii_idem, IH.
Qed.

End PyStr.

(* ===================================================================== *)
(** * src/network_expander.py *)
(* ===================================================================== *)

Module NetworkExpander.
Import PyStr.

(** One Etherscan transaction or token-transfer record.  Only the keys that
    decide control flow are kept: [tx_from] and [tx_to] are
    [tx.get("from", "")] and [tx.get("to", "")].  The keys "value",
    "tokenDecimal", "tokenSymbol" and "timeStamp" feed the reported totals
    (eth_in, eth_out, usdt_in, usdt_out, first_tx, last_tx) only, which no
    branch reads; a record is taken to be well formed, so that reading
    them raises nothing. *)
Record Tx := mkTx { tx_from : string; tx_to : string }.

(** The insertion-ordered counter [destinations]:
    [destinations[dest] = destinations.get(dest, 0) + 1]. *)
Fixpoint dict_incr (d : list (string * nat)) (k : string) : list (string * nat) :=
  match d with
  | [] => [(k, 1%nat)]
  | (k', n) :: d' =>
      if String.eqb k' k then (k', S n) :: d' else (k', n) :: dict_incr d' k
  end.

(** [max(d, key=d.get)]: keys are visited in insertion order and a later key
    replaces the current best only when its count is strictly larger. *)
Definition max_step (best : option (string * nat)) (kv : string * nat)
  : option (string * nat) :=
  match best with
  | None => Some kv
  | Some (bk, bn) => if (bn <? snd kv)%nat then Some kv else best
  end.

Definition py_max_by_value (d : list (string * nat)) : option string :=
  fst <$> fold_left max_step d None.

(** The partition loop of [is_exchange_deposit_pattern]:
    [if from == address: outflows.append(tx) elif to == address:
    inflows.append(tx)]. *)
Definition partition_step (address : string) (acc : list Tx * list Tx) (tx : Tx)
  : list Tx * list Tx :=
  let '(inflows, outflows) := acc in
  if String.eqb (lower (tx_from tx)) address then (inflows, outflows ++ [tx])
  else if String.eqb (lower (tx_to tx)) address then (inflows ++ [tx], outflows)
  else (inflows, outflows).

Definition partition_txs (address : string) (txs : list Tx) : list Tx * list Tx :=
  fold_left (partition_step address) txs ([], []).

Definition count_destinations (outflows : list Tx) : list (string * nat) :=
  fold_left (fun d tx => dict_incr d (lower (tx_to tx))) outflows [].

Definition tally (l : list string) : list (string * nat) :=
  fold_left dict_incr l [].

(** The destinations of a list of outflows, in order. *)
Definition dests (outflows : list Tx) : list string :=
  map (fun tx => lower (tx_to tx)) outflows.

(** The inflow and outflow tests, as predicates on one record. *)
Definition is_outflow (address : string) (tx : Tx) : bool :=
  String.eqb (lower (tx_from tx)) address.

Definition is_inflow (address : string) (tx : Tx) : bool :=
  negb (is_outflow address tx) && String.eqb (lower (tx_to tx)) address.

(** How often [x] occurs in [l], and where it occurs first. *)
Fixpoint occurrences (x : string) (l : list string) : nat :=
  match l with
  | [] => 0
  | y :: l' => (if String.eqb y x then 1 else 0) + occurrences x l'
  end.

Fixpoint first_index (x : string) (l : list string) : nat :=
  match l with
  | [] => 0
  | y :: l' => if String.eqb y x then 0 else S (first_index x l')
  end.

(** The modal destination in the specification's words: the destination
    receiving the plurality of the transfers, ties broken by the
    earliest-seen destination. *)
Definition modal_destination (l : list string) (d : string) : Prop :=
  d ∈ l ∧
  ∀ x, x ∈ l →
    occurrences x l < occurrences d l ∨
    (occurrences x l = occurrences d l ∧ first_index d l ≤ first_index x l).

Section Classifier.

(** KNOWN_EXCHANGE_HOT_WALLETS: address (lower case) to label. *)
Variable KNOWN_EXCHANGE_HOT_WALLETS : gmap string string.

Definition is_exchange_deposit_pattern (address : string) (txs : list Tx)
  : bool * option string :=
  let address := lower address in
  match txs with
  | [] => (false, None)
  | _ =>
    match KNOWN_EXCHANGE_HOT_WALLETS !! address with
    | Some name => (true, Some name)
    | None =>
      let '(inflows, outflows) := partition_txs address txs in
      if (length inflows <? 1)%nat || (20 <? length inflows)%nat then (false, None)
      else
        match outflows with
        | [] => (false, None)
        | _ =>
          match py_max_by_value (count_destinations outflows) with
          | None => (false, None)
          | Some primary_dest =>
            match KNOWN_EXCHANGE_HOT_WALLETS !! primary_dest with
            | Some name => (true, Some name)
            | None => (false, None)
            end
          end
        end
    end
  end.

End Classifier.

(** The table of the source file. *)
Definition KNOWN_EXCHANGE_HOT_WALLETS : gmap string string :=
  list_to_map
    [ ("0x0d0707963952f2fba59dd06f2b425ace40b492fe", "Gate.io Deposit");
      ("0x1c4b70a3968436b9a0a9cf5205c787eb81bb558c", "Gate.io Hot Wallet");
      ("0x39f6a6c85d39d5abad8a398310c52e7c374f2ba3", "WhiteBIT Hot Wallet");
      ("0x5a52e96bacdabb82fd05763e25335261b270efcb", "WhiteBIT");
      ("0x17fbbd5bf41693e6bd534a1bc7ca412401d7ce6e", "Bybit Deposit");
      ("0xf89d7b9c864f589bbf53a82105107622b35eaa40", "Bybit Hot Wallet");
      ("0x28c6c06298d514db089934071355e5743bf21d60", "Binance 14");
      ("0x21a31ee1afc51d94c2efccaa2092ad1028285549", "Binance");
      ("0xdfd5293d8e347dfe59e90efd55b2956a1343963d", "Binance 8");
      ("0x83c41363cbee0081dab75cb841fa24f3db46627e", "KuCoin Deposit");
      ("0x1ab4973a48dc892cd9971ece8e01dcc7688f8f23", "Bitget Deposit");
      ("0x46340b20830761efd32832a74d7169b29feb9758", "Huobi");
      ("0x5041ed759dd4afc3a72b8192c143f72f4724081a", "OKX");
      ("0x6262998ced04146fa42253a5c0af90ca02dfd2a3", "Crypto.com") ].

(** ** The Etherscan client *)

(** What one HTTP request comes to: [requests.get] or [resp.json()] raised,
    or a JSON object with its "status" and its "result" (an absent "result"
    is the empty list, as [data.get("result", [])] reads it). *)
Inductive Response :=
| RequestFailed
| Answer (status : string) (result : list Tx).

(** The result of [analyze_address], without the reported totals (see [Tx]).
    [connected_in] and [connected_out] are [list(s)] for a Python set [s]:
    the elements of the set, in the order [elements] lists them.  Python
    leaves the order unspecified; the statements below use membership
    only. *)
Record Analysis := mkAnalysis {
  address : string;
  is_exchange_deposit : bool;
  exchange_name : option string;
  tx_count : nat;
  connected_in : list string;
  connected_out : list string
}.

(** [graph[address] = {"depth": depth, "analysis": analysis}]. *)
Record Node := mkNode { depth : Z; analysis : Analysis }.

(** The two shapes of a [kyc_touchpoints] entry: the analysed address is
    itself flagged, or it has a peer in the table ([via]).  The first shape
    also reports "usdt_flow" and "eth_flow", sums of the totals left out of
    [Analysis]. *)
Inductive Touchpoint :=
| FlaggedAddress (addr : string) (exchange : option string) (depth : Z)
| DirectPeer (addr : string) (exchange : string) (depth : Z) (via : string).

(** The variables of the [while] loop of [bfs_expand], and [stderr]: one
    entry per line "[Depth d] Analyzing address". *)
Record State := mkState {
  visited : gset string;
  queue : list (string * Z);
  graph : gmap string Node;
  kyc_touchpoints : list Touchpoint;
  stderr : list (Z * string)
}.

(** The dictionary [bfs_expand] returns. *)
Record Result := mkResult {
  seed_addresses : list string;
  r_max_depth : Z;
  r_direction : string;
  total_addresses_discovered : nat;
  r_kyc_touchpoints : list Touchpoint;
  r_graph : gmap string Node
}.

(** The body of the two loops that collect [connected_in] and
    [connected_out]. *)
Definition connect_step (address : string) (acc : gset string * gset string) (tx : Tx)
  : gset string * gset string :=
  let '(connected_in, connected_out) := acc in
  let from_addr := lower (tx_from tx) in
  let to_addr := lower (tx_to tx) in
  let connected_in :=
    if truthy from_addr && negb (String.eqb from_addr address)
    then {[from_addr]} ∪ connected_in else connected_in in
  let connected_out :=
    if truthy to_addr && negb (String.eqb to_addr address)
    then {[to_addr]} ∪ connected_out else connected_out in
  (connected_in, connected_out).

Section Expander.

Variable KNOWN_EXCHANGE_HOT_WALLETS : gmap string string.

(** The Etherscan endpoint: the answer to the request with the given
    "action" and "address" parameters (the other parameters are constant). *)
Variable api : string → string → Response.

(** [_limiter.acquire()] only delays the request; see [Module RateLimiter]. *)
Definition etherscan_request (action address : string) : list Tx :=
  match api action address with
  | Answer status result => if String.eqb status "1" then result else []
  | RequestFailed => []
  end.

Definition get_transactions (address tx_type : string) : list Tx :=
  let address := lower address in
  if String.eqb tx_type "normal" then etherscan_request "txlist" address
  else if String.eqb tx_type "erc20" then etherscan_request "tokentx" address
  else [].

Definition analyze_address (address : string) : Analysis :=
  let address := lower address in
  let normal_txs := get_transactions address "normal" in
  let erc20_txs := get_transactions address "erc20" in
  let all_txs := normal_txs ++ erc20_txs in
  let '(is_deposit, exchange_name) :=
    is_exchange_deposit_pattern KNOWN_EXCHANGE_HOT_WALLETS address all_txs in
  let '(connected_in, connected_out) :=
    fold_left (connect_step address) erc20_txs
      (fold_left (connect_step address) normal_txs (∅, ∅)) in
  mkAnalysis address is_deposit exchange_name
    (length normal_txs + length erc20_txs)
    (elements connected_in) (elements connected_out).

Variable max_depth : Z.
Variable direction : string.

(** [next_addrs] of one iteration. *)
Definition next_addrs (a : Analysis) : list string :=
  (if String.eqb direction "in" || String.eqb direction "both"
   then connected_in a else []) ++
  (if String.eqb direction "out" || String.eqb direction "both"
   then connected_out a else []).

(** The body of [for next_addr in next_addrs], on the analysed [address]. *)
Definition expand_peer (address : string) (depth : Z) (st : State) (next_addr : string)
  : State :=
  if decide (next_addr ∈ visited st) then st
  else
    match KNOWN_EXCHANGE_HOT_WALLETS !! next_addr with
    | Some name =>
        mkState (visited st) (queue st) (graph st)
          (kyc_touchpoints st ++ [DirectPeer address name depth next_addr])
          (stderr st)
    | None =>
        mkState ({[next_addr]} ∪ visited st) (queue st ++ [(next_addr, (depth + 1)%Z)])
          (graph st) (kyc_touchpoints st) (stderr st)
    end.

(** One iteration of the [while] loop, after [queue.popleft()] returned
    [(address, depth)] and left [st]. *)
Definition bfs_iteration (address : string) (depth : Z) (st : State) : State :=
  let analysis := analyze_address address in
  let st :=
    mkState (visited st) (queue st)
      (<[address := mkNode depth analysis]> (graph st))
      (if is_exchange_deposit analysis
       then kyc_touchpoints st ++ [FlaggedAddress address (exchange_name analysis) depth]
       else kyc_touchpoints st)
      (stderr st ++ [(depth, address)]) in
  if (max_depth <=? depth)%Z then st
  else fold_left (expand_peer address depth) (next_addrs analysis) st.

(** The [while queue] loop; [None] when the fuel runs out first. *)
Fixpoint bfs_loop (fuel : nat) (st : State) : option State :=
  match queue st with
  | [] => Some st
  | (address, depth) :: rest =>
      match fuel with
      | 0 => None
      | S fuel' =>
          bfs_loop fuel'
            (bfs_iteration address depth
               (mkState (visited st) rest (graph st) (kyc_touchpoints st) (stderr st)))
      end
  end.

(** The state before the loop: every seed, lower-cased, is queued at depth 0
    and marked visited. *)
Definition bfs_init (seed_addresses : list string) : State :=
  fold_left
    (λ st addr,
       let addr := lower addr in
       mkState ({[addr]} ∪ visited st) (queue st ++ [(addr, 0%Z)])
         (graph st) (kyc_touchpoints st) (stderr st))
    seed_addresses (mkState ∅ [] ∅ [] []).

(** A bound on the iterations one queue entry can cause: itself and, below
    the depth limit, whatever its peers can cause. *)
Fixpoint weight (rank : nat) (address : string) : nat :=
  match rank with
  | 0 => 1
  | S rank' => S (list_sum (map (weight rank') (next_addrs (analyze_address address))))
  end.

Definition rank_of (depth : Z) : nat := Z.to_nat (max_depth - depth).

Definition queue_weight (q : list (string * Z)) : nat :=
  list_sum (map (λ e, weight (rank_of (snd e)) (fst e)) q).

(** The loop run from the initial state. *)
Definition bfs_run (seed_addresses : list string) : option State :=
  let st := bfs_init seed_addresses in
  bfs_loop (queue_weight (queue st)) st.

Definition bfs_expand (seed_addresses : list string) : option Result :=
  (λ st, mkResult seed_addresses max_depth direction (size (visited st))
           (kyc_touchpoints st) (graph st))
  <$> bfs_run seed_addresses.

End Expander.

End NetworkExpander.

(* ===================================================================== *)
(** * Python numbers *)
(* ===================================================================== *)

Module PyFloat.

(** [float(n)] for a Python int: the nearest binary64 value, ties to even. *)
Definition of_int (n : Z) : float :=
  SF2Prim (binary_normalize 53 1024 n 0 false).

(** [n / 1e18] for a Python int [n]: the int is converted, then divided. *)
Definition wei_to_eth (wei : Z) : float :=
  PrimFloat.div (of_int wei) 1e18%float.

(** The integer nearest to [m * 2^e * 10^6], ties to even. *)
Definition scaled_nearest (m : positive) (e : Z) : Z :=
  let num := (Z.pos m * 1000000)%Z in
  if (0 <=? e)%Z then (num * 2 ^ e)%Z
  else
    let den := (2 ^ (- e))%Z in
    let q := (num / den)%Z in
    let r := (num mod den)%Z in
    if (den <? 2 * r)%Z then (q + 1)%Z
    else if (2 * r =? den)%Z && Z.odd q then (q + 1)%Z
    else q.

(** [round(x, 6)]: CPython prints [x] correctly rounded to six decimals
    (ties to even, on the exact binary value) and reads the decimal back as
    the nearest float.  NaN, the infinities and the zeros round to
    themselves.  When the scaled integer [n] is below 2^53 it is a float
    and [n / 1e6] is the correctly rounded quotient; above, [x] is a
    multiple of a power of two larger than 1e-6 and rounds to itself. *)
Definition round6 (x : float) : float :=
  match Prim2SF x with
  | S754_finite s m e =>
      let n := scaled_nearest m e in
      if (n <? 2 ^ 53)%Z then
        let r := PrimFloat.div (of_int n) 1e6%float in
        if s then PrimFloat.opp r else r
      else x
  | _ => x
  end.

(** Subtracting the float zero (the value of the int 0) changes nothing. *)
Lemma sub_zero (x : float) : PrimFloat.sub x 0%float = x.
Proof.
  apply Prim2SF_inj. rewrite sub_spec. unfold SF64sub, SFsub.
  change (Prim2SF 0%float) with (S754_zero false).
  destruct (Prim2SF x) as [s|s| |s m e]; try reflexivity.
  destruct s; reflexivity.
Qed.

(** A float minus itself (a zero, or NaN) is never above a positive
    threshold. *)
Lemma no_self_change (threshold x : float) :
  PrimFloat.ltb 0%float threshold = true →
  PrimFloat.ltb threshold (PrimFloat.abs (PrimFloat.sub x x)) = false.
Proof.
  intros Hthr. rewrite ltb_spec in Hthr |- *. rewrite abs_spec, sub_spec.
  change (Prim2SF 0%float) with (S754_zero false) in Hthr.
  unfold SF64sub, SFsub.
  destruct (Prim2SF x) as [s|s| |s m e].
  - destruct s; simpl; unfold SFltb, SFcompare in *;
      destruct (Prim2SF threshold) as [|[]| |[]];
      try reflexivity; try discriminate.
  - destruct s; simpl; unfold SFltb, SFcompare;
      destruct (Prim2SF threshold); reflexivity.
  - simpl. unfold SFltb, SFcompare; destruct (Prim2SF threshold); reflexivity.
  - cbv zeta. rewrite Z.sub_diag. simpl.
    unfold SFltb, SFcompare in *;
      destruct (Prim2SF threshold) as [|[]| |[]];
      try reflexivity; try discriminate.
Qed.

End PyFloat.

(* ===================================================================== *)
(** * src/tools/address_monitor_daemon.py *)
(* ===================================================================== *)

Module AddressMonitorDaemon.
Import PyStr.

Definition MIN_BALANCE_CHANGE : float := 0.01%float.

(** One watchlist value; only "label" is read ([None]: the key is absent). *)
Record WatchInfo := mkWatchInfo { w_label : option string }.

(** [state["addresses"][a]]. *)
Record AddressState := mkAddressState {
  balance : float;
  tx_count : Z;
  last_check : string;
  label : string
}.

(** The [state] dictionary: "addresses" may be absent. *)
Record MonitorState := mkMonitorState {
  addresses : option (gmap string AddressState);
  s_last_check : option string;
  s_last_block : option Z
}.

Record Alert := mkAlert {
  timestamp : string;
  block : Z;
  a_address : string;
  a_label : string;
  balance_change_eth : float;
  new_transactions : Z;
  current_balance : float;
  severity : string
}.

(** What the RPC node and the clock give in one cycle: the results of the
    two batch calls, in order ([None]: a null or empty result; otherwise the
    hexadecimal number read), the block number and the time. *)
Record Cycle := mkCycle {
  balance_results : list (option Z);
  tx_count_results : list (option Z);
  block_number : Z;
  now : string
}.

(** [{addr.lower(): f(r) for addr, r in zip(addresses, results)}] *)
Definition zip_to_map {V} (f : option Z → V) (addrs : list string)
    (results : list (option Z)) : gmap string V :=
  fold_left (λ m ar, <[lower (fst ar) := f (snd ar)]> m) (combine addrs results) ∅.

Definition get_balances (addrs : list string) (results : list (option Z))
  : gmap string float :=
  zip_to_map (λ r, match r with Some wei => PyFloat.wei_to_eth wei | None => 0%float end)
    addrs results.

Definition get_tx_counts (addrs : list string) (results : list (option Z))
  : gmap string Z :=
  zip_to_map (λ r, match r with Some n => n | None => 0%Z end) addrs results.

(** [info.get("label", "unknown")] *)
Definition label_of (info : WatchInfo) : string :=
  match w_label info with Some l => l | None => "unknown" end.

(** The loop state of [check_addresses]: the "addresses" entry of [state]
    and the alerts so far.  [prev_states] is the dictionary
    [state.get("addresses", {})] returned before the loop: the very object
    stored in [state] when the key was there (so it sees the entries the
    loop writes), and a fresh empty dictionary otherwise. *)
Definition check_address (aliased : bool) (balances : gmap string float)
    (tx_counts : gmap string Z) (cy : Cycle)
    (acc : option (gmap string AddressState) * list Alert)
    (entry : string * WatchInfo) : option (gmap string AddressState) * list Alert :=
  let '(addr, info) := entry in
  let '(addrs, alerts) := acc in
  let addr_lower := lower addr in
  let current_balance := default 0%float (balances !! addr_lower) in
  let current_tx := default 0%Z (tx_counts !! addr_lower) in
  let prev := if aliased then addrs ≫= (λ m, m !! addr_lower) else None in
  let prev_balance := match prev with Some p => balance p | None => 0%float end in
  let prev_tx := match prev with Some p => tx_count p | None => 0%Z end in
  let addrs' :=
    Some (<[addr_lower := mkAddressState current_balance current_tx (now cy) (label_of info)]>
            (default ∅ addrs)) in
  let balance_change := PrimFloat.sub current_balance prev_balance in
  let tx_change := (current_tx - prev_tx)%Z in
  if PrimFloat.ltb MIN_BALANCE_CHANGE (PrimFloat.abs balance_change) || (0 <? tx_change)%Z
  then
    let severity :=
      if PrimFloat.ltb 10%float (PrimFloat.abs balance_change) || (5 <? tx_change)%Z
      then "high" else "medium" in
    (addrs',
     alerts ++ [mkAlert (now cy) (block_number cy) addr_lower (label_of info)
                  (PyFloat.round6 balance_change) tx_change
                  (PyFloat.round6 current_balance) severity])
  else (addrs', alerts).

(** [check_addresses(watchlist, state)]: the alerts returned and the state
    after the call.  The watchlist is a dictionary read in key order. *)
Definition check_addresses (watchlist : list (string * WatchInfo))
    (state : MonitorState) (cy : Cycle) : list Alert * MonitorState :=
  let addrs := watchlist.*1 in
  match addrs with
  | [] => ([], state)
  | _ =>
    let balances := get_balances addrs (balance_results cy) in
    let tx_counts := get_tx_counts addrs (tx_count_results cy) in
    let aliased := match addresses state with Some _ => true | None => false end in
    let '(addrs', alerts) :=
      fold_left (check_address aliased balances tx_counts cy) watchlist
        (addresses state, []) in
    (alerts, mkMonitorState addrs' (Some (now cy)) (Some (block_number cy)))
  end.

End AddressMonitorDaemon.

(* ===================================================================== *)
(** * src/tools/multi_hop_tracer_v2.py *)
(* ===================================================================== *)

Module MultiHopTracerV2.
Import PyStr.

(** One element of the "items" of a Blockscout answer.  [item_value] is
    [int(tx.get('value', '0'))]; [item_to] is [None] when [tx.get('to')] is
    absent, null or an empty object, and otherwise its "hash" (the empty
    string when it has none). *)
Record Item := mkItem {
  item_value : Z;
  item_to : option string;
  item_hash : string;
  item_timestamp : string
}.

(** An element of [outgoing]. *)
Record Outgoing := mkOutgoing {
  o_to : string; o_eth : float; o_hash : string; o_timestamp : string
}.

Record Edge := mkEdge {
  e_from : string; e_to : string; e_eth : float; e_hash : string
}.

Record Endpoint := mkEndpoint {
  ep_address : string; ep_label : string; ep_type : string;
  ep_eth : float; ep_path : list string
}.

Record Totals := mkTotals {
  addresses_traced : Z;
  total_eth_tracked : float;
  eth_to_exchanges : float;
  eth_to_mixers : float;
  eth_to_unknown : float
}.

Record NodeInfo := mkNodeInfo {
  n_tx_count : nat; n_outgoing_tracked : nat; n_label : option string
}.

(** The [graph] dictionary ('start', 'depth' and 'min_eth' repeat the
    arguments and 'traced_at' is the clock). *)
Record Graph := mkGraph {
  nodes : gmap string NodeInfo;
  edges : list Edge;
  endpoints : list Endpoint;
  totals : Totals
}.

(** The variables of the [while] loop, and [stdout]: one entry per line
    "[Hop d] address" (printed when [verbose]; the other lines repeat
    values kept in [graph]). *)
Record TraceState := mkTraceState {
  visited : gset string;
  queue : list (string * Z * list string);
  graph : Graph;
  stdout : list (Z * string)
}.

(** [any(x in label for x in ['Binance', 'Coinbase', 'Kraken', 'OKX', 'Bybit'])] *)
Definition is_exchange_label (label : string) : bool :=
  existsb (λ x, contains x label) ["Binance"; "Coinbase"; "Kraken"; "OKX"; "Bybit"].

Section Tracer.

(** KNOWN_ADDRESSES (its keys are redacted in the source file). *)
Variable KNOWN_ADDRESSES : gmap string string.

(** Blockscout: the address endpoint ([None]: the request raised;
    [Some None]: the answer has no "hash") and the transactions endpoint
    ([None]: the request raised; otherwise [data.get('items', [])]). *)
Variable address_api : string → option (option string).
Variable transactions_api : string → option (list Item).

Definition get_canonical_address (addr : string) : string :=
  match address_api addr with
  | Some (Some hash) => hash
  | _ => addr
  end.

Definition get_outgoing_transactions (addr : string) : list Item :=
  let canonical := get_canonical_address addr in
  match transactions_api canonical with
  | Some items => items
  | None => []
  end.

Variable depth : Z.
Variable min_eth : float.
Variable verbose : bool.

(** The filter loop that builds [outgoing]. *)
Definition filter_outgoing (txs : list Item) : list Outgoing :=
  fold_left
    (λ outgoing tx,
       let value := PyFloat.wei_to_eth (item_value tx) in
       if PrimFloat.leb min_eth value then
         match item_to tx with
         | Some to_addr =>
             outgoing ++ [mkOutgoing to_addr value (item_hash tx) (item_timestamp tx)]
         | None => outgoing
         end
       else outgoing)
    txs [].

(** The label lookup of the loop: [None] when the address has no label or
    an empty one ([if label:]). *)
Definition known_label (to_addr_lower : string) : option string :=
  match KNOWN_ADDRESSES !! to_addr_lower with
  | Some label => if truthy label then Some label else None
  | None => None
  end.

(** The body of [for tx_info in outgoing]. *)
Definition trace_edge (current_addr : string) (current_depth : Z) (path : list string)
    (st : TraceState) (tx_info : Outgoing) : TraceState :=
  let to_addr := o_to tx_info in
  let to_addr_lower := lower to_addr in
  let value := o_eth tx_info in
  let g := graph st in
  let t := totals g in
  let edges' := edges g ++ [mkEdge current_addr to_addr value (o_hash tx_info)] in
  let tracked := PrimFloat.add (total_eth_tracked t) value in
  match known_label to_addr_lower with
  | Some label =>
      if contains "Tornado" label then
        mkTraceState (visited st) (queue st)
          (mkGraph (nodes g) edges'
             (endpoints g ++ [mkEndpoint to_addr label "mixer" value (path ++ [to_addr])])
             (mkTotals (addresses_traced t) tracked (eth_to_exchanges t)
                (PrimFloat.add (eth_to_mixers t) value) (eth_to_unknown t)))
          (stdout st)
      else if is_exchange_label label then
        mkTraceState (visited st) (queue st)
          (mkGraph (nodes g) edges'
             (endpoints g ++ [mkEndpoint to_addr label "exchange" value (path ++ [to_addr])])
             (mkTotals (addresses_traced t) tracked
                (PrimFloat.add (eth_to_exchanges t) value)
                (eth_to_mixers t) (eth_to_unknown t)))
          (stdout st)
      else
        mkTraceState (visited st) (queue st)
          (mkGraph (nodes g) edges' (endpoints g)
             (mkTotals (addresses_traced t) tracked (eth_to_exchanges t)
                (eth_to_mixers t) (eth_to_unknown t)))
          (stdout st)
  | None =>
      mkTraceState (visited st)
        (if bool_decide (to_addr_lower ∉ visited st) && (current_depth + 1 <? depth)%Z
         then queue st ++ [(to_addr, (current_depth + 1)%Z, path ++ [to_addr])]
         else queue st)
        (mkGraph (nodes g) edges' (endpoints g)
           (mkTotals (addresses_traced t) tracked (eth_to_exchanges t)
              (eth_to_mixers t) (PrimFloat.add (eth_to_unknown t) value)))
        (stdout st)
  end.

(** One iteration of the [while] loop, after [queue.pop(0)] returned
    [(current_addr, current_depth, path)] and left [st]. *)
Definition trace_iteration (current_addr : string) (current_depth : Z)
    (path : list string) (st : TraceState) : TraceState :=
  let current_addr_lower := lower current_addr in
  if bool_decide (current_addr_lower ∈ visited st) || (depth <=? current_depth)%Z
  then st
  else
    let g := graph st in
    let t := totals g in
    let st :=
      mkTraceState ({[current_addr_lower]} ∪ visited st) (queue st)
        (mkGraph (nodes g) (edges g) (endpoints g)
           (mkTotals (addresses_traced t + 1)%Z (total_eth_tracked t)
              (eth_to_exchanges t) (eth_to_mixers t) (eth_to_unknown t)))
        (if verbose then stdout st ++ [(current_depth, current_addr)] else stdout st) in
    let txs := get_outgoing_transactions current_addr in
    let outgoing := filter_outgoing txs in
    let st := fold_left (trace_edge current_addr current_depth path) outgoing st in
    let g := graph st in
    mkTraceState (visited st) (queue st)
      (mkGraph
         (<[current_addr_lower :=
              mkNodeInfo (length txs) (length outgoing)
                (KNOWN_ADDRESSES !! current_addr_lower)]> (nodes g))
         (edges g) (endpoints g) (totals g))
      (stdout st).

Fixpoint trace_loop (fuel : nat) (st : TraceState) : option TraceState :=
  match queue st with
  | [] => Some st
  | (current_addr, current_depth, path) :: rest =>
      match fuel with
      | 0 => None
      | S fuel' =>
          trace_loop fuel'
            (trace_iteration current_addr current_depth path
               (mkTraceState (visited st) rest (graph st) (stdout st)))
      end
  end.

(** A bound on the iterations one queue entry can cause. *)
Fixpoint hop_weight (rank : nat) (addr : string) : nat :=
  match rank with
  | 0 => 1
  | S rank' =>
      S (list_sum (map (λ o, hop_weight rank' (o_to o))
                     (filter_outgoing (get_outgoing_transactions addr))))
  end.

Definition trace_init (start_addr : string) : TraceState :=
  mkTraceState ∅ [(start_addr, 0%Z, [start_addr])]
    (mkGraph ∅ [] [] (mkTotals 0 0%float 0%float 0%float 0%float)) [].

Definition trace_run (start_addr : string) : option TraceState :=
  trace_loop (hop_weight (Z.to_nat depth) start_addr) (trace_init start_addr).

Definition trace_hops (start_addr : string) : option Graph :=
  graph <$> trace_run start_addr.

End Tracer.

End MultiHopTracerV2.

(* ===================================================================== *)
(** * RateLimiter (src/network_expander.py, src/haiku_tracer.py) *)
(* ===================================================================== *)

Module RateLimiter.
Local Open Scope Q_scope.

(** The fields of a [RateLimiter].  Times and token counts are Python
    floats; here they are exact rationals, seconds on the clock of
    [time.time()]. *)
Record Limiter := mkLimiter { rate : Q; tokens : Q; last_update : Q }.


(** The refill of [acquire]:
    [min(self.rate, self.tokens + elapsed * self.rate)]. *)
Definition topped_up (l : Limiter) (now : Q) : Q :=
  Qmin (rate l) (tokens l + (now - last_update l) * rate l).

(** [acquire()] by a caller that obtains the lock at time [now]: the limiter
    afterwards and the time slept while holding the lock (0 on the branch
    that takes a token). *)
Definition acquire (l : Limiter) (now : Q) : Limiter * Q :=
  let t := topped_up l now in
  if Qlt_le_dec t 1
  then (mkLimiter (rate l) 0 now, (1 - t) / rate l)
  else (mkLimiter (rate l) (t - 1) now, 0).

(** [n] callers contending for the lock from time [now] on: the lock is held
    through the sleep, so each caller obtains it when the one before
    returns.  The result lists the times at which the callers return from
    [acquire], in order. *)
Fixpoint contend (l : Limiter) (now : Q) (n : nat) : list Q :=
  match n with
  | O => []
  | S n' =>
      let '(l', wait) := acquire l now in
      (now + wait) :: contend l' (now + wait) n'
  end.


End RateLimiter.

(* ===================================================================== *)
(** * The classifier: partition, counter and modal destination *)
(* ===================================================================== *)

Module ClassifierFacts.
Import PyStr NetworkExpander.

Lemma eqb_string_true (a b : string) : String.eqb a b = true ↔ a = b.
Proof. apply String.eqb_eq. Qed.

Lemma eqb_string_false (a b : string) : String.eqb a b = false ↔ a ≠ b.
Proof. apply String.eqb_neq. Qed.

Lemma partition_from address txs inflows outflows :
  fold_left (partition_step address) txs (inflows, outflows)
  = (inflows ++ filter (λ tx, is_inflow address tx = true) txs,
     outflows ++ filter (λ tx, is_outflow address tx = true) txs).
Proof.
  revert inflows outflows.
  induction txs as [|tx txs IH]; intros inflows outflows; cbn [fold_left].
  - now rewrite !app_nil_r.
  - rewrite !filter_cons.
    destruct (partition_step address (inflows, outflows) tx) as [i' o'] eqn:E.
    rewrite IH. unfold partition_step in E. unfold is_inflow, is_outflow.
    destruct (String.eqb (lower (tx_from tx)) address) eqn:Ef; simpl.
    + injection E as <- <-. now rewrite <- app_assoc.
    + destruct (String.eqb (lower (tx_to tx)) address) eqn:Et;
        injection E as <- <-; simpl; now rewrite <- ?app_assoc.
Qed.

Lemma partition_txs_filter address txs :
  partition_txs address txs
  = (filter (λ tx, is_inflow address tx = true) txs,
     filter (λ tx, is_outflow address tx = true) txs).
Proof. unfold partition_txs. now rewrite partition_from. Qed.

Lemma count_destinations_tally outflows :
  count_destinations outflows = tally (dests outflows).
Proof.
  unfold count_destinations, tally, dests.
  generalize (@nil (string * nat)).
  induction outflows as [|tx o IH]; intros d; simpl; [reflexivity|apply IH].
Qed.

Lemma tally_snoc l x : tally (l ++ [x]) = dict_incr (tally l) x.
Proof. unfold tally. now rewrite fold_left_app. Qed.

Lemma occurrences_snoc k l x :
  occurrences k (l ++ [x]) = occurrences k l + (if String.eqb x k then 1 else 0).
Proof.
  induction l as [|y l IH]; simpl; [lia|]. rewrite IH. lia.
Qed.

Lemma occurrences_pos k l : k ∈ l → 0 < occurrences k l.
Proof.
  induction l as [|y l IH]; intros Hin; [by apply elem_of_nil in Hin|].
  simpl. destruct (String.eqb y k) eqn:E; [lia|].
  apply eqb_string_false in E. apply elem_of_cons in Hin as [->|Hin]; [done|].
  specialize (IH Hin). lia.
Qed.

Lemma first_index_lt k l : k ∈ l → first_index k l < length l.
Proof.
  induction l as [|y l IH]; intros Hin; [by apply elem_of_nil in Hin|].
  simpl. destruct (String.eqb y k) eqn:E; [lia|].
  apply eqb_string_false in E. apply elem_of_cons in Hin as [->|Hin]; [done|].
  specialize (IH Hin). lia.
Qed.

Lemma first_index_snoc_in k l x : k ∈ l → first_index k (l ++ [x]) = first_index k l.
Proof.
  induction l as [|y l IH]; intros Hin; [by apply elem_of_nil in Hin|].
  simpl. destruct (String.eqb y k) eqn:E; [done|].
  apply eqb_string_false in E. apply elem_of_cons in Hin as [->|Hin]; [done|].
  now rewrite IH.
Qed.

Lemma first_index_snoc_new l x : x ∉ l → first_index x (l ++ [x]) = length l.
Proof.
  induction l as [|y l IH]; intros Hni; simpl.
  - now rewrite String.eqb_refl.
  - apply not_elem_of_cons in Hni as [Hne Hni].
    destruct (String.eqb y x) eqn:E; [apply eqb_string_true in E; congruence|].
    now rewrite IH.
Qed.

Lemma first_index_inj a b l :
  a ∈ l → b ∈ l → first_index a l = first_index b l → a = b.
Proof.
  induction l as [|y l IH]; intros Ha Hb; [by apply elem_of_nil in Ha|].
  simpl.
  destruct (String.eqb y a) eqn:Ea, (String.eqb y b) eqn:Eb; try lia.
  - apply eqb_string_true in Ea, Eb. congruence.
  - apply eqb_string_false in Ea, Eb.
    apply elem_of_cons in Ha as [->|Ha]; [done|].
    apply elem_of_cons in Hb as [->|Hb]; [done|].
    intros H. apply IH; auto.
Qed.

(** The modal destination is unique. *)
Lemma modal_destination_unique l d d' :
  modal_destination l d → modal_destination l d' → d = d'.
Proof.
  intros [Hd H1] [Hd' H2].
  destruct (H1 d' Hd') as [?|[? ?]], (H2 d Hd) as [?|[? ?]]; try lia.
  apply (first_index_inj d d' l); auto. lia.
Qed.


(** ** The counter as a function of the list read so far *)

Definition entry (l : list string) (k : string) : string * nat :=
  (k, occurrences k l).

Definition by_first (l : list string) (a b : string) : Prop :=
  first_index a l < first_index b l.

(** What the counter holds after reading [l]: one entry per distinct element,
    with its number of occurrences, in order of first occurrence. *)
Definition tally_inv (l : list string) (d : list (string * nat)) : Prop :=
  ∃ ks, d = map (entry l) ks ∧ NoDup ks ∧ (∀ k, k ∈ ks ↔ k ∈ l) ∧
        StronglySorted (by_first l) ks.

Lemma dict_incr_present (c c' : string → nat) ks x :
  NoDup ks → x ∈ ks →
  (∀ k, k ∈ ks → c' k = c k + (if String.eqb x k then 1 else 0)) →
  dict_incr (map (λ k, (k, c k)) ks) x = map (λ k, (k, c' k)) ks.
Proof.
  induction ks as [|k ks IH]; intros Hnd Hin Hc; [by apply elem_of_nil in Hin|].
  apply NoDup_cons in Hnd as [Hk Hnd]. simpl.
  destruct (String.eqb k x) eqn:E.
  - apply eqb_string_true in E. subst k. f_equal.
    + rewrite (Hc x) by left. rewrite String.eqb_refl. f_equal. lia.
    + apply map_ext_in. intros k' Hk'. apply list_elem_of_In in Hk'.
      rewrite (Hc k') by now right.
      destruct (String.eqb x k') eqn:E'; [|f_equal; lia].
      apply eqb_string_true in E'. congruence.
  - apply eqb_string_false in E. f_equal.
    + rewrite (Hc k) by left.
      destruct (String.eqb x k) eqn:E'; [|f_equal; lia].
      apply eqb_string_true in E'. congruence.
    + apply IH; auto.
      * apply elem_of_cons in Hin as [->|Hin]; [done|exact Hin].
      * intros k' Hk'. apply Hc. now right.
Qed.

Lemma dict_incr_absent (c c' : string → nat) ks x :
  x ∉ ks → c' x = 1 →
  (∀ k, k ∈ ks → c' k = c k) →
  dict_incr (map (λ k, (k, c k)) ks) x = map (λ k, (k, c' k)) (ks ++ [x]).
Proof.
  induction ks as [|k ks IH]; intros Hni H1 Hc; simpl.
  - now rewrite H1.
  - apply not_elem_of_cons in Hni as [Hne Hni].
    destruct (String.eqb k x) eqn:E; [apply eqb_string_true in E; congruence|].
    f_equal.
    + rewrite (Hc k) by left. reflexivity.
    + apply IH; auto. intros k' Hk'. apply Hc. now right.
Qed.

Lemma StronglySorted_snoc {A} (R : A → A → Prop) l x :
  StronglySorted R l → Forall (λ a, R a x) l → StronglySorted R (l ++ [x]).
Proof.
  induction 1 as [|a l Hs IH Ha]; intros Hx; simpl.
  - repeat constructor.
  - apply Forall_cons in Hx as [Hax Hx]. constructor; [now apply IH|].
    apply Forall_app. split; [exact Ha|]. now repeat constructor.
Qed.

Lemma StronglySorted_drop {A} (R : A → A → Prop) l1 l2 :
  StronglySorted R (l1 ++ l2) → StronglySorted R l2.
Proof.
  induction l1 as [|a l1 IH]; simpl; [done|].
  intros H. apply StronglySorted_inv in H as [H _]. now apply IH.
Qed.

Lemma StronglySorted_impl_in {A} (R R' : A → A → Prop) l :
  (∀ a b, a ∈ l → b ∈ l → R a b → R' a b) →
  StronglySorted R l → StronglySorted R' l.
Proof.
  intros HR Hs. induction Hs as [|a l Hs IH Ha]; [constructor|].
  constructor.
  - apply IH. intros x y Hx Hy. apply HR; now right.
  - rewrite Forall_forall in Ha |- *. intros y Hy.
    apply HR; [left|now right|now apply Ha].
Qed.

Lemma tally_inv_step l d x : tally_inv l d → tally_inv (l ++ [x]) (dict_incr d x).
Proof.
  intros (ks & -> & Hnd & Hks & Hs).
  destruct (decide (x ∈ ks)) as [Hin|Hni].
  - exists ks. split; [|split; [exact Hnd|split]].
    + unfold entry. apply dict_incr_present; auto.
      intros k _. apply occurrences_snoc.
    + intros k. rewrite Hks, elem_of_app, list_elem_of_singleton.
      split; [auto|]. intros [? | ->]; [done|now apply Hks].
    + eapply StronglySorted_impl_in; [|exact Hs].
      intros a b Ha Hb. unfold by_first.
      rewrite !first_index_snoc_in by now apply Hks. done.
  - exists (ks ++ [x]). split; [|split; [|split]].
    + unfold entry. apply dict_incr_absent; auto.
      * rewrite occurrences_snoc, String.eqb_refl.
        assert (occurrences x l = 0) as ->; [|done].
        destruct (occurrences x l) eqn:E; [done|].
        assert (x ∈ l) as Hx; [|now apply Hks in Hx].
        clear -E. induction l as [|y l IH]; simpl in E; [done|].
        destruct (String.eqb y x) eqn:E'.
        -- apply eqb_string_true in E'. subst. left.
        -- right. apply IH. exact E.
      * intros k Hk. rewrite occurrences_snoc.
        destruct (String.eqb x k) eqn:E; [|lia].
        apply eqb_string_true in E. congruence.
    + apply NoDup_app. split; [exact Hnd|]. split; [|apply NoDup_singleton].
      intros y Hy Hy'. apply list_elem_of_singleton in Hy'. congruence.
    + intros k. rewrite !elem_of_app, Hks. done.
    + apply StronglySorted_snoc.
      * eapply StronglySorted_impl_in; [|exact Hs].
        intros a b Ha Hb. unfold by_first.
        rewrite !first_index_snoc_in by now apply Hks. done.
      * apply Forall_forall. intros a Ha. unfold by_first.
        rewrite first_index_snoc_in by now apply Hks.
        rewrite first_index_snoc_new by (intros Hx; now apply Hks in Hx).
        apply first_index_lt. now apply Hks.
Qed.

Lemma tally_inv_holds l : tally_inv l (tally l).
Proof.
  induction l as [|x l IH] using rev_ind.
  - exists []. repeat split; try constructor; intros H; by apply elem_of_nil in H.
  - rewrite tally_snoc. now apply tally_inv_step.
Qed.


(** ** [max] over the counter *)

Lemma max_step_from (c : string → nat) ks pre b mid :
  Forall (λ x, c x < c b) pre → Forall (λ x, c x ≤ c b) mid →
  ∃ k k1 k2,
    fold_left max_step (map (λ k, (k, c k)) ks) (Some (b, c b)) = Some (k, c k) ∧
    pre ++ b :: mid ++ ks = k1 ++ k :: k2 ∧
    Forall (λ x, c x < c k) k1 ∧ Forall (λ x, c x ≤ c k) k2.
Proof.
  revert pre b mid.
  induction ks as [|y ks IH]; intros pre b mid Hpre Hmid; simpl.
  - exists b, pre, mid. now rewrite app_nil_r.
  - destruct (c b <? c y) eqn:E.
    + apply Nat.ltb_lt in E.
      destruct (IH (pre ++ b :: mid) y []) as (k & k1 & k2 & Hf & Heq & H1 & H2).
      * apply Forall_app. split; [|constructor; [exact E|]].
        -- eapply Forall_impl; [exact Hpre|]. simpl. intros; lia.
        -- eapply Forall_impl; [exact Hmid|]. simpl. intros; lia.
      * constructor.
      * exists k, k1, k2. split; [exact Hf|]. split; [|done].
        rewrite <- Heq. simpl. now rewrite <- app_assoc.
    + apply Nat.ltb_ge in E.
      destruct (IH pre b (mid ++ [y])) as (k & k1 & k2 & Hf & Heq & H1 & H2).
      * exact Hpre.
      * apply Forall_app. split; [exact Hmid|]. now repeat constructor.
      * exists k, k1, k2. split; [exact Hf|]. split; [|done].
        rewrite <- Heq. now rewrite <- app_assoc.
Qed.

Lemma py_max_by_value_spec (c : string → nat) ks :
  ks ≠ [] →
  ∃ k k1 k2,
    py_max_by_value (map (λ k, (k, c k)) ks) = Some k ∧
    ks = k1 ++ k :: k2 ∧
    Forall (λ x, c x < c k) k1 ∧ Forall (λ x, c x ≤ c k) k2.
Proof.
  destruct ks as [|b ks]; [done|]. intros _. unfold py_max_by_value. simpl.
  destruct (max_step_from c ks [] b []) as (k & k1 & k2 & Hf & Heq & H1 & H2);
    [constructor|constructor|].
  exists k, k1, k2. rewrite Hf. simpl in Heq. done.
Qed.

(** The counter's maximum is the modal destination with the earliest-seen
    tie-break. *)
Lemma primary_dest_modal l :
  l ≠ [] → ∃ d, py_max_by_value (tally l) = Some d ∧ modal_destination l d.
Proof.
  intros Hl. destruct (tally_inv_holds l) as (ks & Hd & Hnd & Hks & Hs).
  assert (ks ≠ []) as Hne.
  { destruct l as [|x l]; [done|]. intros ->.
    specialize (Hks x). rewrite elem_of_nil in Hks. apply Hks. left. }
  destruct (py_max_by_value_spec (λ k, occurrences k l) ks Hne)
    as (k & k1 & k2 & Hmax & Heq & H1 & H2).
  exists k. split; [rewrite Hd; exact Hmax|].
  split.
  - apply Hks. rewrite Heq. apply elem_of_app. right. left.
  - intros x Hx. apply Hks in Hx. rewrite Heq in Hx.
    apply elem_of_app in Hx as [Hx|Hx].
    + left. rewrite Forall_forall in H1. now apply H1.
    + apply elem_of_cons in Hx as [->|Hx]; [right; done|].
      rewrite Forall_forall in H2. specialize (H2 x Hx). simpl in H2.
      destruct (decide (occurrences x l = occurrences k l)) as [E|E]; [|left; lia].
      right. split; [exact E|].
      rewrite Heq in Hs. apply StronglySorted_drop in Hs.
      apply StronglySorted_inv in Hs as [_ Hs].
      rewrite Forall_forall in Hs. specialize (Hs x Hx). unfold by_first in Hs. lia.
Qed.

Lemma primary_dest_iff l d :
  py_max_by_value (tally l) = Some d ↔ l ≠ [] ∧ modal_destination l d.
Proof.
  split.
  - intros H. destruct l as [|x l]; [discriminate H|].
    split; [done|].
    destruct (primary_dest_modal (x :: l)) as (d' & H' & Hm); [done|].
    congruence.
  - intros [Hl Hm]. destruct (primary_dest_modal l Hl) as (d' & H' & Hm').
    now rewrite (modal_destination_unique l d d').
Qed.

End ClassifierFacts.

(* ===================================================================== *)
(** * Claims about the classifier *)
(* ===================================================================== *)

Module ClassifierClaims.
Import PyStr NetworkExpander ClassifierFacts.

(** The inflows and outflows of [address] among [txs], as the partition loop
    collects them. *)
Definition inflows_of (address : string) (txs : list Tx) : list Tx :=
  filter (λ tx, is_inflow (lower address) tx = true) txs.

Definition outflows_of (address : string) (txs : list Tx) : list Tx :=
  filter (λ tx, is_outflow (lower address) tx = true) txs.

(** The funnel conditions of the specification, reporting the label of the
    modal destination. *)
Definition funnel_conditions (table : gmap string string)
    (address : string) (txs : list Tx) (name : string) : Prop :=
  1 ≤ length (inflows_of address txs) ∧ length (inflows_of address txs) ≤ 20 ∧
  outflows_of address txs ≠ [] ∧
  ∃ d, modal_destination (dests (outflows_of address txs)) d ∧ table !! d = Some name.

Definition binance14 : string := "0x28c6c06298d514db089934071355e5743bf21d60".

(** A deposit address: one inflow, swept twice to Binance 14 and once
    elsewhere. *)
Definition funnel_txs : list Tx :=
  [ mkTx "0xbb" "0xAA"; mkTx "0xaa" "0xcc";
    mkTx "0xaa" binance14; mkTx "0xAA" binance14 ].

(** C4, as stated, fails: for an address of the table and an empty transfer
    list the classifier answers (False, None); the [if not txs] guard comes
    before the table lookup. *)
Lemma C4_known_address_empty_transfers :
  KNOWN_EXCHANGE_HOT_WALLETS !! lower binance14 = Some "Binance 14" ∧
  is_exchange_deposit_pattern KNOWN_EXCHANGE_HOT_WALLETS binance14 [] = (false, None).
Proof. split; reflexivity. Qed.

(** C4, amended: for an address of the table and a non-empty transfer list,
    the classifier answers (True, label of the address) whatever the
    transfers are; no heuristic is consulted. *)
Theorem C4_known_address_short_circuit
    (table : gmap string string) (address : string) (txs : list Tx) (name : string) :
  txs ≠ [] →
  table !! lower address = Some name →
  is_exchange_deposit_pattern table address txs = (true, Some name).
Proof.
  intros Hne Hk. unfold is_exchange_deposit_pattern.
  destruct txs as [|tx txs]; [done|]. now rewrite Hk.
Qed.

Lemma C4_known_address_short_circuit_witness :
  [mkTx "0xbb" "0xcc"] ≠ [] ∧
  KNOWN_EXCHANGE_HOT_WALLETS !! lower binance14 = Some "Binance 14" ∧
  is_exchange_deposit_pattern KNOWN_EXCHANGE_HOT_WALLETS binance14 [mkTx "0xbb" "0xcc"]
  = (true, Some "Binance 14").
Proof.
  split; [discriminate|]. split; [reflexivity|].
  apply (C4_known_address_short_circuit
           KNOWN_EXCHANGE_HOT_WALLETS binance14 [mkTx "0xbb" "0xcc"] "Binance 14");
    [discriminate|reflexivity].
Defined.

(** C6: for an address that is not itself in the table, the classifier
    answers (True, label) exactly when the inflow count is between 1 and 20,
    an outflow exists and the modal destination of the outflows (plurality,
    ties to the earliest-seen destination) is in the table with that label;
    every other answer is (False, None).  The classifier is a function of
    the address, the transfers and the table, so equal inputs give equal
    answers. *)
Theorem C6_deposit_funnel_exactly_when
    (table : gmap string string) (address : string) (txs : list Tx) :
  table !! lower address = None →
  (∀ name, is_exchange_deposit_pattern table address txs = (true, Some name)
           ↔ funnel_conditions table address txs name) ∧
  (is_exchange_deposit_pattern table address txs = (false, None) ∨
   ∃ name, is_exchange_deposit_pattern table address txs = (true, Some name)).
Proof.
  intros Hk. unfold funnel_conditions, inflows_of, outflows_of.
  unfold is_exchange_deposit_pattern.
  destruct txs as [|tx0 txs0] eqn:Etxs.
  { split; [|now left]. intros name. split; [discriminate|].
    intros (H1 & _). simpl in H1. lia. }
  rewrite <- Etxs. clear Etxs tx0 txs0. rewrite Hk.
  rewrite partition_txs_filter.
  set (inflows := filter (λ tx, is_inflow (lower address) tx = true) txs).
  set (outflows := filter (λ tx, is_outflow (lower address) tx = true) txs).
  destruct ((length inflows <? 1) || (20 <? length inflows)) eqn:Erange.
  { split; [|now left]. intros name. split; [discriminate|].
    intros (H1 & H2 & _).
    apply orb_true_iff in Erange as [E|E]; apply Nat.ltb_lt in E; lia. }
  apply orb_false_iff in Erange as [E1 E2].
  apply Nat.ltb_ge in E1, E2.
  destruct outflows as [|o outflows'] eqn:Eout.
  { split; [|now left]. intros name. split; [discriminate|].
    intros (_ & _ & H & _). done. }
  rewrite <- Eout. rewrite count_destinations_tally.
  assert (dests outflows ≠ []) as Hne by (rewrite Eout; discriminate).
  destruct (primary_dest_modal (dests outflows) Hne) as (d & Hmax & Hmodal).
  rewrite Hmax.
  destruct (table !! d) as [label|] eqn:Ed.
  - split; [|right; now exists label]. intros name. split.
    + intros [= <-]. repeat split; auto. { rewrite Eout; discriminate. }
      exists d. now split.
    + intros (_ & _ & _ & d' & Hm' & Hd').
      rewrite (modal_destination_unique _ _ _ Hm' Hmodal) in Hd'. congruence.
  - split; [|now left]. intros name. split; [discriminate|].
    intros (_ & _ & _ & d' & Hm' & Hd').
    rewrite (modal_destination_unique _ _ _ Hm' Hmodal) in Hd'. congruence.
Qed.

Lemma C6_deposit_funnel_exactly_when_witness :
  KNOWN_EXCHANGE_HOT_WALLETS !! lower "0xaa" = None ∧
  funnel_conditions KNOWN_EXCHANGE_HOT_WALLETS "0xaa" funnel_txs "Binance 14".
Proof.
  split; [reflexivity|].
  apply (proj1 (C6_deposit_funnel_exactly_when
                  KNOWN_EXCHANGE_HOT_WALLETS "0xaa" funnel_txs eq_refl)).
  reflexivity.
Defined.

End ClassifierClaims.

(* ===================================================================== *)
(** * The expansion loop: termination and invariants *)
(* ===================================================================== *)

Module ExpanderFacts.
Import PyStr NetworkExpander.

Lemma list_sum_sublist {A} (w : A → nat) (l1 l2 : list A) :
  sublist l1 l2 → list_sum (map w l1) ≤ list_sum (map w l2).
Proof. induction 1; simpl; lia. Qed.

Lemma list_sum_snoc l n : list_sum (l ++ [n]) = list_sum l + n.
Proof. rewrite list_sum_app. simpl. lia. Qed.

Section Loop.

Variable KNOWN : gmap string string.
Variable api : string → string → Response.
Variable max_depth : Z.
Variable direction : string.

Local Abbreviation expand_peer := (expand_peer KNOWN).
Local Abbreviation analyze_address := (analyze_address KNOWN api).
Local Abbreviation bfs_iteration := (bfs_iteration KNOWN api max_depth direction).
Local Abbreviation bfs_loop := (bfs_loop KNOWN api max_depth direction).
Local Abbreviation next_addrs := (next_addrs direction).
Local Abbreviation weight := (weight KNOWN api direction).
Local Abbreviation queue_weight := (queue_weight KNOWN api max_depth direction).
Local Abbreviation rank_of := (rank_of max_depth).

(** What the [for next_addr in next_addrs] loop does to the state: it
    enqueues a duplicate-free sublist [enq] of the peers, none of them
    visited before or in the table, and records a touchpoint per skipped
    table peer. *)
Record PeersEffect (address : string) (depth : Z) (peers : list string)
    (st st' : State) (enq : list string) (direct : list Touchpoint) : Prop := {
  pe_graph : graph st' = graph st;
  pe_stderr : stderr st' = stderr st;
  pe_queue : queue st' = queue st ++ ((λ p, (p, (depth + 1)%Z)) <$> enq);
  pe_visited : visited st' = list_to_set enq ∪ visited st;
  pe_touch : kyc_touchpoints st' = kyc_touchpoints st ++ direct;
  pe_sublist : sublist enq peers;
  pe_nodup : NoDup enq;
  pe_new : ∀ p, p ∈ enq → (p ∉ visited st) ∧ KNOWN !! p = None;
  pe_direct : ∀ t, t ∈ direct →
      ∃ name via, t = DirectPeer address name depth via ∧ KNOWN !! via = Some name
}.

Lemma expand_peers_effect address depth peers st :
  ∃ enq direct,
    PeersEffect address depth peers st
      (fold_left (expand_peer address depth) peers st) enq direct.
Proof.
  revert st. induction peers as [|p peers IH]; intros st; simpl.
  - exists [], []. split; simpl; rewrite ?app_nil_r; auto; try constructor; set_solver.
  - destruct (IH (expand_peer address depth st p)) as (enq & direct & E).
    destruct E as [Eg Es Eq Ev Et Esub End Enew Edir].
    unfold NetworkExpander.expand_peer in *.
    destruct (decide (p ∈ visited st)) as [Hv|Hv].
    + exists enq, direct. split; auto. now constructor.
    + destruct (KNOWN !! p) as [name|] eqn:Hk; simpl in *.
      * exists enq, (DirectPeer address name depth p :: direct).
        split; auto.
        -- rewrite Et. now rewrite <- app_assoc.
        -- now constructor.
        -- intros t Ht. apply elem_of_cons in Ht as [->|Ht]; [eauto|auto].
      * exists (p :: enq), direct. split; auto.
        -- rewrite Eq. now rewrite <- app_assoc.
        -- rewrite Ev. set_solver.
        -- now constructor.
        -- constructor; [|exact End]. intros Hp.
           destruct (Enew p Hp) as [Hn _]. set_solver.
        -- intros q Hq. apply elem_of_cons in Hq as [->|Hq]; [done|].
           destruct (Enew q Hq) as [Hn Hkq]. split; [set_solver|done].
Qed.

(** ** Termination *)

Lemma rank_of_step depth :
  (max_depth <=? depth)%Z = false → rank_of depth = S (rank_of (depth + 1)).
Proof. intros H. apply Z.leb_gt in H. unfold NetworkExpander.rank_of. lia. Qed.

Lemma rank_of_limit depth :
  (max_depth <=? depth)%Z = true → rank_of depth = 0.
Proof. intros H. apply Z.leb_le in H. unfold NetworkExpander.rank_of. lia. Qed.

Lemma queue_weight_app q1 q2 :
  queue_weight (q1 ++ q2) = queue_weight q1 + queue_weight q2.
Proof. unfold NetworkExpander.queue_weight. now rewrite map_app, list_sum_app. Qed.

Lemma bfs_iteration_weight address depth st :
  queue_weight (queue (bfs_iteration address depth st))
  < queue_weight ((address, depth) :: queue st).
Proof.
  unfold NetworkExpander.bfs_iteration.
  destruct (max_depth <=? depth)%Z eqn:Hd.
  - simpl. unfold NetworkExpander.queue_weight at 2. simpl.
    rewrite (rank_of_limit _ Hd). simpl.
    unfold NetworkExpander.queue_weight. lia.
  - match goal with |- context [fold_left ?f ?l ?s] =>
      destruct (expand_peers_effect address depth l s) as (enq & direct & E) end.
    rewrite (pe_queue _ _ _ _ _ _ _ E). simpl queue.
    rewrite queue_weight_app.
    unfold NetworkExpander.queue_weight at 3. simpl.
    rewrite (rank_of_step _ Hd). simpl.
    assert (queue_weight ((λ p, (p, (depth + 1)%Z)) <$> enq)
            ≤ list_sum (map (weight (rank_of (depth + 1)))
                          (next_addrs (analyze_address address)))) as Hle.
    { unfold NetworkExpander.queue_weight.
      change (list_fmap ?A ?B ?f ?l) with (map f l). rewrite map_map. simpl.
      apply (list_sum_sublist (weight (rank_of (depth + 1)))).
      exact (pe_sublist _ _ _ _ _ _ _ E). }
    unfold NetworkExpander.queue_weight in *. lia.
Qed.

Lemma bfs_loop_terminates fuel st :
  queue_weight (queue st) ≤ fuel → ∃ st', bfs_loop fuel st = Some st'.
Proof.
  revert st. induction fuel as [|fuel IH]; intros st Hw.
  - destruct st as [v q g t e]. simpl in *. destruct q as [|[a d] q]; [eauto|].
    exfalso. unfold NetworkExpander.queue_weight in Hw. simpl in Hw.
    destruct (rank_of d); simpl in Hw; lia.
  - destruct st as [v q g t e]. simpl in *. destruct q as [|[a d] q]; [eauto|].
    apply IH.
    pose proof (bfs_iteration_weight a d (mkState v q g t e)) as Hlt.
    simpl in Hlt. lia.
Qed.

(** ** The invariant of the loop *)

Variable seeds : list string.

(** The seeds as the loop sees them. *)
Definition seedset : list string := lower <$> seeds.
Definition seed_entries : list (string * Z) := (λ s, (lower s, 0%Z)) <$> seeds.

(** Every queue entry there has been so far, in order of creation: the ones
    already taken (one [stderr] line each) and the ones still queued. *)
Definition history (st : State) : list (string * Z) :=
  ((λ e, (snd e, fst e)) <$> stderr st) ++ queue st.

Record Inv (st : State) : Prop := {
  inv_hist : ∃ disc,
      history st = seed_entries ++ disc ∧ NoDup disc.*1 ∧
      ∀ p, p ∈ disc.*1 → (p ∉ seedset) ∧ KNOWN !! p = None;
  inv_visited : visited st = list_to_set (history st).*1;
  inv_dom : dom (graph st) = list_to_set (stderr st).*2;
  inv_node : ∀ a n, graph st !! a = Some n →
      analysis n = analyze_address a ∧ (depth n, a) ∈ stderr st;
  inv_parent : ∀ a d, (a, d) ∈ history st → a ∉ seedset →
      ∃ u nu, graph st !! u = Some nu ∧ a ∈ next_addrs (analysis nu) ∧
              d = (depth nu + 1)%Z ∧ (depth nu < max_depth)%Z;
  inv_flag : ∀ a n, graph st !! a = Some n →
      is_exchange_deposit (analysis n) = true →
      FlaggedAddress a (exchange_name (analysis n)) (depth n) ∈ kyc_touchpoints st;
  inv_depth : ∀ a d, (a, d) ∈ history st → (0 ≤ d)%Z
}.

Lemma seed_entries_fst : seed_entries.*1 = seedset.
Proof.
  unfold seed_entries, seedset. now rewrite <- list_fmap_compose.
Qed.

Lemma seed_entries_depth a d : (a, d) ∈ seed_entries → d = 0%Z.
Proof.
  unfold seed_entries. intros H. apply list_elem_of_fmap in H as (s & [= -> ->] & _).
  done.
Qed.

Lemma filter_none (P : string → Prop) `{∀ x, Decision (P x)} (l : list string) :
  (∀ x, x ∈ l → ¬ P x) → filter P l = [].
Proof.
  induction l as [|y l IH]; intros Hl; [done|].
  rewrite filter_cons, decide_False by (apply Hl; left).
  apply IH. intros x Hx. apply Hl. now right.
Qed.

Lemma filter_all (P : string → Prop) `{∀ x, Decision (P x)} (l : list string) :
  (∀ x, x ∈ l → P x) → filter P l = l.
Proof.
  induction l as [|y l IH]; intros Hl; [done|].
  rewrite filter_cons, decide_True by (apply Hl; left).
  f_equal. apply IH. intros x Hx. apply Hl. now right.
Qed.

(** An address outside [S] occurs once in [S ++ D] when [D] has no
    duplicates. *)
Lemma once_outside (S D l1 l2 : list string) a :
  l1 ++ a :: l2 = S ++ D → NoDup D → (∀ p, p ∈ D → p ∉ S) → a ∉ S →
  (a ∉ l1) ∧ (a ∉ l2).
Proof.
  intros Heq Hnd Hd Ha.
  apply (f_equal (filter (λ x, x ∉ S))) in Heq.
  rewrite !filter_app, filter_cons, decide_True in Heq by done.
  rewrite (filter_none (λ x, x ∉ S) S) in Heq by (intros x Hx Hn; done).
  rewrite (filter_all (λ x, x ∉ S) D) in Heq by exact Hd.
  simpl in Heq. rewrite <- Heq in Hnd.
  apply NoDup_app in Hnd as (_ & Hdisj & Hnd2).
  apply NoDup_cons in Hnd2 as [Hn2 _].
  split.
  - intros Hin. apply (Hdisj a); [|left].
    apply list_elem_of_filter. done.
  - intros Hin. apply Hn2. apply list_elem_of_filter. done.
Qed.

Lemma history_seed_depth st a d :
  Inv st → (a, d) ∈ history st → a ∈ seedset → d = 0%Z.
Proof.
  intros HI Hin Ha. destruct (inv_hist _ HI) as (disc & Hh & _ & Hd).
  rewrite Hh in Hin. apply elem_of_app in Hin as [Hin|Hin].
  - now apply seed_entries_depth in Hin.
  - exfalso. destruct (Hd a) as [Hn _]; [|done].
    apply list_elem_of_fmap. exists (a, d). done.
Qed.

(** A node already in the graph whose address is taken from the queue again
    is the node that is about to be written. *)
Lemma retaken_node_same v a d q g t e nu :
  Inv (mkState v ((a, d) :: q) g t e) →
  g !! a = Some nu → nu = mkNode d (analyze_address a).
Proof.
  intros HI Hg. destruct (inv_node _ HI a nu Hg) as [Han Hlog]. simpl in *.
  assert (depth nu = d) as Hd.
  { destruct (decide (a ∈ seedset)) as [Hs|Hs].
    - rewrite (history_seed_depth _ a d HI); [|unfold history; simpl; set_solver|done].
      apply (history_seed_depth _ a (depth nu) HI); [|done].
      unfold history. simpl. apply elem_of_app. left.
      apply list_elem_of_fmap. exists (depth nu, a). done.
    - exfalso. destruct (inv_hist _ HI) as (disc & Hh & Hnd & Hdisc).
      unfold history in Hh. simpl in Hh.
      apply (f_equal (fmap fst)) in Hh.
      rewrite !fmap_app, fmap_cons, seed_entries_fst in Hh. simpl in Hh.
      destruct (once_outside _ _ _ _ _ Hh Hnd) as [Hn _]; [|done|].
      + intros p Hp. now apply Hdisc.
      + apply Hn. apply list_elem_of_fmap. exists (a, depth nu). split; [done|].
        apply list_elem_of_fmap. exists (depth nu, a). done. }
  destruct nu as [dn an]. simpl in *. congruence.
Qed.

(** Recording the analysed node keeps the invariant. *)
Lemma inv_record v a d q g t e :
  Inv (mkState v ((a, d) :: q) g t e) →
  let an := analyze_address a in
  Inv (mkState v q (<[a := mkNode d an]> g)
         (if is_exchange_deposit an
          then t ++ [FlaggedAddress a (exchange_name an) d] else t)
         (e ++ [(d, a)])).
Proof.
  intros HI an.
  assert (history (mkState v q (<[a := mkNode d an]> g)
                     (if is_exchange_deposit an
                      then t ++ [FlaggedAddress a (exchange_name an) d] else t)
                     (e ++ [(d, a)]))
          = history (mkState v ((a, d) :: q) g t e)) as Hh.
  { unfold history. simpl. rewrite fmap_app, <- app_assoc. done. }
  split.
  - rewrite Hh. exact (inv_hist _ HI).
  - rewrite Hh. exact (inv_visited _ HI).
  - simpl. rewrite dom_insert_L, fmap_app, list_to_set_app_L.
    pose proof (inv_dom _ HI) as Hd. simpl in Hd. rewrite Hd. set_solver.
  - intros b n. simpl. rewrite lookup_insert. case_decide as Hab.
    + intros [= <-]. subst b. simpl. split; [done|]. set_solver.
    + intros Hb. destruct (inv_node _ HI b n Hb) as [H1 H2]. simpl in H2.
      split; [done|]. set_solver.
  - intros b db. rewrite Hh. intros Hb Hs.
    destruct (inv_parent _ HI b db Hb Hs) as (u & nu & Hu & Hrest). simpl in Hu.
    exists u, nu. split; [|exact Hrest]. simpl.
    destruct (decide (a = u)) as [->|Hne].
    + rewrite (retaken_node_same _ _ _ _ _ _ _ _ HI Hu). apply lookup_insert_eq.
    + now rewrite lookup_insert_ne.
  - intros b n. simpl. rewrite lookup_insert. case_decide as Hab.
    + intros [= <-]. subst b. simpl. intros Hf. fold an. rewrite Hf. set_solver.
    + intros Hb Hf. pose proof (inv_flag _ HI b n Hb Hf) as Ht. simpl in Ht.
      destruct (is_exchange_deposit an); set_solver.
  - rewrite Hh. exact (inv_depth _ HI).
Qed.

(** Enqueueing the peers of the node just recorded keeps the invariant. *)
Lemma inv_peers a d st st' enq direct :
  Inv st → (d < max_depth)%Z →
  graph st !! a = Some (mkNode d (analyze_address a)) →
  PeersEffect a d (next_addrs (analyze_address a)) st st' enq direct →
  Inv st'.
Proof.
  intros HI Hd Ha [Eg Es Eq Ev Et Esub End Enew Edir].
  assert (history st' = history st ++ ((λ p, (p, (d + 1)%Z)) <$> enq)) as Hh.
  { unfold history. rewrite Es, Eq. now rewrite app_assoc. }
  assert (((λ p, (p, (d + 1)%Z)) <$> enq).*1 = enq) as Hfst.
  { rewrite <- list_fmap_compose. simpl. apply list_fmap_id. }
  pose proof (inv_visited _ HI) as Hv.
  destruct (inv_hist _ HI) as (disc & Hhist & Hnd & Hdisc).
  split.
  - exists (disc ++ ((λ p, (p, (d + 1)%Z)) <$> enq)).
    rewrite Hh, Hhist, <- app_assoc. split; [done|].
    rewrite fmap_app, Hfst. split.
    + apply NoDup_app. split; [exact Hnd|]. split; [|exact End].
      intros x Hx Hx'. destruct (Enew x Hx') as [Hn _]. apply Hn.
      rewrite Hv, Hhist, fmap_app. set_solver.
    + intros p Hp. apply elem_of_app in Hp as [Hp|Hp]; [now apply Hdisc|].
      destruct (Enew p Hp) as [Hn Hk]. split; [|exact Hk].
      intros Hs. apply Hn. rewrite Hv, Hhist, fmap_app, seed_entries_fst. set_solver.
  - rewrite Ev, Hh, fmap_app, Hfst, Hv. set_solver.
  - rewrite Eg, Es. exact (inv_dom _ HI).
  - intros b n. rewrite Eg, Es. exact (inv_node _ HI b n).
  - intros b db. rewrite Hh, Eg. intros Hb Hs.
    apply elem_of_app in Hb as [Hb|Hb]; [exact (inv_parent _ HI b db Hb Hs)|].
    apply list_elem_of_fmap in Hb as (p & [= -> ->] & Hp).
    exists a, (mkNode d (analyze_address a)). simpl.
    split; [exact Ha|]. split; [|done].
    exact (elem_of_sublist _ _ _ Hp Esub).
  - intros b n. rewrite Eg, Et. intros Hb Hf.
    pose proof (inv_flag _ HI b n Hb Hf). set_solver.
  - intros b db. rewrite Hh. intros Hb.
    apply elem_of_app in Hb as [Hb|Hb]; [exact (inv_depth _ HI b db Hb)|].
    apply list_elem_of_fmap in Hb as (p & [= -> ->] & Hp).
    destruct (inv_node _ HI a _ Ha) as [_ Hlog]. simpl in Hlog.
    assert (0 ≤ d)%Z; [|lia].
    apply (inv_depth _ HI a d). unfold history. apply elem_of_app. left.
    apply list_elem_of_fmap. exists (d, a). done.
Qed.

Lemma inv_iteration v a d q g t e :
  Inv (mkState v ((a, d) :: q) g t e) →
  Inv (bfs_iteration a d (mkState v q g t e)).
Proof.
  intros HI. pose proof (inv_record _ _ _ _ _ _ _ HI) as HR. simpl in HR.
  unfold NetworkExpander.bfs_iteration. simpl.
  destruct (max_depth <=? d)%Z eqn:Hd; [exact HR|].
  apply Z.leb_gt in Hd.
  match goal with |- Inv (fold_left ?f ?l ?s) =>
    destruct (expand_peers_effect a d l s) as (enq & direct & E) end.
  eapply inv_peers; [exact HR|exact Hd| |exact E].
  simpl. apply lookup_insert_eq.
Qed.

Lemma bfs_init_state l st :
  fold_left
    (λ st addr,
       let addr := lower addr in
       mkState ({[addr]} ∪ visited st) (queue st ++ [(addr, 0%Z)])
         (graph st) (kyc_touchpoints st) (stderr st)) l st
  = mkState (list_to_set (lower <$> l) ∪ visited st)
      (queue st ++ ((λ s, (lower s, 0%Z)) <$> l))
      (graph st) (kyc_touchpoints st) (stderr st).
Proof.
  revert st. induction l as [|s l IH]; intros st; simpl.
  - destruct st; simpl. rewrite app_nil_r. f_equal. set_solver.
  - rewrite IH. simpl. rewrite <- app_assoc. simpl. f_equal. set_solver.
Qed.

Lemma bfs_init_eq :
  bfs_init seeds = mkState (list_to_set seedset) seed_entries ∅ [] [].
Proof.
  unfold bfs_init. rewrite bfs_init_state. simpl. f_equal. set_solver.
Qed.

Lemma inv_init : Inv (bfs_init seeds).
Proof.
  rewrite bfs_init_eq. split; simpl.
  - exists []. unfold history. simpl. rewrite app_nil_r. split; [done|].
    split; [constructor|]. intros p Hp. by apply elem_of_nil in Hp.
  - unfold history. simpl. now rewrite seed_entries_fst.
  - set_solver.
  - intros a n Hn. by rewrite lookup_empty in Hn.
  - unfold history. simpl. intros a d Ha Hs. exfalso. apply Hs.
    rewrite <- seed_entries_fst. apply list_elem_of_fmap. exists (a, d). done.
  - intros a n Hn. by rewrite lookup_empty in Hn.
  - unfold history. simpl. intros a d Ha.
    apply seed_entries_depth in Ha. lia.
Qed.

Lemma bfs_loop_inv fuel st st' :
  bfs_loop fuel st = Some st' → Inv st → Inv st' ∧ queue st' = [].
Proof.
  revert st. induction fuel as [|fuel IH]; intros [v q g t e] Hrun HI; simpl in Hrun.
  - destruct q as [|[a d] q]; [|discriminate]. injection Hrun as <-. done.
  - destruct q as [|[a d] q]; [injection Hrun as <-; done|].
    apply (IH _ Hrun). now apply inv_iteration.
Qed.

(** ** What the invariant says of the state the loop ends in *)

Lemma history_fst_final st :
  queue st = [] → (history st).*1 = (stderr st).*2.
Proof.
  intros Hq. unfold history. rewrite Hq, app_nil_r, <- list_fmap_compose. done.
Qed.

Lemma final_dom_visited st :
  Inv st → queue st = [] → dom (graph st) = visited st.
Proof.
  intros HI Hq. rewrite (inv_dom _ HI), (inv_visited _ HI).
  now rewrite history_fst_final.
Qed.

Lemma node_in_history st a n :
  Inv st → graph st !! a = Some n → (a, depth n) ∈ history st.
Proof.
  intros HI Hn. destruct (inv_node _ HI a n Hn) as [_ Hlog].
  unfold history. apply elem_of_app. left.
  apply list_elem_of_fmap. exists (depth n, a). done.
Qed.

Lemma graph_table_is_seed st a :
  Inv st → a ∈ dom (graph st) → is_Some (KNOWN !! a) → a ∈ seedset.
Proof.
  intros HI Ha [name Hk]. apply elem_of_dom in Ha as [n Hn].
  pose proof (node_in_history _ _ _ HI Hn) as Hh.
  destruct (inv_hist _ HI) as (disc & Hhist & _ & Hdisc).
  rewrite Hhist in Hh. apply elem_of_app in Hh as [Hh|Hh].
  - rewrite <- seed_entries_fst. apply list_elem_of_fmap. exists (a, depth n). done.
  - destruct (Hdisc a) as [_ Hnone]; [|congruence].
    apply list_elem_of_fmap. exists (a, depth n). done.
Qed.

Lemma node_depth_parent st v n :
  Inv st → graph st !! v = Some n →
  (v ∈ seedset ∧ depth n = 0%Z) ∨
  ((v ∉ seedset) ∧ ∃ u nu, graph st !! u = Some nu ∧
                         v ∈ next_addrs (analysis nu) ∧
                         depth n = (depth nu + 1)%Z).
Proof.
  intros HI Hn. pose proof (node_in_history _ _ _ HI Hn) as Hh.
  destruct (decide (v ∈ seedset)) as [Hs|Hs].
  - left. split; [done|]. exact (history_seed_depth _ _ _ HI Hh Hs).
  - right. split; [done|].
    destruct (inv_parent _ HI v (depth n) Hh Hs) as (u & nu & Hu & Hv & Hd & _).
    eauto.
Qed.

Lemma no_expansion_at_limit st a d :
  (max_depth ≤ 0)%Z → Inv st → (a, d) ∈ history st → a ∈ seedset.
Proof.
  intros Hmax HI Hh. destruct (decide (a ∈ seedset)) as [Hs|Hs]; [done|].
  exfalso. destruct (inv_parent _ HI a d Hh Hs) as (u & nu & Hu & _ & _ & Hlt).
  pose proof (inv_depth _ HI u (depth nu) (node_in_history _ _ _ HI Hu)). lia.
Qed.

(** The loop returns, with the queue empty and the invariant established. *)
Lemma bfs_run_returns :
  ∃ st, bfs_run KNOWN api max_depth direction seeds = Some st ∧
        Inv st ∧ queue st = [].
Proof.
  unfold bfs_run.
  destruct (bfs_loop_terminates (queue_weight (queue (bfs_init seeds)))
              (bfs_init seeds)) as (st & Hst); [lia|].
  exists st. split; [exact Hst|].
  exact (bfs_loop_inv _ _ _ Hst inv_init).
Qed.

End Loop.

End ExpanderFacts.

(* ===================================================================== *)
(** * The multi-hop tracer: termination *)
(* ===================================================================== *)

Module TracerFacts.
Import PyStr MultiHopTracerV2.

Section Loop.

Variable KNOWN : gmap string string.
Variable address_api : string → option (option string).
Variable transactions_api : string → option (list Item).
Variable depth : Z.
Variable min_eth : float.
Variable verbose : bool.

Local Abbreviation trace_edge := (trace_edge KNOWN depth).
Local Abbreviation trace_iteration :=
  (trace_iteration KNOWN address_api transactions_api depth min_eth verbose).
Local Abbreviation trace_loop :=
  (trace_loop KNOWN address_api transactions_api depth min_eth verbose).
Local Abbreviation weight := (hop_weight address_api transactions_api min_eth).

Definition entry_weight (e : string * Z * list string) : nat :=
  weight (Z.to_nat (depth - snd (fst e))) (fst (fst e)).

Definition trace_queue_weight (q : list (string * Z * list string)) : nat :=
  list_sum (map entry_weight q).

(** The [for tx_info in outgoing] loop appends to the queue one entry per
    transfer of a sublist of [outgoing], one level deeper. *)
Lemma trace_edges_queue current_addr current_depth path outgoing st :
  ∃ sub,
    sublist sub outgoing ∧
    queue (fold_left (trace_edge current_addr current_depth path) outgoing st)
    = queue st ++
      ((λ o, (o_to o, (current_depth + 1)%Z, path ++ [o_to o])) <$> sub).
Proof.
  revert st. induction outgoing as [|o outgoing IH]; intros st; simpl.
  - exists []. split; [constructor|]. simpl. now rewrite app_nil_r.
  - destruct (IH (trace_edge current_addr current_depth path st o)) as (sub & Hsub & Hq).
    rewrite Hq. unfold MultiHopTracerV2.trace_edge.
    destruct (known_label KNOWN (lower (o_to o))) as [label|].
    + exists sub. split; [now constructor|].
      destruct (contains "Tornado" label); [done|].
      destruct (is_exchange_label label); done.
    + simpl.
      destruct (bool_decide (lower (o_to o) ∉ visited st) && (current_depth + 1 <? depth)%Z).
      * exists (o :: sub). split; [now constructor|].
        simpl. now rewrite <- app_assoc.
      * exists sub. split; [now constructor|done].
Qed.

Lemma trace_queue_weight_app q1 q2 :
  trace_queue_weight (q1 ++ q2) = trace_queue_weight q1 + trace_queue_weight q2.
Proof. unfold trace_queue_weight. now rewrite map_app, list_sum_app. Qed.

Lemma entry_weight_pos e : 0 < entry_weight e.
Proof. unfold entry_weight. destruct (Z.to_nat _); simpl; lia. Qed.

Lemma trace_iteration_weight current_addr current_depth path st :
  trace_queue_weight (queue (trace_iteration current_addr current_depth path st))
  < trace_queue_weight ((current_addr, current_depth, path) :: queue st).
Proof.
  unfold MultiHopTracerV2.trace_iteration.
  pose proof (entry_weight_pos (current_addr, current_depth, path)) as Hpos.
  destruct (bool_decide (lower current_addr ∈ visited st)) eqn:Hv; simpl.
  { change (trace_queue_weight ((current_addr, current_depth, path) :: queue st))
      with (entry_weight (current_addr, current_depth, path) + trace_queue_weight (queue st)).
    lia. }
  destruct (depth <=? current_depth)%Z eqn:Hd; simpl.
  { change (trace_queue_weight ((current_addr, current_depth, path) :: queue st))
      with (entry_weight (current_addr, current_depth, path) + trace_queue_weight (queue st)).
    lia. }
  apply Z.leb_gt in Hd.
  match goal with |- context [fold_left ?f ?l ?s] =>
    destruct (trace_edges_queue current_addr current_depth path l s)
      as (sub & Hsub & Hq) end.
  rewrite Hq. simpl queue. rewrite trace_queue_weight_app.
  change (trace_queue_weight ((current_addr, current_depth, path) :: queue st))
    with (entry_weight (current_addr, current_depth, path) + trace_queue_weight (queue st)).
  assert (entry_weight (current_addr, current_depth, path)
          = S (list_sum (map (λ o, weight (Z.to_nat (depth - (current_depth + 1))) (o_to o))
                           (filter_outgoing min_eth
                              (get_outgoing_transactions address_api transactions_api
                                 current_addr))))) as Hw.
  { unfold entry_weight. simpl.
    replace (Z.to_nat (depth - current_depth))
      with (S (Z.to_nat (depth - (current_depth + 1)))) by lia.
    reflexivity. }
  assert (trace_queue_weight ((λ o, (o_to o, (current_depth + 1)%Z, path ++ [o_to o])) <$> sub)
          ≤ list_sum (map (λ o, weight (Z.to_nat (depth - (current_depth + 1))) (o_to o))
                        (filter_outgoing min_eth
                           (get_outgoing_transactions address_api transactions_api
                              current_addr)))) as Hle.
  { unfold trace_queue_weight.
    change (list_fmap ?A ?B ?f ?l) with (map f l). rewrite map_map.
    unfold entry_weight. simpl.
    apply (ExpanderFacts.list_sum_sublist
             (λ o, weight (Z.to_nat (depth - (current_depth + 1))) (o_to o))).
    exact Hsub. }
  rewrite Hw. lia.
Qed.

Lemma trace_loop_terminates fuel st :
  trace_queue_weight (queue st) ≤ fuel → ∃ st', trace_loop fuel st = Some st'.
Proof.
  revert st. induction fuel as [|fuel IH]; intros [v q g o] Hw; simpl in *.
  - destruct q as [|[[a d] p] q]; [eauto|]. exfalso.
    pose proof (entry_weight_pos (a, d, p)).
    change (trace_queue_weight ((a, d, p) :: q))
      with (entry_weight (a, d, p) + trace_queue_weight q) in Hw. lia.
  - destruct q as [|[[a d] p] q]; [eauto|]. apply IH.
    pose proof (trace_iteration_weight a d p (mkTraceState v q g o)) as Hlt.
    simpl queue in Hlt. lia.
Qed.

(** ** Labelled addresses are not followed *)

Variable start_addr : string.

Record TInv (st : TraceState) : Prop := {
  tinv_queue : ∀ a d p, (a, d, p) ∈ queue st →
      a = start_addr ∨ known_label KNOWN (lower a) = None;
  tinv_nodes : ∀ k, k ∈ dom (nodes (graph st)) →
      k = lower start_addr ∨ known_label KNOWN k = None;
  tinv_endpoints : ∀ ep, ep ∈ endpoints (graph st) →
      known_label KNOWN (lower (ep_address ep)) = Some (ep_label ep)
}.

(** Between two iterations, the recorded nodes are the visited addresses,
    and the "[Hop d] address" lines name each of them once. *)
Record TVis (st : TraceState) : Prop := {
  tvis_dom : dom (nodes (graph st)) = visited st;
  tvis_hops : verbose = true →
      NoDup (lower <$> (stdout st).*2) ∧
      list_to_set (lower <$> (stdout st).*2) = visited st
}.

Lemma tinv_edge current_addr current_depth path st o :
  TInv st → TInv (trace_edge current_addr current_depth path st o).
Proof.
  intros [Hq Hn He]. unfold MultiHopTracerV2.trace_edge.
  destruct (known_label KNOWN (lower (o_to o))) as [label|] eqn:Hl.
  - destruct (contains "Tornado" label); [|destruct (is_exchange_label label)];
      split; simpl; auto; intros ep Hep;
      apply elem_of_app in Hep as [Hep|Hep]; auto;
      apply list_elem_of_singleton in Hep; subst ep; exact Hl.
  - split; simpl; auto. intros a d p Hin.
    destruct (bool_decide (lower (o_to o) ∉ visited st) && (current_depth + 1 <? depth)%Z);
      [|now apply (Hq a d p)].
    apply elem_of_app in Hin as [Hin|Hin]; [now apply (Hq a d p)|].
    apply list_elem_of_singleton in Hin. injection Hin as -> _ _. now right.
Qed.

Lemma tinv_edges current_addr current_depth path outgoing st :
  TInv st → TInv (fold_left (trace_edge current_addr current_depth path) outgoing st).
Proof.
  revert st. induction outgoing as [|o outgoing IH]; intros st HI; simpl; [exact HI|].
  apply IH. now apply tinv_edge.
Qed.

Lemma tinv_iteration current_addr current_depth path v q g o :
  TInv (mkTraceState v ((current_addr, current_depth, path) :: q) g o) →
  TInv (trace_iteration current_addr current_depth path (mkTraceState v q g o)).
Proof.
  intros [Hq Hn He]. simpl in *.
  assert (current_addr = start_addr ∨ known_label KNOWN (lower current_addr) = None)
    as Hcur by (apply (Hq current_addr current_depth path); left).
  assert (∀ a d p, (a, d, p) ∈ q → a = start_addr ∨ known_label KNOWN (lower a) = None)
    as Hq' by (intros a d p Hin; apply (Hq a d p); now right).
  unfold MultiHopTracerV2.trace_iteration. simpl.
  destruct (bool_decide (lower current_addr ∈ v) || (depth <=? current_depth)%Z).
  { split; simpl; auto. }
  match goal with |- context [fold_left ?f ?l ?s] =>
    pose proof (tinv_edges current_addr current_depth path l s) as HI;
    destruct (fold_left f l s) as [v' q' g' o'] end.
  destruct HI as [Hq2 Hn2 He2]; [split; simpl; auto|]. simpl in *.
  split; simpl; auto.
  intros k Hk. rewrite dom_insert_L in Hk.
  apply elem_of_union in Hk as [Hk|Hk]; [|now apply Hn2].
  apply elem_of_singleton in Hk. subst k.
  destruct Hcur as [->|Hcur]; [now left|now right].
Qed.

(** The [for tx_info in outgoing] loop leaves the visited set, the recorded
    nodes and the hop lines alone. *)
Lemma trace_edges_frame current_addr current_depth path outgoing st :
  let st' := fold_left (trace_edge current_addr current_depth path) outgoing st in
  visited st' = visited st ∧ nodes (graph st') = nodes (graph st) ∧
  stdout st' = stdout st.
Proof.
  revert st. induction outgoing as [|o outgoing IH]; intros st; simpl; [done|].
  destruct (IH (trace_edge current_addr current_depth path st o)) as (-> & -> & ->).
  unfold MultiHopTracerV2.trace_edge.
  destruct (known_label KNOWN (lower (o_to o))) as [label|]; [|done].
  destruct (contains "Tornado" label); [done|].
  destruct (is_exchange_label label); done.
Qed.

Lemma tvis_iteration current_addr current_depth path v q g o :
  TVis (mkTraceState v ((current_addr, current_depth, path) :: q) g o) →
  TVis (trace_iteration current_addr current_depth path (mkTraceState v q g o)).
Proof.
  intros [Hd Hh]. simpl in *.
  unfold MultiHopTracerV2.trace_iteration. simpl.
  destruct (bool_decide (lower current_addr ∈ v)) eqn:Hv; simpl.
  { split; simpl; auto. }
  destruct (depth <=? current_depth)%Z; simpl.
  { split; simpl; auto. }
  apply bool_decide_eq_false in Hv.
  match goal with |- context [fold_left ?f ?l ?s] =>
    pose proof (trace_edges_frame current_addr current_depth path l s) as HF;
    destruct (fold_left f l s) as [v' q' g' o'] end.
  simpl in HF. destruct HF as (-> & Hnodes & ->).
  split; simpl.
  - rewrite dom_insert_L, Hnodes, Hd. done.
  - intros Hverb. rewrite Hverb. destruct (Hh Hverb) as [Hnd Hset].
    rewrite !fmap_app. simpl. split.
    + apply NoDup_app. split; [exact Hnd|]. split; [|apply NoDup_singleton].
      intros x Hx Hx'. apply list_elem_of_singleton in Hx'. subst x.
      apply Hv. rewrite <- Hset. now apply elem_of_list_to_set.
    + rewrite list_to_set_app_L, Hset. set_solver.
Qed.

Lemma trace_loop_vis fuel st st' :
  trace_loop fuel st = Some st' → TVis st → TVis st'.
Proof.
  revert st. induction fuel as [|fuel IH]; intros [v q g o] Hrun HI; simpl in Hrun.
  - destruct q as [|[[a d] p] q]; [|discriminate]. now injection Hrun as <-.
  - destruct q as [|[[a d] p] q]; [now injection Hrun as <-|].
    apply (IH _ Hrun). now apply tvis_iteration.
Qed.

Lemma tvis_init : TVis (trace_init start_addr).
Proof.
  split; simpl; [set_solver|]. intros _. split; [constructor|set_solver].
Qed.

(** ** The hop at which an address is expanded *)

(** [a] was reached at hop [d]: it is the start address at hop 0, or a
    recorded edge leads to it from an address expanded at hop [d - 1]. *)
Definition discovered (out : list (Z * string)) (es : list Edge)
    (a : string) (d : Z) : Prop :=
  (d = 0%Z ∧ a = start_addr) ∨
  ∃ u e, (d - 1, u)%Z ∈ out ∧ e ∈ es ∧ e_from e = u ∧ e_to e = a.

Lemma discovered_mono out out' es es' a d :
  (∀ x, x ∈ out → x ∈ out') → (∀ e, e ∈ es → e ∈ es') →
  discovered out es a d → discovered out' es' a d.
Proof.
  intros Ho He [H|(u & e & H1 & H2 & H3)]; [now left|].
  right. exists u, e. auto.
Qed.

Record TDepth (st : TraceState) : Prop := {
  td_queue : ∀ a d p, (a, d, p) ∈ queue st →
      discovered (stdout st) (edges (graph st)) a d;
  td_hops : ∀ d a, (d, a) ∈ stdout st →
      discovered (stdout st) (edges (graph st)) a d
}.

Lemma tdepth_edge current_addr current_depth path st o :
  (current_depth, current_addr) ∈ stdout st → TDepth st →
  (current_depth, current_addr) ∈ stdout (trace_edge current_addr current_depth path st o) ∧
  TDepth (trace_edge current_addr current_depth path st o).
Proof.
  intros Hcur [Hq Hh].
  set (new_edge := mkEdge current_addr (o_to o) (o_eth o) (o_hash o)).
  assert (∀ a d, discovered (stdout st) (edges (graph st)) a d →
                 discovered (stdout st) (edges (graph st) ++ [new_edge]) a d) as Hmono.
  { intros a d. apply discovered_mono; [done|]. intros e He. apply elem_of_app. now left. }
  unfold MultiHopTracerV2.trace_edge. fold new_edge.
  destruct (known_label KNOWN (lower (o_to o))) as [label|].
  - destruct (contains "Tornado" label); [|destruct (is_exchange_label label)];
      (split; [exact Hcur|]); split; simpl; intros; apply Hmono; eauto.
  - split; [exact Hcur|]. split; simpl.
    + intros a d p Hin.
      destruct (bool_decide (lower (o_to o) ∉ visited st) && (current_depth + 1 <? depth)%Z);
        [|apply Hmono; eauto].
      apply elem_of_app in Hin as [Hin|Hin]; [apply Hmono; eauto|].
      apply list_elem_of_singleton in Hin. injection Hin as -> -> _.
      right. exists current_addr, new_edge.
      replace (current_depth + 1 - 1)%Z with current_depth by lia.
      split; [exact Hcur|]. split; [|done]. apply elem_of_app. right. left.
    + intros d a Hin. apply Hmono. eauto.
Qed.

Lemma tdepth_edges current_addr current_depth path outgoing st :
  (current_depth, current_addr) ∈ stdout st → TDepth st →
  TDepth (fold_left (trace_edge current_addr current_depth path) outgoing st).
Proof.
  revert st. induction outgoing as [|o outgoing IH]; intros st Hcur HI; simpl; [exact HI|].
  destruct (tdepth_edge current_addr current_depth path st o Hcur HI) as [Hcur' HI'].
  now apply IH.
Qed.

Lemma tdepth_iteration current_addr current_depth path v q g o :
  verbose = true →
  TDepth (mkTraceState v ((current_addr, current_depth, path) :: q) g o) →
  TDepth (trace_iteration current_addr current_depth path (mkTraceState v q g o)).
Proof.
  intros Hverb [Hq Hh]. simpl in *.
  unfold MultiHopTracerV2.trace_iteration. simpl.
  destruct (bool_decide (lower current_addr ∈ v) || (depth <=? current_depth)%Z).
  { split; simpl; [|exact Hh]. intros a d p Hin. apply (Hq a d p). now right. }
  rewrite Hverb.
  match goal with |- context [fold_left ?f ?l ?s] =>
    pose proof (tdepth_edges current_addr current_depth path l s) as HI;
    destruct (fold_left f l s) as [v' q' g' o'] end.
  simpl in HI. destruct HI as [Hq2 Hh2].
  - apply elem_of_app. right. left.
  - assert (∀ a d, discovered o (edges g) a d →
                   discovered (o ++ [(current_depth, current_addr)]) (edges g) a d)
      as Hmono.
    { intros a d. apply discovered_mono; [|done]. intros x Hx. apply elem_of_app. now left. }
    split; simpl.
    + intros a d p Hin. apply Hmono. apply (Hq a d p). now right.
    + intros d a Hin. apply Hmono.
      apply elem_of_app in Hin as [Hin|Hin]; [now apply Hh|].
      apply list_elem_of_singleton in Hin. injection Hin as -> ->.
      apply (Hq current_addr current_depth path). left.
  - split; simpl; [exact Hq2|exact Hh2].
Qed.

Lemma trace_loop_depth fuel st st' :
  verbose = true → trace_loop fuel st = Some st' → TDepth st → TDepth st'.
Proof.
  intros Hverb. revert st.
  induction fuel as [|fuel IH]; intros [v q g o] Hrun HI; simpl in Hrun.
  - destruct q as [|[[a d] p] q]; [|discriminate]. now injection Hrun as <-.
  - destruct q as [|[[a d] p] q]; [now injection Hrun as <-|].
    apply (IH _ Hrun). now apply tdepth_iteration.
Qed.

Lemma tdepth_init : TDepth (trace_init start_addr).
Proof.
  split; simpl.
  - intros a d p Hin. apply list_elem_of_singleton in Hin. injection Hin as -> -> _.
    now left.
  - intros d a Hin. by apply elem_of_nil in Hin.
Qed.

(** [trace_run] returns, each address expanded once. *)
Lemma trace_run_returns :
  ∃ st, trace_run KNOWN address_api transactions_api depth min_eth verbose start_addr
        = Some st ∧ TVis st ∧ (verbose = true → TDepth st).
Proof.
  unfold trace_run.
  destruct (trace_loop_terminates
              (weight (Z.to_nat depth) start_addr) (trace_init start_addr))
    as (st & Hst).
  - unfold trace_queue_weight, trace_init. simpl. unfold entry_weight. simpl.
    rewrite Z.sub_0_r. lia.
  - exists st. split; [exact Hst|]. split.
    + exact (trace_loop_vis _ _ _ Hst tvis_init).
    + intros Hverb. exact (trace_loop_depth _ _ _ Hverb Hst tdepth_init).
Qed.

Lemma trace_loop_inv fuel st st' :
  trace_loop fuel st = Some st' → TInv st → TInv st'.
Proof.
  revert st. induction fuel as [|fuel IH]; intros [v q g o] Hrun HI; simpl in Hrun.
  - destruct q as [|[[a d] p] q]; [|discriminate]. now injection Hrun as <-.
  - destruct q as [|[[a d] p] q]; [now injection Hrun as <-|].
    apply (IH _ Hrun). now apply tinv_iteration.
Qed.

Lemma tinv_init : TInv (trace_init start_addr).
Proof.
  split; simpl.
  - intros a d p Hin. apply list_elem_of_singleton in Hin. injection Hin as -> _ _.
    now left.
  - intros k Hk. by apply elem_of_empty in Hk.
  - intros ep Hep. by apply elem_of_nil in Hep.
Qed.

(** [trace_hops] returns a graph. *)
Lemma trace_hops_returns :
  ∃ g, trace_hops KNOWN address_api transactions_api depth min_eth verbose start_addr
       = Some g ∧
       (∀ k, k ∈ dom (nodes g) → k = lower start_addr ∨ known_label KNOWN k = None) ∧
       (∀ ep, ep ∈ endpoints g →
              known_label KNOWN (lower (ep_address ep)) = Some (ep_label ep)).
Proof.
  unfold trace_hops, trace_run.
  destruct (trace_loop_terminates
              (weight (Z.to_nat depth) start_addr) (trace_init start_addr))
    as (st & Hst).
  - unfold trace_queue_weight, trace_init. simpl. unfold entry_weight. simpl.
    rewrite Z.sub_0_r. lia.
  - rewrite Hst. simpl. exists (graph st). split; [done|].
    destruct (trace_loop_inv _ _ _ Hst tinv_init) as [_ Hn He]. done.
Qed.

End Loop.

End TracerFacts.

(* ===================================================================== *)
(** * Claims about the expansion engine *)
(* ===================================================================== *)

Module ExpansionClaims.
Import PyStr NetworkExpander ExpanderFacts.

(** An Etherscan that serves a fixed list of transfers: "txlist" answers
    with the transfers the address takes part in, "tokentx" with
    "No transactions found". *)
Definition ledger_api (txs : list Tx) (action address : string) : Response :=
  if String.eqb action "txlist"
  then Answer "1"
         (filter (λ tx, lower (tx_from tx) = address ∨ lower (tx_to tx) = address) txs)
  else Answer "0" [].

(** 0xdd receives once from 0xaa and sweeps twice to Binance 14. *)
Definition deposit_ledger : list Tx :=
  [ mkTx "0xaa" "0xdd";
    mkTx "0xdd" ClassifierClaims.binance14;
    mkTx "0xdd" ClassifierClaims.binance14 ].

(** 0xa1 paid 0xb2; the requests about 0xb2 either fail or are answered
    "No transactions found" (status "0"). *)
Definition api_b2_fails (action address : string) : Response :=
  if String.eqb address "0xa1" then ledger_api [mkTx "0xa1" "0xb2"] action address
  else RequestFailed.

Definition api_b2_empty (action address : string) : Response :=
  if String.eqb address "0xa1" then ledger_api [mkTx "0xa1" "0xb2"] action address
  else Answer "0" [].

(** a pays b and c, and b pays c. *)
Definition triangle : list Tx := [ mkTx "a" "b"; mkTx "a" "c"; mkTx "b" "c" ].

(** The analysis of an address about which nothing was fetched. *)
Definition empty_analysis (address : string) : Analysis :=
  mkAnalysis (lower address) false None 0 [] [].

(** C1, as stated, fails on [bfs_expand]: 0xdd is flagged as an exchange
    deposit address, and its peer 0xaa is still enqueued and analysed one
    level deeper. *)
Lemma C1_flagged_address_is_expanded :
  ∃ r nd na,
    bfs_expand KNOWN_EXCHANGE_HOT_WALLETS (ledger_api deposit_ledger) 1 "both" ["0xdd"]
    = Some r ∧
    r_graph r !! "0xdd" = Some nd ∧ is_exchange_deposit (analysis nd) = true ∧
    connected_in (analysis nd) = ["0xaa"] ∧
    r_graph r !! "0xaa" = Some na ∧ depth na = 1%Z.
Proof.
  eexists _, _, _. split; [vm_compute; reflexivity|].
  split; [vm_compute; reflexivity|]. repeat split; vm_compute; reflexivity.
Qed.

(** C2, as stated, fails: no node carries a mark of a failed fetch.  The
    expansion in which every request about 0xb2 fails returns the same
    dictionary as the one in which they succeed and find nothing. *)
Lemma C2_failed_fetch_leaves_no_mark :
  api_b2_fails "txlist" "0xb2" = RequestFailed ∧
  api_b2_empty "txlist" "0xb2" = Answer "0" [] ∧
  bfs_expand KNOWN_EXCHANGE_HOT_WALLETS api_b2_fails 2 "both" ["0xa1"]
  = bfs_expand KNOWN_EXCHANGE_HOT_WALLETS api_b2_empty 2 "both" ["0xa1"] ∧
  ∃ r, bfs_expand KNOWN_EXCHANGE_HOT_WALLETS api_b2_fails 2 "both" ["0xa1"] = Some r ∧
       r_graph r !! "0xb2" = Some (mkNode 1 (empty_analysis "0xb2")).
Proof.
  split; [reflexivity|]. split; [reflexivity|]. split; [vm_compute; reflexivity|].
  eexists. split; vm_compute; reflexivity.
Qed.

(** C2, amended: whatever requests fail, [bfs_expand] returns; every visited
    address is recorded in the graph; and a node whose two requests failed
    is recorded like an address without transactions (not flagged, no
    peers): the failure itself leaves no mark. *)
Theorem C2_failed_fetch_recorded_as_empty
    (KNOWN : gmap string string) (api : string → string → Response)
    (max_depth : Z) (direction : string) (seeds : list string) :
  ∃ r, bfs_expand KNOWN api max_depth direction seeds = Some r ∧
       size (r_graph r) = total_addresses_discovered r ∧
       (∀ s, s ∈ seeds → is_Some (r_graph r !! lower s)) ∧
       (∀ a n, r_graph r !! a = Some n →
               api "txlist" (lower a) = RequestFailed →
               api "tokentx" (lower a) = RequestFailed →
               analysis n = empty_analysis a).
Proof.
  destruct (bfs_run_returns KNOWN api max_depth direction seeds) as (st & Hrun & HI & Hq).
  unfold bfs_expand. rewrite Hrun. simpl. eexists. split; [reflexivity|]. simpl.
  pose proof (final_dom_visited _ _ _ _ _ _ HI Hq) as Hdom.
  split; [|split].
  - rewrite <- Hdom. symmetry. apply size_dom.
  - intros s Hs. apply elem_of_dom. rewrite Hdom, (inv_visited _ _ _ _ _ _ HI).
    destruct (inv_hist _ _ _ _ _ _ HI) as (disc & Hh & _). rewrite Hh.
    rewrite fmap_app, seed_entries_fst. unfold seedset.
    apply elem_of_list_to_set, elem_of_app. left.
    apply list_elem_of_fmap. eauto.
  - intros a n Hn H1 H2. destruct (inv_node _ _ _ _ _ _ HI a n Hn) as [-> _].
    unfold analyze_address, get_transactions, etherscan_request. simpl.
    rewrite lower_idem, H1, H2. reflexivity.
Qed.

(** A Blockscout that serves a fixed list of transfers of one ether each:
    the transactions endpoint answers with the transfers the address sent;
    the address endpoint is down, so every address is its own canonical
    form. *)
Definition one_ether : Z := 1000000000000000000.

Definition blockscout_transactions (txs : list (string * string)) (addr : string)
  : option (list MultiHopTracerV2.Item) :=
  Some ((λ e, MultiHopTracerV2.mkItem one_ether (Some (snd e)) "0xhash" "")
        <$> filter (λ e, fst e = addr) txs).

Definition blockscout_address_down (addr : string) : option (option string) := None.

Definition triangle_transfers : list (string * string) :=
  [ ("a", "b"); ("a", "c"); ("b", "c") ].

Definition empty_graph : MultiHopTracerV2.Graph :=
  MultiHopTracerV2.mkGraph ∅ [] []
    (MultiHopTracerV2.mkTotals 0 0%float 0%float 0%float 0%float).

(** C3, as stated, fails on [trace_hops]: with depth 0 the start address is
    taken from the queue and skipped ([current_depth >= depth]); nothing is
    fetched and the graph returned is empty. *)
Lemma C3_trace_hops_depth_zero_is_empty :
  MultiHopTracerV2.trace_hops ∅ blockscout_address_down
    (blockscout_transactions triangle_transfers) 0 0.5%float true "a"
  = Some empty_graph.
Proof. vm_compute. reflexivity. Qed.

(** C3, amended: [bfs_expand] with max_depth = 0 returns a graph with
    exactly one node per distinct lower-cased seed, each at depth 0 with the
    analysis of that seed, and nothing else is visited; [trace_hops], whose
    depth counts the hops to follow, returns the empty graph for depth 0. *)
Theorem C3_max_depth_zero
    (KNOWN : gmap string string) (api : string → string → Response)
    (direction : string) (seeds : list string)
    (KNOWN_ADDRESSES : gmap string string)
    (address_api : string → option (option string))
    (transactions_api : string → option (list MultiHopTracerV2.Item))
    (min_eth : float) (verbose : bool) (start_addr : string) :
  (∃ r, bfs_expand KNOWN api 0 direction seeds = Some r ∧
        dom (r_graph r) = list_to_set (lower <$> seeds) ∧
        total_addresses_discovered r = size (r_graph r) ∧
        ∀ a n, r_graph r !! a = Some n →
               depth n = 0%Z ∧ analysis n = analyze_address KNOWN api a) ∧
  MultiHopTracerV2.trace_hops KNOWN_ADDRESSES address_api transactions_api
    0 min_eth verbose start_addr = Some empty_graph.
Proof.
  split.
  - destruct (bfs_run_returns KNOWN api 0 direction seeds) as (st & Hrun & HI & Hq).
    unfold bfs_expand. rewrite Hrun. simpl. eexists. split; [reflexivity|]. simpl.
    pose proof (final_dom_visited _ _ _ _ _ _ HI Hq) as Hdom.
    assert (∀ a d, (a, d) ∈ history st → a ∈ seedset seeds) as Hseed.
    { intros a d. now apply (no_expansion_at_limit _ _ _ _ _ _ _ _ (Z.le_refl 0) HI). }
    split; [|split].
    + rewrite Hdom, (inv_visited _ _ _ _ _ _ HI). apply set_eq. intros x.
      rewrite !elem_of_list_to_set. split.
      * intros Hx. apply list_elem_of_fmap in Hx as ([a d] & -> & Hin).
        exact (Hseed a d Hin).
      * intros Hx. destruct (inv_hist _ _ _ _ _ _ HI) as (disc & Hh & _).
        rewrite Hh, fmap_app, seed_entries_fst. apply elem_of_app. now left.
    + rewrite <- Hdom. apply size_dom.
    + intros a n Hn. destruct (inv_node _ _ _ _ _ _ HI a n Hn) as [Han _].
      split; [|exact Han].
      pose proof (node_in_history _ _ _ _ _ _ _ _ HI Hn) as Hh.
      exact (history_seed_depth _ _ _ _ _ _ _ _ HI Hh (Hseed _ _ Hh)).
  - unfold MultiHopTracerV2.trace_hops, MultiHopTracerV2.trace_run. simpl.
    unfold MultiHopTracerV2.trace_iteration. simpl.
    rewrite orb_true_r. reflexivity.
Qed.

(** C5, as stated, fails: a seed given twice (here in two spellings) is
    queued twice and analysed twice by [bfs_expand]; and [trace_hops], which
    checks the visited set only when an entry is taken, holds address c in
    two queue entries after a and b were expanded. *)
Lemma C5_address_queued_twice :
  queue (bfs_init ["0xa1"; "0xA1"]) = [("0xa1", 0%Z); ("0xa1", 0%Z)] ∧
  (stderr <$> bfs_run KNOWN_EXCHANGE_HOT_WALLETS (ledger_api [mkTx "0xa1" "0xb2"])
                2 "both" ["0xa1"; "0xA1"])
  = Some [(0%Z, "0xa1"); (0%Z, "0xa1"); (1%Z, "0xb2")] ∧
  let iteration :=
    MultiHopTracerV2.trace_iteration ∅ blockscout_address_down
      (blockscout_transactions triangle_transfers) 3 0.5%float true in
  let st1 := iteration "a" 0%Z ["a"]
               (MultiHopTracerV2.mkTraceState ∅ [] empty_graph []) in
  MultiHopTracerV2.queue st1 = [("b", 1%Z, ["a"; "b"]); ("c", 1%Z, ["a"; "c"])] ∧
  MultiHopTracerV2.queue
    (iteration "b" 1%Z ["a"; "b"]
       (MultiHopTracerV2.mkTraceState (MultiHopTracerV2.visited st1)
          [("c", 1%Z, ["a"; "c"])]
          (MultiHopTracerV2.graph st1) (MultiHopTracerV2.stdout st1)))
  = [("c", 1%Z, ["a"; "c"]); ("c", 2%Z, ["a"; "b"; "c"])].
Proof. repeat split; vm_compute; reflexivity. Qed.

(** C5, amended: [bfs_expand] returns with as many graph nodes as visited
    addresses; the queue entries it took, in order, are the seeds (one
    entry per occurrence in the seed list) followed by entries for
    addresses that are no seeds, each address once; so when the lower-cased
    seeds are pairwise distinct every address is queued and analysed exactly
    once, a peer shared by two seeds included.  [trace_hops], which checks
    the visited set when it takes an entry, returns with as many nodes as
    visited addresses, each address expanded once. *)
Theorem C5_no_revisits
    (KNOWN : gmap string string) (api : string → string → Response)
    (max_depth : Z) (direction : string) (seeds : list string)
    (KNOWN_ADDRESSES : gmap string string)
    (address_api : string → option (option string))
    (transactions_api : string → option (list MultiHopTracerV2.Item))
    (hops : Z) (min_eth : float) (start_addr : string) :
  (∃ st, bfs_run KNOWN api max_depth direction seeds = Some st ∧
         queue st = [] ∧
         size (graph st) = size (visited st) ∧
         (∃ disc, (λ e, (snd e, fst e)) <$> stderr st = seed_entries seeds ++ disc ∧
                  NoDup disc.*1 ∧ ∀ p, p ∈ disc.*1 → p ∉ lower <$> seeds) ∧
         (NoDup (lower <$> seeds) → NoDup (stderr st).*2)) ∧
  (∃ st, MultiHopTracerV2.trace_run KNOWN_ADDRESSES address_api transactions_api
           hops min_eth true start_addr = Some st ∧
         size (MultiHopTracerV2.nodes (MultiHopTracerV2.graph st))
         = size (MultiHopTracerV2.visited st) ∧
         NoDup (lower <$> (MultiHopTracerV2.stdout st).*2)).
Proof.
  split.
  - destruct (bfs_run_returns KNOWN api max_depth direction seeds)
      as (st & Hrun & HI & Hq).
    exists st. split; [exact Hrun|]. split; [exact Hq|].
    pose proof (final_dom_visited _ _ _ _ _ _ HI Hq) as Hdom.
    destruct (inv_hist _ _ _ _ _ _ HI) as (disc & Hh & Hnd & Hdisc).
    assert ((λ e, (snd e, fst e)) <$> stderr st = seed_entries seeds ++ disc) as Hlog.
    { rewrite <- Hh. unfold history. now rewrite Hq, app_nil_r. }
    split; [|split].
    + rewrite <- Hdom. symmetry. apply size_dom.
    + exists disc. split; [exact Hlog|]. split; [exact Hnd|].
      intros p Hp. now apply Hdisc.
    + intros Hseeds. rewrite <- (history_fst_final _ Hq), Hh, fmap_app.
      rewrite seed_entries_fst. apply NoDup_app. split; [exact Hseeds|].
      split; [|exact Hnd]. intros x Hx Hx'. now apply (Hdisc x Hx').
  - destruct (TracerFacts.trace_run_returns KNOWN_ADDRESSES address_api
                transactions_api hops min_eth true start_addr)
      as (st & Hrun & [Hd Hh] & _).
    exists st. split; [exact Hrun|]. split.
    + rewrite <- Hd. symmetry. apply size_dom.
    + now destruct (Hh eq_refl).
Qed.

(** Scenario C runs through [C5_no_revisits]: two seeds paying the same
    address 0xee; every address is taken from the queue once. *)
Lemma C5_no_revisits_witness :
  ∃ st, bfs_run KNOWN_EXCHANGE_HOT_WALLETS
          (ledger_api [mkTx "0xs1" "0xee"; mkTx "0xs2" "0xee"]) 2 "both" ["0xs1"; "0xs2"]
        = Some st ∧
        size (graph st) = size (visited st) ∧
        NoDup (stderr st).*2.
Proof.
  destruct (proj1 (C5_no_revisits KNOWN_EXCHANGE_HOT_WALLETS
                     (ledger_api [mkTx "0xs1" "0xee"; mkTx "0xs2" "0xee"]) 2 "both"
                     ["0xs1"; "0xs2"] ∅ blockscout_address_down
                     (blockscout_transactions triangle_transfers) 3 0.5%float "a"))
    as (st & Hrun & _ & Hsize & _ & Hnd).
  exists st. split; [exact Hrun|]. split; [exact Hsize|].
  apply Hnd. vm_compute. apply NoDup_cons. split; [|apply NoDup_singleton].
  intros H. apply list_elem_of_singleton in H. discriminate H.
Defined.

(** C8, as stated, fails.  [trace_hops] on the triangle records the edge
    b -> c although b and c were both expanded at hop 1; [bfs_expand] on
    the same transfers records c among the peers of b with both nodes at
    depth 1. *)
Lemma C8_edge_within_one_level :
  (∃ st, MultiHopTracerV2.trace_run ∅ blockscout_address_down
           (blockscout_transactions triangle_transfers) 3 0.5%float true "a" = Some st ∧
         (λ e, (MultiHopTracerV2.e_from e, MultiHopTracerV2.e_to e))
           <$> MultiHopTracerV2.edges (MultiHopTracerV2.graph st)
         = [("a", "b"); ("a", "c"); ("b", "c")] ∧
         MultiHopTracerV2.stdout st = [(0%Z, "a"); (1%Z, "b"); (1%Z, "c")]) ∧
  (∃ r nb nc, bfs_expand KNOWN_EXCHANGE_HOT_WALLETS (ledger_api triangle) 2 "out" ["a"]
              = Some r ∧
              r_graph r !! "b" = Some nb ∧ r_graph r !! "c" = Some nc ∧
              connected_out (analysis nb) = ["c"] ∧
              depth nb = 1%Z ∧ depth nc = 1%Z).
Proof.
  split.
  - eexists. split; [vm_compute; reflexivity|]. split; vm_compute; reflexivity.
  - eexists _, _, _. split; [vm_compute; reflexivity|].
    split; [vm_compute; reflexivity|]. split; [vm_compute; reflexivity|].
    repeat split; vm_compute; reflexivity.
Qed.

(** C8, amended: in the graph [bfs_expand] returns, a seed is at depth 0 and
    every other node is one level below a recorded node that lists it among
    the peers followed in the requested direction (the node whose expansion
    enqueued it).  In a run of [trace_hops], the start address is expanded
    at hop 0 and every other address at hop d is the target of a recorded
    edge from an address expanded at hop d - 1.  Edges to addresses that
    were already reached are recorded all the same and carry no such
    guarantee. *)
Theorem C8_depth_of_discovery
    (KNOWN : gmap string string) (api : string → string → Response)
    (max_depth : Z) (direction : string) (seeds : list string)
    (KNOWN_ADDRESSES : gmap string string)
    (address_api : string → option (option string))
    (transactions_api : string → option (list MultiHopTracerV2.Item))
    (hops : Z) (min_eth : float) (start_addr : string) :
  (∃ r, bfs_expand KNOWN api max_depth direction seeds = Some r ∧
        ∀ v n, r_graph r !! v = Some n →
          (v ∈ lower <$> seeds ∧ depth n = 0%Z) ∨
          ((v ∉ lower <$> seeds) ∧
           ∃ u nu, r_graph r !! u = Some nu ∧
                   v ∈ next_addrs direction (analysis nu) ∧
                   depth n = (depth nu + 1)%Z)) ∧
  (∃ st, MultiHopTracerV2.trace_run KNOWN_ADDRESSES address_api transactions_api
           hops min_eth true start_addr = Some st ∧
         ∀ d v, (d, v) ∈ MultiHopTracerV2.stdout st →
           (d = 0%Z ∧ v = start_addr) ∨
           ∃ u e, (d - 1, u)%Z ∈ MultiHopTracerV2.stdout st ∧
                  e ∈ MultiHopTracerV2.edges (MultiHopTracerV2.graph st) ∧
                  MultiHopTracerV2.e_from e = u ∧ MultiHopTracerV2.e_to e = v).
Proof.
  split.
  - destruct (bfs_run_returns KNOWN api max_depth direction seeds)
      as (st & Hrun & HI & Hq).
    unfold bfs_expand. rewrite Hrun. simpl. eexists. split; [reflexivity|]. simpl.
    intros v n Hn. exact (node_depth_parent _ _ _ _ _ _ _ _ HI Hn).
  - destruct (TracerFacts.trace_run_returns KNOWN_ADDRESSES address_api
                transactions_api hops min_eth true start_addr)
      as (st & Hrun & _ & Hdepth).
    exists st. split; [exact Hrun|].
    intros d v Hin. exact (TracerFacts.td_hops _ _ (Hdepth eq_refl) d v Hin).
Qed.

End ExpansionClaims.

(* ===================================================================== *)
(** * The monitor: one cycle against the persisted snapshot *)
(* ===================================================================== *)

Module MonitorFacts.
Import PyStr AddressMonitorDaemon.

(** The persisted prior snapshot of an address, if any. *)
Definition prior (state : MonitorState) (a : string) : option AddressState :=
  addresses state ≫= (λ m, m !! a).

(** The deltas of the specification: new snapshot minus persisted prior
    snapshot, the prior being zero when there is none. *)
Definition balance_delta (state : MonitorState) (balances : gmap string float)
    (addr : string) : float :=
  PrimFloat.sub (default 0%float (balances !! lower addr))
    (match prior state (lower addr) with Some p => balance p | None => 0%float end).

Definition tx_delta (state : MonitorState) (tx_counts : gmap string Z)
    (addr : string) : Z :=
  (default 0%Z (tx_counts !! lower addr)
   - match prior state (lower addr) with Some p => tx_count p | None => 0%Z end)%Z.

(** One cycle in the specification's words, with the comparisons of the
    code: an alert is emitted when the balance moved by more than
    MIN_BALANCE_CHANGE or the transaction count grew, and it is "high" past
    10 ether or 5 transactions, "medium" otherwise. *)
Definition alert_for (state : MonitorState) (balances : gmap string float)
    (tx_counts : gmap string Z) (cy : Cycle) (entry : string * WatchInfo)
  : option Alert :=
  let d := balance_delta state balances (fst entry) in
  let t := tx_delta state tx_counts (fst entry) in
  if PrimFloat.ltb MIN_BALANCE_CHANGE (PrimFloat.abs d) || (0 <? t)%Z
  then Some (mkAlert (now cy) (block_number cy) (lower (fst entry)) (label_of (snd entry))
               (PyFloat.round6 d) t
               (PyFloat.round6 (default 0%float (balances !! lower (fst entry))))
               (if PrimFloat.ltb 10%float (PrimFloat.abs d) || (5 <? t)%Z
                then "high" else "medium"))
  else None.

(** The first watchlist entry of every address not in [seen]. *)
Fixpoint first_keys (seen : list string) (l : list (string * WatchInfo))
  : list (string * WatchInfo) :=
  match l with
  | [] => []
  | (k, i) :: l' =>
      if decide (lower k ∈ seen) then first_keys seen l'
      else (k, i) :: first_keys (lower k :: seen) l'
  end.

(** The watchlist entries that one cycle diffs against the persisted
    snapshot: when [state] holds its "addresses" dictionary, the first entry
    of each address (a later key of the same address meets the snapshot the
    cycle has just written); every entry when it does not. *)
Definition observed_entries (state : MonitorState) (watchlist : list (string * WatchInfo))
  : list (string * WatchInfo) :=
  match addresses state with
  | Some _ => first_keys [] watchlist
  | None => watchlist
  end.

Lemma first_keys_nodup seen l :
  NoDup (lower <$> l.*1) → (∀ k, k ∈ l.*1 → lower k ∉ seen) → first_keys seen l = l.
Proof.
  revert seen. induction l as [|[k i] l IH]; intros seen Hnd Hseen; [done|].
  rewrite !fmap_cons in Hnd. simpl in Hnd. apply NoDup_cons in Hnd as [Hk Hnd].
  simpl. rewrite decide_False by (apply Hseen; left).
  f_equal. apply IH; [exact Hnd|].
  intros k' Hk' Hin. apply elem_of_cons in Hin as [Heq|Hin].
  - apply Hk. rewrite <- Heq. apply list_elem_of_fmap. eauto.
  - apply (Hseen k'); [now right|exact Hin].
Qed.

Lemma alert_for_is_Some state balances tx_counts cy entry :
  is_Some (alert_for state balances tx_counts cy entry) ↔
  PrimFloat.ltb MIN_BALANCE_CHANGE (PrimFloat.abs (balance_delta state balances (fst entry)))
    = true ∨
  (0 < tx_delta state tx_counts (fst entry))%Z.
Proof.
  unfold alert_for. rewrite <- Z.ltb_lt, <- orb_true_iff.
  destruct (_ || _); split; intros H; try done; try eauto; by destruct H.
Qed.

Section Cycle.

Variable aliased : bool.
Variable balances : gmap string float.
Variable tx_counts : gmap string Z.
Variable cy : Cycle.

Local Abbreviation step := (check_address aliased balances tx_counts cy).

Lemma step_alerts_grow acc entry : ∃ new, (step acc entry).2 = acc.2 ++ new.
Proof.
  destruct acc as [m alerts], entry as [addr info]. unfold check_address.
  match goal with |- context [if ?c then _ else _] => destruct c end; simpl.
  - eauto.
  - exists []. now rewrite app_nil_r.
Qed.

Lemma fold_alerts_grow l acc : ∃ new, (fold_left step l acc).2 = acc.2 ++ new.
Proof.
  revert acc. induction l as [|e l IH]; intros acc; simpl.
  - exists []. now rewrite app_nil_r.
  - destruct (IH (step acc e)) as (new & ->).
    destruct (step_alerts_grow acc e) as (new' & ->).
    exists (new' ++ new). now rewrite app_assoc.
Qed.

(** What the loop has stored for [a], when nothing is stored. *)
Lemma step_other_address m alerts addr info a :
  lower addr ≠ a →
  (step (m, alerts) (addr, info)).1 ≫= (λ m', m' !! a) = m ≫= (λ m', m' !! a).
Proof.
  intros Hne. unfold check_address.
  match goal with |- context [if ?c then _ else _] => destruct c end; simpl;
    rewrite lookup_insert_ne by done; destruct m; simpl; [done| |done|];
    apply lookup_empty.
Qed.

(** An address without a stored snapshot is diffed against zero the first
    time the loop meets it. *)
Lemma first_observation l m alerts addr info :
  (addr, info) ∈ l →
  (aliased = true → m ≫= (λ m', m' !! lower addr) = None) →
  let cur := default 0%float (balances !! lower addr) in
  let txc := default 0%Z (tx_counts !! lower addr) in
  PrimFloat.ltb MIN_BALANCE_CHANGE (PrimFloat.abs cur) || (0 <? txc)%Z = true →
  ∃ alert, alert ∈ (fold_left step l (m, alerts)).2 ∧
           a_address alert = lower addr ∧
           balance_change_eth alert = PyFloat.round6 cur ∧
           current_balance alert = PyFloat.round6 cur ∧
           new_transactions alert = txc.
Proof.
  intros Hin Hnone cur txc Hmat. revert m alerts Hnone.
  induction l as [|[k i] l IH]; intros m alerts Hnone; [by apply elem_of_nil in Hin|].
  cbn [fold_left]. destruct (decide (lower k = lower addr)) as [Hk|Hk].
  - assert (step (m, alerts) (k, i)
            = (Some (<[lower k := mkAddressState cur txc (now cy) (label_of i)]>
                       (default ∅ m)),
               alerts ++ [mkAlert (now cy) (block_number cy) (lower k) (label_of i)
                            (PyFloat.round6 cur) txc (PyFloat.round6 cur)
                            (if PrimFloat.ltb 10%float (PrimFloat.abs cur) || (5 <? txc)%Z
                             then "high" else "medium")])) as Hstep.
    { unfold check_address. rewrite Hk. fold cur txc.
      assert ((if aliased then m ≫= (λ m', m' !! lower addr) else None) = None) as ->.
      { destruct aliased; [now apply Hnone|done]. }
      rewrite PyFloat.sub_zero, Z.sub_0_r, Hmat. reflexivity. }
    rewrite Hstep.
    match goal with |- context [fold_left step l ?acc] =>
      destruct (fold_alerts_grow l acc) as (new & Hnew) end.
    rewrite Hnew. simpl. eexists. split.
    + apply elem_of_app. left. apply elem_of_app. right. left.
    + simpl. rewrite Hk. done.
  - apply elem_of_cons in Hin as [[= -> ->]|Hin]; [done|].
    destruct (step (m, alerts) (k, i)) as [m' alerts'] eqn:Hstep.
    apply IH; [exact Hin|]. intros Hal.
    pose proof (step_other_address m alerts k i (lower addr) Hk) as Ho.
    rewrite Hstep in Ho. simpl in Ho. rewrite Ho. now apply Hnone.
Qed.

(** With a fresh [prev_states], every entry is diffed against zero, which is
    what the specification asks for when nothing is persisted. *)
Lemma fold_refines_fresh (state0 : MonitorState) l m alerts :
  aliased = false → addresses state0 = None →
  (fold_left step l (m, alerts)).2
  = alerts ++ omap (alert_for state0 balances tx_counts cy) l.
Proof.
  intros Hal Hnone. revert m alerts.
  induction l as [|[k i] l IH]; intros m alerts.
  - simpl. now rewrite app_nil_r.
  - cbn [fold_left].
    assert (step (m, alerts) (k, i)
            = ((step (m, alerts) (k, i)).1,
               alerts ++ match alert_for state0 balances tx_counts cy (k, i) with
                         | Some a => [a] | None => [] end)) as Hstep.
    { unfold check_address, alert_for, balance_delta, tx_delta, prior.
      rewrite Hal, Hnone. simpl.
      match goal with |- context [if ?c then _ else _] => destruct c end; simpl.
      - reflexivity.
      - now rewrite app_nil_r. }
    rewrite Hstep, IH, <- app_assoc. f_equal. simpl.
    destruct (alert_for state0 balances tx_counts cy (k, i)); done.
Qed.

(** With [prev_states] the dictionary of [state] itself: the addresses in
    [seen] hold the snapshot of this cycle, the others the persisted one. *)
Definition live_snapshot (state0 : MonitorState) (seen : list string)
    (m : option (gmap string AddressState)) : Prop :=
  (∀ a, a ∈ seen →
        ∃ p, m ≫= (λ m', m' !! a) = Some p ∧
             balance p = default 0%float (balances !! a) ∧
             tx_count p = default 0%Z (tx_counts !! a)) ∧
  (∀ a, a ∉ seen → m ≫= (λ m', m' !! a) = prior state0 a).

Lemma live_snapshot_step state0 seen m alerts k i :
  live_snapshot state0 seen m →
  live_snapshot state0 (if decide (lower k ∈ seen) then seen else lower k :: seen)
    (step (m, alerts) (k, i)).1.
Proof.
  intros [Hseen Hnew].
  assert (∀ a, a ≠ lower k →
               (step (m, alerts) (k, i)).1 ≫= (λ m', m' !! a) = m ≫= (λ m', m' !! a))
    as Hother.
  { intros a Ha. apply step_other_address. congruence. }
  assert (∃ p, (step (m, alerts) (k, i)).1 ≫= (λ m', m' !! lower k) = Some p ∧
               balance p = default 0%float (balances !! lower k) ∧
               tx_count p = default 0%Z (tx_counts !! lower k)) as Hk.
  { unfold check_address.
    match goal with |- context [if ?c then _ else _] => destruct c end; simpl;
      rewrite lookup_insert_eq; eexists; repeat split. }
  split.
  - intros a Ha. destruct (decide (a = lower k)) as [->|Hne]; [exact Hk|].
    rewrite (Hother a Hne). apply Hseen.
    destruct (decide (lower k ∈ seen)); [exact Ha|].
    apply elem_of_cons in Ha as [?|?]; done.
  - intros a Ha. destruct (decide (a = lower k)) as [->|Hne].
    + exfalso. apply Ha. destruct (decide (lower k ∈ seen)); [done|left].
    + rewrite (Hother a Hne). apply Hnew.
      destruct (decide (lower k ∈ seen)); [exact Ha|].
      intros Hin. apply Ha. now right.
Qed.

Lemma fold_refines_aliased (state0 : MonitorState) l m alerts seen :
  aliased = true → live_snapshot state0 seen m →
  (fold_left step l (m, alerts)).2
  = alerts ++ omap (alert_for state0 balances tx_counts cy) (first_keys seen l).
Proof.
  intros Hal. revert m alerts seen.
  induction l as [|[k i] l IH]; intros m alerts seen Hlive.
  - simpl. now rewrite app_nil_r.
  - cbn [fold_left first_keys].
    pose proof (live_snapshot_step state0 seen m alerts k i Hlive) as Hlive'.
    destruct Hlive as [Hseen Hnew].
    destruct (decide (lower k ∈ seen)) as [Hin|Hni].
    + destruct (Hseen _ Hin) as (p & Hp & Hb & Ht).
      assert ((step (m, alerts) (k, i)).2 = alerts) as Hsame.
      { unfold check_address. rewrite Hal, Hp, Hb, Ht.
        rewrite PyFloat.no_self_change by reflexivity.
        rewrite Z.sub_diag. reflexivity. }
      destruct (step (m, alerts) (k, i)) as [m' alerts'] eqn:Hstep.
      simpl in Hsame. subst alerts'. now apply IH.
    + assert ((step (m, alerts) (k, i)).2
              = alerts ++ match alert_for state0 balances tx_counts cy (k, i) with
                          | Some a => [a] | None => [] end) as Hone.
      { unfold check_address, alert_for, balance_delta, tx_delta.
        rewrite Hal, (Hnew _ Hni). simpl.
        match goal with |- context [if ?c then _ else _] => destruct c end; simpl.
        - reflexivity.
        - now rewrite app_nil_r. }
      destruct (step (m, alerts) (k, i)) as [m' alerts'] eqn:Hstep.
      simpl in Hone. subst alerts'. rewrite (IH _ _ _ Hlive'), <- app_assoc.
      f_equal. simpl. destruct (alert_for state0 balances tx_counts cy (k, i)); done.
Qed.

End Cycle.

(** The alerts of one call of [check_addresses]. *)
Lemma check_addresses_refines watchlist state cy :
  (check_addresses watchlist state cy).1
  = omap (alert_for state
            (get_balances watchlist.*1 (balance_results cy))
            (get_tx_counts watchlist.*1 (tx_count_results cy)) cy)
      (observed_entries state watchlist).
Proof.
  unfold check_addresses, observed_entries.
  destruct watchlist as [|e0 w0] eqn:Ew; [by destruct (addresses state)|].
  rewrite <- Ew in *.
  set (bal := get_balances watchlist.*1 (balance_results cy)).
  set (txc := get_tx_counts watchlist.*1 (tx_count_results cy)).
  replace (watchlist.*1) with (e0.1 :: w0.*1) by now rewrite Ew.
  lazy beta iota zeta.
  destruct (addresses state) as [m0|] eqn:Hm.
  - pose proof (fold_refines_aliased true bal txc cy state watchlist (Some m0) [] []
                  eq_refl) as Hf.
    destruct (fold_left (check_address true bal txc cy) watchlist (Some m0, []))
      as [m' alerts']. apply Hf. split.
    + intros a Ha. by apply elem_of_nil in Ha.
    + intros a _. unfold prior. now rewrite Hm.
  - pose proof (fold_refines_fresh false bal txc cy state watchlist None []
                  eq_refl Hm) as Hf.
    destruct (fold_left (check_address false bal txc cy) watchlist (None, []))
      as [m' alerts']. exact Hf.
Qed.

End MonitorFacts.

(* ===================================================================== *)
(** * Claims about the monitor daemon *)
(* ===================================================================== *)

Module MonitorClaims.
Import PyStr AddressMonitorDaemon MonitorFacts.

Definition watch_one : list (string * WatchInfo) :=
  [ ("0xB063", mkWatchInfo (Some "Opus Bounty Collection")) ].

(** No snapshot yet; the node reports 0.01 ether and no transaction. *)
Definition fresh_state : MonitorState := mkMonitorState (Some ∅) None None.

Definition cycle_at_threshold : Cycle :=
  mkCycle [Some 10000000000000000%Z] [Some 0%Z] 21000000 "2026-01-01T00:00:30".

(** Scenario E: the snapshot holds 10.0 ether, the node reports 10.02. *)
Definition state_scenario_e : MonitorState :=
  mkMonitorState
    (Some {[ "0xb063" := mkAddressState 10%float 7 "2026-01-01T00:00:00"
                           "Opus Bounty Collection" ]})
    (Some "2026-01-01T00:00:00") (Some 20999999%Z).

Definition cycle_scenario_e : Cycle :=
  mkCycle [Some 10020000000000000000%Z] [Some 7%Z] 21000000 "2026-01-01T00:00:30".

(** A first observation: no snapshot, the node reports 2.5 ether and 3
    transactions. *)
Definition cycle_first_seen : Cycle :=
  mkCycle [Some 2500000000000000000%Z] [Some 3%Z] 21000000 "2026-01-01T00:00:30".

(** C7, as stated, fails at the threshold: a balance that moved by exactly
    MIN_BALANCE_CHANGE (the delta is not below the threshold) with no new
    transaction raises no alert; the test of the code is strict. *)
Lemma C7_change_equal_to_threshold :
  balance_delta fresh_state
    (get_balances watch_one.*1 (balance_results cycle_at_threshold)) "0xB063"
  = MIN_BALANCE_CHANGE ∧
  PrimFloat.leb MIN_BALANCE_CHANGE
    (PrimFloat.abs
       (balance_delta fresh_state
          (get_balances watch_one.*1 (balance_results cycle_at_threshold)) "0xB063"))
  = true ∧
  (check_addresses watch_one fresh_state cycle_at_threshold).1 = [].
Proof. repeat split; vm_compute; reflexivity. Qed.

(** C7, amended: the alerts of one cycle are, in watchlist order, one per
    observed entry (every watchlist address once, see [observed_entries])
    whose balance moved by strictly more than MIN_BALANCE_CHANGE or whose
    transaction count grew, the deltas being taken against the persisted
    snapshot; the alert is "high" when the balance moved by more than 10
    ether or more than 5 transactions are new, and "medium" otherwise. *)
Theorem C7_alert_exactly_when
    (watchlist : list (string * WatchInfo)) (state : MonitorState) (cy : Cycle) :
  let balances := get_balances watchlist.*1 (balance_results cy) in
  let tx_counts := get_tx_counts watchlist.*1 (tx_count_results cy) in
  (check_addresses watchlist state cy).1
  = omap (alert_for state balances tx_counts cy) (observed_entries state watchlist) ∧
  (NoDup (lower <$> watchlist.*1) → observed_entries state watchlist = watchlist) ∧
  ∀ entry,
    (is_Some (alert_for state balances tx_counts cy entry) ↔
     PrimFloat.ltb MIN_BALANCE_CHANGE
       (PrimFloat.abs (balance_delta state balances (fst entry))) = true ∨
     (0 < tx_delta state tx_counts (fst entry))%Z) ∧
    (∀ alert, alert_for state balances tx_counts cy entry = Some alert →
       a_address alert = lower (fst entry) ∧
       balance_change_eth alert
       = PyFloat.round6 (balance_delta state balances (fst entry)) ∧
       new_transactions alert = tx_delta state tx_counts (fst entry) ∧
       severity alert
       = if PrimFloat.ltb 10%float
              (PrimFloat.abs (balance_delta state balances (fst entry)))
            || (5 <? tx_delta state tx_counts (fst entry))%Z
         then "high" else "medium").
Proof.
  intros balances tx_counts. split; [|split].
  - apply check_addresses_refines.
  - intros Hnd. unfold observed_entries. destruct (addresses state); [|done].
    apply first_keys_nodup; [exact Hnd|]. intros k _ Hk. by apply elem_of_nil in Hk.
  - intros entry. split; [apply alert_for_is_Some|].
    intros alert. unfold alert_for.
    destruct (_ || (0 <? _)%Z); [|discriminate].
    intros [= <-]. repeat split.
Qed.

(** Scenario E runs through [C7_alert_exactly_when]: one alert, "medium",
    with balance_change_eth 0.02. *)
Lemma C7_alert_exactly_when_witness :
  (check_addresses watch_one state_scenario_e cycle_scenario_e).1
  = [ mkAlert "2026-01-01T00:00:30" 21000000 "0xb063" "Opus Bounty Collection"
        0.02%float 0 10.02%float "medium" ].
Proof.
  rewrite (proj1 (C7_alert_exactly_when watch_one state_scenario_e cycle_scenario_e)).
  vm_compute. reflexivity.
Defined.

(** C10: a watchlist address without an entry in the persisted snapshot map
    is diffed against zero; when its balance exceeds MIN_BALANCE_CHANGE or
    its transaction count is positive, the cycle emits an alert for it whose
    balance_change_eth is its whole current balance (both are reported
    rounded to six decimals) and whose new_transactions is its whole
    transaction count. *)
Theorem C10_zero_baseline
    (watchlist : list (string * WatchInfo)) (state : MonitorState) (cy : Cycle)
    (addr : string) (info : WatchInfo) :
  (addr, info) ∈ watchlist →
  prior state (lower addr) = None →
  let cur := default 0%float
               (get_balances watchlist.*1 (balance_results cy) !! lower addr) in
  let txc := default 0%Z
               (get_tx_counts watchlist.*1 (tx_count_results cy) !! lower addr) in
  PrimFloat.ltb MIN_BALANCE_CHANGE (PrimFloat.abs cur) || (0 <? txc)%Z = true →
  balance_delta state (get_balances watchlist.*1 (balance_results cy)) addr = cur ∧
  tx_delta state (get_tx_counts watchlist.*1 (tx_count_results cy)) addr = txc ∧
  ∃ alert, alert ∈ (check_addresses watchlist state cy).1 ∧
           a_address alert = lower addr ∧
           balance_change_eth alert = PyFloat.round6 cur ∧
           current_balance alert = PyFloat.round6 cur ∧
           new_transactions alert = txc.
Proof.
  intros Hin Hprior cur txc Hmat.
  split; [|split].
  - unfold balance_delta. rewrite Hprior. apply PyFloat.sub_zero.
  - unfold tx_delta. rewrite Hprior. apply Z.sub_0_r.
  - subst cur txc. unfold check_addresses.
    destruct watchlist as [|e0 w0] eqn:Ew; [by apply elem_of_nil in Hin|].
    rewrite <- Ew in *.
    set (bal := get_balances watchlist.*1 (balance_results cy)) in *.
    set (txs := get_tx_counts watchlist.*1 (tx_count_results cy)) in *.
    set (al := match addresses state with Some _ => true | None => false end).
    replace (watchlist.*1) with (e0.1 :: w0.*1) by now rewrite Ew.
    lazy beta iota zeta.
    pose proof (first_observation al bal txs cy watchlist (addresses state) []
                  addr info Hin (λ _, Hprior) Hmat) as Hf.
    destruct (fold_left (check_address al bal txs cy) watchlist (addresses state, []))
      as [m' alerts']. exact Hf.
Qed.

Lemma C10_zero_baseline_witness :
  ∃ alert, alert ∈ (check_addresses watch_one fresh_state cycle_first_seen).1 ∧
           a_address alert = "0xb063" ∧
           balance_change_eth alert = 2.5%float ∧
           current_balance alert = 2.5%float ∧
           new_transactions alert = 3%Z.
Proof.
  exact (proj2 (proj2 (C10_zero_baseline watch_one fresh_state cycle_first_seen
                         "0xB063" (mkWatchInfo (Some "Opus Bounty Collection"))
                         ltac:(left) eq_refl eq_refl))).
Defined.

End MonitorClaims.

(* ===================================================================== *)
(** * Claims about the rate limiter *)
(* ===================================================================== *)

Module RateLimiterClaims.
Import RateLimiter.




End RateLimiterClaims.

(* ===================================================================== *)
(** * tools/address_monitor_daemon.py: the JSON files and the watchlist *)
(* ===================================================================== *)

Module MonitorFiles.
Import PyStr AddressMonitorDaemon.

Definition MAX_ALERTS : nat := 500.

(** A value that [json.loads] returns and [json.dumps] writes. *)
Inductive Json :=
| JNull
| JBool (b : bool)
| JInt (n : Z)
| JFloat (x : float)
| JStr (s : string)
| JList (l : list Json)
| JDict (d : list (string * Json)).

(** Python's truth value, which [x or y] tests. *)
Definition json_truthy (v : Json) : bool :=
  match v with
  | JNull => false
  | JBool b => b
  | JInt n => negb (n =? 0)%Z
  | JFloat x => negb (PrimFloat.eqb x 0%float)
  | JStr s => truthy s
  | JList l => match l with [] => false | _ => true end
  | JDict d => match d with [] => false | _ => true end
  end.

Definition py_or (x y : Json) : Json := if json_truthy x then x else y.

(** What a path holds: nothing, text that [read_text] or [json.loads]
    rejects, or the text of a value. *)
Inductive File := Missing | Unreadable | Holds (v : Json).

(** [load_json(path, default)] *)
Definition load_json (path : File) (default : Json) : Json :=
  match path with
  | Holds v => v
  | Missing => py_or default (JDict [])
  | Unreadable => py_or default (JDict [])
  end.

(** [save_json(path, data)]: the file after the call. *)
Definition save_json (data : Json) : File := Holds data.

Inductive Outcome (A : Type) :=
| Returned (a : A)
| Raised (exception : string).
Arguments Returned {A} a.
Arguments Raised {A} exception.

(** The dictionary that [check_addresses] builds for one alert. *)
Definition alert_json (a : Alert) : Json :=
  JDict [("timestamp", JStr (timestamp a));
         ("block", JInt (block a));
         ("address", JStr (a_address a));
         ("label", JStr (a_label a));
         ("balance_change_eth", JFloat (balance_change_eth a));
         ("new_transactions", JInt (new_transactions a));
         ("current_balance", JFloat (current_balance a));
         ("severity", JStr (severity a))].

(** [l[-n:]] for a positive [n]. *)
Definition last_n {A} (n : nat) (l : list A) : list A := skipn (length l - n) l.

(** [append_alerts(new_alerts)] on the alerts file: the file after the call,
    or the exception that leaves it as it was ([extend] exists on lists
    only). *)
Definition append_alerts (alerts_file : File) (new_alerts : list Alert) : Outcome File :=
  match load_json alerts_file (JList []) with
  | JList existing =>
      let existing := existing ++ (alert_json <$> new_alerts) in
      Returned (save_json (JList (last_n MAX_ALERTS existing)))
  | _ => Raised "AttributeError"
  end.

(** The alerts file across one iteration of the loop of [main]:
    [if alerts: append_alerts(alerts)], inside [try ... except Exception]. *)
Definition main_append (alerts_file : File) (alerts : list Alert) : File :=
  match alerts with
  | [] => alerts_file
  | _ =>
      match append_alerts alerts_file alerts with
      | Returned f => f
      | Raised _ => alerts_file
      end
  end.

(** A watchlist value as [load_watchlist] builds it. *)
Record WatchEntry := mkWatchEntry {
  we_label : string;
  we_tier : string;
  we_priority : string
}.

(** One item of [data.get("known_addresses", {})]: the category, with
    [info.get("addresses", [])] and [info.get("note", "")]. *)
Record Category := mkCategory {
  c_name : string;
  c_addresses : list string;
  c_note : string
}.

(** state/bounty_watchlist.json: absent; present but reading, parsing or
    the loop raises; or its categories in order. *)
Inductive External :=
| NoFile
| Malformed
| Parsed (known_addresses : list Category).

(** [d[k] = v] on an insertion-ordered dictionary. *)
Fixpoint dict_set {V} (k : string) (v : V) (d : list (string * V)) : list (string * V) :=
  match d with
  | [] => [(k, v)]
  | (k', v') :: d' =>
      if decide (k' = k) then (k', v) :: d' else (k', v') :: dict_set k v d'
  end.

(** [d.update(other)] *)
Definition dict_update {V} (d other : list (string * V)) : list (string * V) :=
  fold_left (λ d kv, dict_set (fst kv) (snd kv) d) other d.

Definition tracked (cat : Category) : WatchEntry :=
  mkWatchEntry (c_name cat ++ ": " ++ c_note cat) "tracked" "medium".

Section Watchlist.

Variable HARDCODED_WATCHLIST : list (string * WatchEntry).

Definition load_watchlist (external : External) : list (string * WatchEntry) :=
  match external with
  | Parsed known_addresses =>
      let addresses :=
        fold_left (λ addresses cat,
                     fold_left (λ addresses addr, dict_set (lower addr) (tracked cat) addresses)
                       (c_addresses cat) addresses)
          known_addresses [] in
      dict_update addresses HARDCODED_WATCHLIST
  | _ => HARDCODED_WATCHLIST
  end.

End Watchlist.

(** The value [check_addresses] reads from a watchlist entry. *)
Definition watch_info (e : WatchEntry) : WatchInfo := mkWatchInfo (Some (we_label e)).

End MonitorFiles.

Module MonitorFilesFacts.
Import PyStr AddressMonitorDaemon MonitorFiles.

Lemma last_n_suffix {A} n (l : list A) : last_n n l `suffix_of` l.
Proof. exists (take (length l - n) l). unfold last_n. now rewrite take_drop. Qed.

Lemma last_n_length {A} n (l : list A) : length (last_n n l) = Nat.min n (length l).
Proof. unfold last_n. rewrite length_drop. lia. Qed.

Lemma last_n_keeps_tail {A} n (l1 l2 : list A) :
  length l2 ≤ n → l2 `suffix_of` last_n n (l1 ++ l2).
Proof.
  intros Hle. unfold last_n. rewrite length_app.
  exists (drop (length l1 + length l2 - n) l1).
  apply drop_app_le. lia.
Qed.

(** X1 [append_alerts]: when the alerts file holds a list, the call returns
    and the file then holds the newest MAX_ALERTS entries of the old list
    followed by the new alerts: never more than MAX_ALERTS entries, a suffix
    of the whole log, and all the new alerts when they are at most
    MAX_ALERTS. *)
Theorem append_alerts_keeps_newest (old : list Json) (new : list Alert) :
  ∃ kept, append_alerts (Holds (JList old)) new = Returned (Holds (JList kept)) ∧
          length kept = Nat.min MAX_ALERTS (length old + length new) ∧
          kept `suffix_of` (old ++ (alert_json <$> new)) ∧
          (length new ≤ MAX_ALERTS → (alert_json <$> new) `suffix_of` kept).
Proof.
  exists (last_n MAX_ALERTS (old ++ (alert_json <$> new))).
  split; [reflexivity|]. split; [|split].
  - now rewrite last_n_length, length_app, length_fmap.
  - apply last_n_suffix.
  - intros Hle. apply last_n_keeps_tail. now rewrite length_fmap.
Qed.

Lemma main_append_not_a_list file alerts :
  (∀ l, file ≠ Holds (JList l)) → main_append file alerts = file.
Proof.
  intros Hfile. destruct alerts as [|a alerts]; [reflexivity|].
  unfold main_append, append_alerts.
  destruct file as [| |v]; try reflexivity.
  destruct v; try reflexivity. now destruct (Hfile l).
Qed.

(** X2 [load_json], [append_alerts]: the empty-list default of the alerts
    file is falsy, so a missing or unreadable file is loaded as a
    dictionary, [extend] raises and nothing is written.  Unless the file
    already holds a list, no sequence of cycles ever changes it: the alerts
    of the daemon are never stored. *)
Theorem alerts_file_needs_a_list (file : File) (batches : list (list Alert)) :
  (∀ l, file ≠ Holds (JList l)) →
  fold_left main_append batches file = file ∧
  ∀ alerts, append_alerts file alerts = Raised "AttributeError".
Proof.
  intros Hfile. split.
  - induction batches as [|b batches IH]; [reflexivity|].
    cbn [fold_left]. now rewrite main_append_not_a_list.
  - intros alerts. unfold append_alerts.
    destruct file as [| |v]; try reflexivity.
    destruct v; try reflexivity. now destruct (Hfile l).
Qed.

Lemma alerts_file_needs_a_list_witness :
  fold_left main_append
    [[mkAlert "t" 1 "0xa" "a" 0.5%float 1 0.5%float "medium"]] Missing = Missing ∧
  ∀ alerts, append_alerts Missing alerts = Raised "AttributeError".
Proof. apply alerts_file_needs_a_list. intros l. discriminate. Defined.

Lemma dict_set_elem {V} k (v : V) d k' v' :
  (k', v') ∈ dict_set k v d → (k', v') = (k, v) ∨ (k', v') ∈ d.
Proof.
  induction d as [|[k0 v0] d IH]; simpl.
  - intros Hin. apply list_elem_of_singleton in Hin. now left.
  - destruct (decide (k0 = k)) as [->|Hne]; intros Hin;
      apply elem_of_cons in Hin as [Heq|Hin].
    + now left.
    + right. now right.
    + right. rewrite Heq. left.
    + destruct (IH Hin) as [?|?]; [now left|right; now right].
Qed.

Lemma dict_set_here {V} k (v : V) d : (k, v) ∈ dict_set k v d.
Proof.
  induction d as [|[k0 v0] d IH]; simpl; [left|].
  destruct (decide (k0 = k)) as [->|Hne]; [left|now right].
Qed.

Lemma dict_set_other {V} k (v : V) d k' v' :
  k' ≠ k → (k', v') ∈ d → (k', v') ∈ dict_set k v d.
Proof.
  intros Hne. induction d as [|[k0 v0] d IH]; simpl;
    [intros Hin; by apply elem_of_nil in Hin|].
  intros Hin. apply elem_of_cons in Hin as [Heq|Hin].
  - injection Heq as <- <-. rewrite decide_False by done. left.
  - destruct (decide (k0 = k)); right; [exact Hin|now apply IH].
Qed.

Lemma dict_set_keys {V} k (v : V) d k' :
  k' ∈ (dict_set k v d).*1 ↔ k' = k ∨ k' ∈ d.*1.
Proof.
  induction d as [|[k0 v0] d IH]; simpl.
  - rewrite list_elem_of_singleton. split; [now left|intros [?|?]; [done|]].
    by apply elem_of_nil in H.
  - destruct (decide (k0 = k)) as [->|Hne]; simpl; rewrite !elem_of_cons.
    + tauto.
    + rewrite IH. tauto.
Qed.

Lemma dict_set_nodup {V} k (v : V) d : NoDup d.*1 → NoDup (dict_set k v d).*1.
Proof.
  induction d as [|[k0 v0] d IH]; simpl; intros Hnd.
  - apply NoDup_singleton.
  - apply NoDup_cons in Hnd as [Hk0 Hnd].
    destruct (decide (k0 = k)) as [->|Hne]; simpl; apply NoDup_cons.
    + done.
    + split; [|now apply IH]. rewrite dict_set_keys. intros [?|?]; done.
Qed.

Lemma dict_update_elem {V} (d o : list (string * V)) k e :
  (k, e) ∈ dict_update d o → (k, e) ∈ o ∨ (k, e) ∈ d.
Proof.
  unfold dict_update. revert d. induction o as [|[k0 e0] o IH]; intros d; simpl.
  - now right.
  - intros Hin. destruct (IH _ Hin) as [Ho|Hd]; [left; now right|].
    apply dict_set_elem in Hd as [Heq|Hd]; [left; rewrite Heq; left|now right].
Qed.

Lemma dict_update_keeps {V} (d o : list (string * V)) k e :
  (k, e) ∈ d → k ∉ o.*1 → (k, e) ∈ dict_update d o.
Proof.
  unfold dict_update. revert d. induction o as [|[k0 e0] o IH]; intros d Hin Hk; simpl.
  - exact Hin.
  - rewrite fmap_cons, not_elem_of_cons in Hk. destruct Hk as [Hne Hk].
    apply IH; [|exact Hk]. now apply dict_set_other.
Qed.

Lemma dict_update_wins {V} (d o : list (string * V)) k e :
  NoDup o.*1 → (k, e) ∈ o → (k, e) ∈ dict_update d o.
Proof.
  revert d. induction o as [|[k0 e0] o IH]; intros d Hnd Hin;
    [by apply elem_of_nil in Hin|].
  rewrite fmap_cons in Hnd. apply NoDup_cons in Hnd as [Hk0 Hnd].
  apply elem_of_cons in Hin as [Heq|Hin].
  - injection Heq as -> ->.
    apply (dict_update_keeps (dict_set k0 e0 d) o); [apply dict_set_here|exact Hk0].
  - now apply (IH (dict_set k0 e0 d)).
Qed.

Lemma dict_update_keys {V} (d o : list (string * V)) k :
  k ∈ d.*1 → k ∈ (dict_update d o).*1.
Proof.
  unfold dict_update. revert d. induction o as [|[k0 e0] o IH]; intros d Hin; simpl.
  - exact Hin.
  - apply IH. apply dict_set_keys. now right.
Qed.

Lemma dict_update_nodup {V} (d o : list (string * V)) :
  NoDup d.*1 → NoDup (dict_update d o).*1.
Proof.
  unfold dict_update. revert d. induction o as [|[k0 e0] o IH]; intros d Hnd; simpl.
  - exact Hnd.
  - apply IH. now apply dict_set_nodup.
Qed.

(** The two loops of [load_watchlist] over the external file. *)
Definition collect_category (cat : Category) (addrs : list string)
    (acc : list (string * WatchEntry)) : list (string * WatchEntry) :=
  fold_left (λ addresses addr, dict_set (lower addr) (tracked cat) addresses) addrs acc.

Definition collect (known : list Category) (acc : list (string * WatchEntry))
  : list (string * WatchEntry) :=
  fold_left (λ addresses cat, collect_category cat (c_addresses cat) addresses) known acc.

Lemma collect_category_spec cat addrs acc :
  (NoDup acc.*1 → NoDup (collect_category cat addrs acc).*1) ∧
  (∀ k, k ∈ acc.*1 ∨ k ∈ lower <$> addrs → k ∈ (collect_category cat addrs acc).*1) ∧
  (∀ k e, (k, e) ∈ collect_category cat addrs acc →
          (k, e) ∈ acc ∨ ∃ a, a ∈ addrs ∧ k = lower a ∧ e = tracked cat).
Proof.
  unfold collect_category. revert acc.
  induction addrs as [|a addrs IH]; intros acc; simpl.
  - split; [done|]. split; [|now left].
    intros k [?|Hin]; [done|by apply elem_of_nil in Hin].
  - destruct (IH (dict_set (lower a) (tracked cat) acc)) as (Hnd & Hkeys & Helem).
    split; [|split].
    + intros Hacc. apply Hnd. now apply dict_set_nodup.
    + intros k Hk. apply Hkeys. rewrite dict_set_keys.
      destruct Hk as [Hk|Hk]; [tauto|].
      apply elem_of_cons in Hk as [->|Hk]; tauto.
    + intros k e Hin. destruct (Helem _ _ Hin) as [Hd|(a' & Ha' & -> & ->)].
      * apply dict_set_elem in Hd as [Heq|Hd]; [|now left].
        injection Heq as -> ->. right. exists a. split; [left|done].
      * right. exists a'. split; [now right|done].
Qed.

Lemma collect_spec known acc :
  (NoDup acc.*1 → NoDup (collect known acc).*1) ∧
  (∀ k, k ∈ acc.*1 → k ∈ (collect known acc).*1) ∧
  (∀ cat a, cat ∈ known → a ∈ c_addresses cat → lower a ∈ (collect known acc).*1) ∧
  (∀ k e, (k, e) ∈ collect known acc →
          (k, e) ∈ acc ∨
          ∃ cat a, cat ∈ known ∧ a ∈ c_addresses cat ∧ k = lower a ∧ e = tracked cat).
Proof.
  unfold collect. revert acc. induction known as [|c known IH]; intros acc; simpl.
  - split; [done|]. split; [done|]. split; [|now left].
    intros cat a Hin. by apply elem_of_nil in Hin.
  - destruct (collect_category_spec c (c_addresses c) acc) as (Hnd1 & Hkeys1 & Helem1).
    destruct (IH (collect_category c (c_addresses c) acc)) as (Hnd & Hkeep & Hkeys & Helem).
    split; [|split; [|split]].
    + intros Hacc. now apply Hnd, Hnd1.
    + intros k Hk. apply Hkeep, Hkeys1. now left.
    + intros cat a Hcat Ha. apply elem_of_cons in Hcat as [->|Hcat].
      * apply Hkeep, Hkeys1. right. apply list_elem_of_fmap. eauto.
      * now apply (Hkeys cat).
    + intros k e Hin. destruct (Helem _ _ Hin) as [Hd|(cat & a & Hcat & Ha & -> & ->)].
      * destruct (Helem1 _ _ Hd) as [?|(a & Ha & -> & ->)]; [now left|].
        right. exists c, a. split; [left|done].
      * right. exists cat, a. split; [now right|done].
Qed.

(** X3 [load_watchlist]: when the external file is read, the watchlist is a
    dictionary (no key twice) that holds every hardcoded entry unchanged
    and, lower-cased, every address of every category; each entry is a
    hardcoded one or a lower-cased external address with tier "tracked",
    priority "medium" and the label "category: note". *)
Theorem load_watchlist_merges (HARDCODED_WATCHLIST : list (string * WatchEntry))
    (known : list Category) :
  NoDup HARDCODED_WATCHLIST.*1 →
  let watchlist := load_watchlist HARDCODED_WATCHLIST (Parsed known) in
  NoDup watchlist.*1 ∧
  (∀ k e, (k, e) ∈ HARDCODED_WATCHLIST → (k, e) ∈ watchlist) ∧
  (∀ cat a, cat ∈ known → a ∈ c_addresses cat → lower a ∈ watchlist.*1) ∧
  (∀ k e, (k, e) ∈ watchlist →
          (k, e) ∈ HARDCODED_WATCHLIST ∨
          ∃ cat a, cat ∈ known ∧ a ∈ c_addresses cat ∧ k = lower a ∧ e = tracked cat).
Proof.
  intros Hhard watchlist. subst watchlist. unfold load_watchlist.
  change (fold_left _ known []) with (collect known []).
  destruct (collect_spec known []) as (Hnd & _ & Hkeys & Helem).
  split; [|split; [|split]].
  - apply dict_update_nodup, Hnd. constructor.
  - intros k e Hin. now apply dict_update_wins.
  - intros cat a Hcat Ha. apply dict_update_keys. now apply (Hkeys cat).
  - intros k e Hin. apply dict_update_elem in Hin as [?|Hin]; [now left|].
    destruct (Helem _ _ Hin) as [Hnil|?]; [by apply elem_of_nil in Hnil|now right].
Qed.

Definition sample_hardcoded : list (string * WatchEntry) :=
  [("0xD90e", mkWatchEntry "Tornado Cash Router" "infrastructure" "high")].

Definition sample_known : list Category :=
  [mkCategory "bybit" ["0xAB12"; "0xD90E"] "stolen funds"].

Lemma load_watchlist_merges_witness :
  load_watchlist sample_hardcoded (Parsed sample_known)
  = [("0xab12", mkWatchEntry "bybit: stolen funds" "tracked" "medium");
     ("0xd90e", mkWatchEntry "bybit: stolen funds" "tracked" "medium");
     ("0xD90e", mkWatchEntry "Tornado Cash Router" "infrastructure" "high")] ∧
  NoDup (load_watchlist sample_hardcoded (Parsed sample_known)).*1.
Proof.
  split; [reflexivity|].
  apply (load_watchlist_merges sample_hardcoded sample_known).
  apply NoDup_singleton.
Defined.

End MonitorFilesFacts.

(* ===================================================================== *)
(** * The monitor: the batch results and the state across cycles *)
(* ===================================================================== *)

Module MonitorCycleFacts.
Import PyStr AddressMonitorDaemon MonitorFacts.

Section ZipToMap.

Context {V : Type}.
Variable f : option Z → V.

Local Abbreviation ins :=
  (λ (m : gmap string V) (ar : string * option Z), <[lower (fst ar) := f (snd ar)]> m).

Lemma zip_fold_absent addrs results (m : gmap string V) k :
  k ∉ lower <$> addrs →
  fold_left ins (combine addrs results) m !! k = m !! k.
Proof.
  revert results m. induction addrs as [|a addrs IH]; intros results m Hk; [done|].
  rewrite fmap_cons, not_elem_of_cons in Hk. destruct Hk as [Hne Hk].
  destruct results as [|r results]; [done|]. simpl.
  rewrite IH by exact Hk. now rewrite lookup_insert_ne.
Qed.

Lemma zip_fold_lookup addrs results (m : gmap string V) i a :
  NoDup (lower <$> addrs) → addrs !! i = Some a →
  fold_left ins (combine addrs results) m !! lower a
  = match results !! i with Some r => Some (f r) | None => m !! lower a end.
Proof.
  revert results m i. induction addrs as [|a0 addrs IH]; intros results m i Hnd Hi;
    [done|].
  rewrite fmap_cons in Hnd. apply NoDup_cons in Hnd as [Ha0 Hnd].
  destruct results as [|r results]; [by destruct i|].
  destruct i as [|i]; simpl in Hi |- *.
  - injection Hi as ->. rewrite zip_fold_absent by exact Ha0.
    now rewrite lookup_insert_eq.
  - rewrite (IH _ _ i Hnd Hi). destruct (results !! i); [done|].
    apply lookup_insert_ne. intros Heq. apply Ha0. rewrite Heq.
    apply list_elem_of_fmap. exists a. split; [done|]. eapply list_elem_of_lookup_2, Hi.
Qed.

Lemma zip_to_map_lookup addrs results i a :
  NoDup (lower <$> addrs) → addrs !! i = Some a →
  zip_to_map f addrs results !! lower a = f <$> results !! i.
Proof.
  intros Hnd Hi. unfold zip_to_map.
  rewrite (zip_fold_lookup addrs results ∅ i a Hnd Hi).
  destruct (results !! i); simpl; [done|]. apply lookup_empty.
Qed.

End ZipToMap.

(** X4 [get_balances], [get_tx_counts]: for addresses that stay distinct
    when lower-cased, the i-th address is mapped to the i-th result of the
    batch (zero when that result is null); an address beyond the results
    returned has no entry at all, so a short or failed batch reads as zero
    in [check_addresses]. *)
Theorem batch_results_by_position (addrs : list string) (results : list (option Z))
    (i : nat) (a : string) :
  NoDup (lower <$> addrs) → addrs !! i = Some a →
  get_balances addrs results !! lower a
  = (λ r, match r with Some wei => PyFloat.wei_to_eth wei | None => 0%float end)
      <$> results !! i ∧
  get_tx_counts addrs results !! lower a
  = (λ r, match r with Some n => n | None => 0%Z end) <$> results !! i.
Proof.
  intros Hnd Hi. split; apply zip_to_map_lookup; assumption.
Qed.

Lemma batch_results_by_position_witness :
  get_balances ["0xA1"; "0xB2"] [Some 2000000000000000000%Z] !! "0xa1" = Some 2%float ∧
  get_tx_counts ["0xA1"; "0xB2"] [Some 7%Z] !! "0xb2" = None.
Proof.
  assert (NoDup (lower <$> ["0xA1"; "0xB2"])) as Hnd.
  { apply NoDup_cons. split; [|apply NoDup_singleton].
    intros Hin. apply list_elem_of_singleton in Hin. discriminate. }
  split.
  - etransitivity;
      [exact (proj1 (batch_results_by_position ["0xA1"; "0xB2"]
                       [Some 2000000000000000000%Z] 0 "0xA1" Hnd eq_refl))|].
    vm_compute. reflexivity.
  - exact (proj2 (batch_results_by_position ["0xA1"; "0xB2"] [Some 7%Z] 1 "0xB2"
                    Hnd eq_refl)).
Defined.

Section Snapshot.

Variable aliased : bool.
Variable balances : gmap string float.
Variable tx_counts : gmap string Z.
Variable cy : Cycle.

Local Abbreviation step := (check_address aliased balances tx_counts cy).

(** The entry that one step writes. *)
Lemma step_writes m alerts k i :
  (step (m, alerts) (k, i)).1 ≫= (λ m', m' !! lower k)
  = Some (mkAddressState (default 0%float (balances !! lower k))
            (default 0%Z (tx_counts !! lower k)) (now cy) (label_of i)).
Proof.
  unfold check_address.
  match goal with |- context [if ?c then _ else _] => destruct c end; simpl;
    now rewrite lookup_insert_eq.
Qed.

Lemma fold_snapshot l m alerts :
  let m' := (fold_left step l (m, alerts)).1 in
  (∀ k i, (k, i) ∈ l →
     ∃ k' i', (k', i') ∈ l ∧ lower k' = lower k ∧
       m' ≫= (λ d, d !! lower k)
       = Some (mkAddressState (default 0%float (balances !! lower k))
                 (default 0%Z (tx_counts !! lower k)) (now cy) (label_of i'))) ∧
  (∀ a, a ∉ lower <$> l.*1 → m' ≫= (λ d, d !! a) = m ≫= (λ d, d !! a)).
Proof.
  revert m alerts. induction l as [|[k0 i0] l IH]; intros m alerts; cbn [fold_left].
  - split; [|done]. intros k i Hin. by apply elem_of_nil in Hin.
  - destruct (step (m, alerts) (k0, i0)) as [m1 alerts1] eqn:Hstep.
    destruct (IH m1 alerts1) as [Hin Hout]. cbv zeta in *. split.
    + intros k i Hk.
      destruct (decide (lower k ∈ lower <$> l.*1)) as [Hlater|Hlast].
      * apply list_elem_of_fmap in Hlater as (k2 & Hk2 & Hin2).
        apply list_elem_of_fmap in Hin2 as ([k3 i3] & -> & Hin3). simpl in Hk2.
        destruct (Hin k3 i3 Hin3) as (k' & i' & Hin' & Hlow & Hm').
        exists k', i'. split; [now right|]. split; [congruence|].
        rewrite Hk2. exact Hm'.
      * rewrite (Hout _ Hlast).
        apply elem_of_cons in Hk as [Heq|Hk].
        -- injection Heq as -> ->. exists k0, i0. split; [left|]. split; [done|].
           pose proof (step_writes m alerts k0 i0) as Hw. now rewrite Hstep in Hw.
        -- exfalso. apply Hlast. apply list_elem_of_fmap. exists k. split; [done|].
           apply list_elem_of_fmap. exists (k, i). done.
    + intros a Ha. rewrite fmap_cons, fmap_cons, not_elem_of_cons in Ha.
      destruct Ha as [Hne Ha]. rewrite (Hout _ Ha).
      pose proof (step_other_address aliased balances tx_counts cy m alerts k0 i0 a) as Ho.
      rewrite Hstep in Ho. apply Ho. simpl in Hne. congruence.
Qed.

End Snapshot.

(** The state after a call on a watchlist that is not empty. *)
Lemma check_addresses_state watchlist state cy :
  watchlist ≠ [] →
  (check_addresses watchlist state cy).2
  = mkMonitorState
      (fold_left
         (check_address (match addresses state with Some _ => true | None => false end)
            (get_balances watchlist.*1 (balance_results cy))
            (get_tx_counts watchlist.*1 (tx_count_results cy)) cy)
         watchlist (addresses state, [])).1
      (Some (now cy)) (Some (block_number cy)).
Proof.
  intros Hne. unfold check_addresses.
  destruct watchlist as [|e0 w0] eqn:Ew; [done|]. rewrite <- Ew in *.
  set (bal := get_balances watchlist.*1 (balance_results cy)).
  set (txc := get_tx_counts watchlist.*1 (tx_count_results cy)).
  replace (watchlist.*1) with (e0.1 :: w0.*1) by now rewrite Ew.
  lazy beta iota zeta.
  destruct (fold_left _ watchlist (addresses state, [])) as [m' alerts']. reflexivity.
Qed.

Lemma first_keys_subset seen l e : e ∈ first_keys seen l → e ∈ l.
Proof.
  revert seen. induction l as [|[k i] l IH]; intros seen; simpl; [done|].
  destruct (decide (lower k ∈ seen)); intros Hin.
  - right. now apply (IH seen).
  - apply elem_of_cons in Hin as [->|Hin]; [left|right; now apply (IH _ Hin)].
Qed.

Lemma observed_entries_subset state watchlist e :
  e ∈ observed_entries state watchlist → e ∈ watchlist.
Proof.
  unfold observed_entries. destruct (addresses state); [apply first_keys_subset|done].
Qed.

(** The snapshot that a cycle leaves for a watched address. *)
Lemma cycle_prior watchlist state cy k i :
  watchlist ≠ [] → (k, i) ∈ watchlist →
  ∃ k' i', (k', i') ∈ watchlist ∧ lower k' = lower k ∧
    prior (check_addresses watchlist state cy).2 (lower k)
    = Some (mkAddressState
              (default 0%float (get_balances watchlist.*1 (balance_results cy) !! lower k))
              (default 0%Z (get_tx_counts watchlist.*1 (tx_count_results cy) !! lower k))
              (now cy) (label_of i')).
Proof.
  intros Hne Hk. rewrite (check_addresses_state _ _ _ Hne).
  match goal with |- context [fold_left (check_address ?al ?bal ?txc _) _ _] =>
    destruct (fold_snapshot al bal txc cy watchlist (addresses state) []) as [Hin _] end.
  unfold prior. simpl. exact (Hin k i Hk).
Qed.

(** X5 [check_addresses]: after a cycle on a watchlist that is not empty,
    the state holds for every watched address the balance and the
    transaction count just read (zero where the batch gave none), stamped
    with the time of the cycle and labelled by one of its watchlist keys;
    the snapshots of addresses that are not watched are kept as they were,
    and last_check and last_block are those of the cycle. *)
Theorem cycle_records_every_watched_address (watchlist : list (string * WatchInfo))
    (state : MonitorState) (cy : Cycle) :
  watchlist ≠ [] →
  let state' := (check_addresses watchlist state cy).2 in
  let balances := get_balances watchlist.*1 (balance_results cy) in
  let tx_counts := get_tx_counts watchlist.*1 (tx_count_results cy) in
  (∀ k i, (k, i) ∈ watchlist →
     ∃ k' i', (k', i') ∈ watchlist ∧ lower k' = lower k ∧
       prior state' (lower k)
       = Some (mkAddressState (default 0%float (balances !! lower k))
                 (default 0%Z (tx_counts !! lower k)) (now cy) (label_of i'))) ∧
  (∀ a, a ∉ lower <$> watchlist.*1 → prior state' a = prior state a) ∧
  s_last_check state' = Some (now cy) ∧
  s_last_block state' = Some (block_number cy).
Proof.
  intros Hne state' balances tx_counts. subst state'.
  split; [intros k i Hk; exact (cycle_prior watchlist state cy k i Hne Hk)|].
  rewrite (check_addresses_state _ _ _ Hne). fold balances tx_counts.
  match goal with |- context [fold_left (check_address ?al _ _ _) _ _] =>
    destruct (fold_snapshot al balances tx_counts cy watchlist (addresses state) [])
      as [_ Hout] end.
  unfold prior. simpl. split; [exact Hout|done].
Qed.

Definition two_watched : list (string * WatchInfo) :=
  [("0xA1", mkWatchInfo (Some "vault")); ("0xB2", mkWatchInfo None)].

Definition funded_cycle : Cycle :=
  mkCycle [Some 2000000000000000000%Z; Some 0%Z] [Some 3%Z; Some 0%Z] 100 "t1".

Lemma cycle_records_every_watched_address_witness :
  s_last_block (check_addresses two_watched (mkMonitorState None None None) funded_cycle).2
  = Some 100%Z.
Proof.
  apply (cycle_records_every_watched_address two_watched (mkMonitorState None None None)
           funded_cycle).
  discriminate.
Defined.

(** X6 [check_addresses]: two cycles compose.  When the second cycle reads
    the same batch results as the first, it raises no alert, whatever the
    state before the first was: every address is diffed against the
    snapshot the first cycle wrote. *)
Theorem unchanged_chain_raises_nothing (watchlist : list (string * WatchInfo))
    (state : MonitorState) (cy cy' : Cycle) :
  balance_results cy' = balance_results cy →
  tx_count_results cy' = tx_count_results cy →
  (check_addresses watchlist (check_addresses watchlist state cy).2 cy').1 = [].
Proof.
  intros Hbal Htx. destruct (decide (watchlist = [])) as [->|Hne]; [reflexivity|].
  rewrite check_addresses_refines, Hbal, Htx.
  pose proof (λ k i, cycle_prior watchlist state cy k i Hne) as Hin.
  set (state1 := (check_addresses watchlist state cy).2) in *.
  set (bal := get_balances watchlist.*1 (balance_results cy)) in *.
  set (txc := get_tx_counts watchlist.*1 (tx_count_results cy)) in *.
  assert (∀ e, e ∈ observed_entries state1 watchlist →
               alert_for state1 bal txc cy' e = None) as Hnone.
  { intros [k i] He. apply observed_entries_subset in He.
    destruct (Hin k i He) as (k' & i' & _ & _ & Hp).
    unfold alert_for, balance_delta, tx_delta. simpl. rewrite Hp. simpl.
    rewrite PyFloat.no_self_change by reflexivity.
    now rewrite Z.sub_diag. }
  induction (observed_entries state1 watchlist) as [|e l IH]; [reflexivity|].
  simpl. rewrite Hnone by left. apply IH. intros e' He'. apply Hnone. now right.
Qed.

Lemma unchanged_chain_raises_nothing_witness :
  (check_addresses two_watched
     (check_addresses two_watched (mkMonitorState None None None) funded_cycle).2
     (mkCycle (balance_results funded_cycle) (tx_count_results funded_cycle) 101 "t2")).1
  = [].
Proof. apply unchanged_chain_raises_nothing; reflexivity. Defined.

(** Zero minus a float has the magnitude of the float. *)
Lemma abs_zero_sub (x : float) :
  PrimFloat.abs (PrimFloat.sub 0%float x) = PrimFloat.abs x.
Proof.
  apply Prim2SF_inj. rewrite !abs_spec, sub_spec. unfold SF64sub, SFsub.
  change (Prim2SF 0%float) with (S754_zero false).
  destruct (Prim2SF x) as [s|s| |s m e]; try reflexivity.
  destruct s; reflexivity.
Qed.

Lemma zip_to_map_no_results {V} (f : option Z → V) addrs : zip_to_map f addrs [] = ∅.
Proof. unfold zip_to_map. now rewrite combine_nil. Qed.

(** X7 [batch_rpc_call] failing, in [check_addresses]: when both batch calls
    return no result, every watched address is stored with balance 0 and
    transaction count 0, so the persisted snapshot is lost; and every
    address the cycle diffs whose persisted balance was above
    MIN_BALANCE_CHANGE raises an alert that reports the whole balance as
    moved and a current balance of zero. *)
Theorem failed_batch_zeroes_snapshots (watchlist : list (string * WatchInfo))
    (state : MonitorState) (cy : Cycle) :
  watchlist ≠ [] → balance_results cy = [] → tx_count_results cy = [] →
  let alerts := (check_addresses watchlist state cy).1 in
  let state' := (check_addresses watchlist state cy).2 in
  (∀ k i, (k, i) ∈ watchlist →
     ∃ p, prior state' (lower k) = Some p ∧ balance p = 0%float ∧ tx_count p = 0%Z) ∧
  (∀ k i p, (k, i) ∈ observed_entries state watchlist →
     prior state (lower k) = Some p →
     PrimFloat.ltb MIN_BALANCE_CHANGE (PrimFloat.abs (balance p)) = true →
     ∃ alert, alert ∈ alerts ∧ a_address alert = lower k ∧
              balance_change_eth alert = PyFloat.round6 (PrimFloat.sub 0%float (balance p)) ∧
              new_transactions alert = (0 - tx_count p)%Z ∧
              current_balance alert = 0%float).
Proof.
  intros Hne Hbal Htx alerts state'. subst alerts state'. split.
  - intros k i Hk.
    destruct (cycle_prior watchlist state cy k i Hne Hk) as (k' & i' & _ & _ & Hp).
    rewrite Hp.
    eexists. split; [reflexivity|]. simpl.
    unfold get_balances, get_tx_counts. rewrite Hbal, Htx, !zip_to_map_no_results.
    now rewrite !lookup_empty.
  - intros k i p Hk Hp Hmoved. rewrite check_addresses_refines.
    unfold get_balances, get_tx_counts. rewrite Hbal, Htx, !zip_to_map_no_results.
    assert (alert_for state ∅ ∅ cy (k, i)
            = Some (mkAlert (now cy) (block_number cy) (lower k) (label_of i)
                      (PyFloat.round6 (PrimFloat.sub 0%float (balance p)))
                      (0 - tx_count p) 0%float
                      (if PrimFloat.ltb 10%float
                            (PrimFloat.abs (PrimFloat.sub 0%float (balance p)))
                          || (5 <? 0 - tx_count p)%Z
                       then "high" else "medium"))) as Halert.
    { unfold alert_for, balance_delta, tx_delta. simpl.
      rewrite Hp, !lookup_empty. simpl. rewrite abs_zero_sub, Hmoved. reflexivity. }
    eexists. split.
    + apply list_elem_of_omap. exists (k, i). split; [exact Hk|exact Halert].
    + done.
Qed.

Definition persisted_vault : MonitorState :=
  mkMonitorState (Some {["0xa1" := mkAddressState 2%float 3 "t0" "vault"]}) (Some "t0")
    (Some 99%Z).

Lemma failed_batch_zeroes_snapshots_witness :
  ∃ p, prior (check_addresses two_watched persisted_vault (mkCycle [] [] 0 "t1")).2 "0xa1"
       = Some p ∧ balance p = 0%float ∧ tx_count p = 0%Z.
Proof.
  apply (proj1 (failed_batch_zeroes_snapshots two_watched persisted_vault
                  (mkCycle [] [] 0 "t1") ltac:(discriminate) eq_refl eq_refl)
           "0xA1" (mkWatchInfo (Some "vault"))).
  left.
Defined.

End MonitorCycleFacts.

(* ===================================================================== *)
(** * network_expander.py: what the breadth-first expansion covers *)
(* ===================================================================== *)

Module ExpanderExtras.
Import PyStr NetworkExpander ExpanderFacts.

Lemma sorted_app_const (l n : list Z) (c : Z) :
  StronglySorted Z.le l → (∀ x, x ∈ l → (x ≤ c)%Z) → (∀ y, y ∈ n → y = c) →
  StronglySorted Z.le (l ++ n).
Proof.
  intros Hs Hl Hn. induction l as [|x l IH]; simpl.
  - clear Hl Hs. induction n as [|y n IHn]; constructor.
    + apply IHn. intros z Hz. apply Hn. now right.
    + apply Forall_forall. intros z Hz.
      rewrite (Hn y) by left. rewrite (Hn z) by now right. lia.
  - apply StronglySorted_inv in Hs as [Hs Hx]. constructor.
    + apply IH; [exact Hs|]. intros z Hz. apply Hl. now right.
    + apply Forall_app. split; [exact Hx|].
      apply Forall_forall. intros z Hz. rewrite (Hn z Hz). apply Hl. left.
Qed.

Section Levels.

Variable KNOWN : gmap string string.
Variable api : string → string → Response.
Variable max_depth : Z.
Variable direction : string.
Variable seeds : list string.

Local Abbreviation Inv := (Inv KNOWN api max_depth direction seeds).
Local Abbreviation analyze_address := (analyze_address KNOWN api).
Local Abbreviation next_addrs := (next_addrs direction).
Local Abbreviation bfs_iteration := (bfs_iteration KNOWN api max_depth direction).

(** What the loop over the peers marks: every peer ends up visited or
    reported as a direct touchpoint, and every touchpoint it adds is a
    direct touchpoint of one of these peers. *)
Lemma peers_cover address depth peers st :
  let st' := fold_left (expand_peer KNOWN address depth) peers st in
  (∀ x, x ∈ visited st → x ∈ visited st') ∧
  (∀ t, t ∈ kyc_touchpoints st → t ∈ kyc_touchpoints st') ∧
  (∀ p, p ∈ peers →
        p ∈ visited st' ∨
        ∃ name, KNOWN !! p = Some name ∧
                DirectPeer address name depth p ∈ kyc_touchpoints st') ∧
  (∀ t, t ∈ kyc_touchpoints st' →
        t ∈ kyc_touchpoints st ∨
        ∃ name via, t = DirectPeer address name depth via ∧ via ∈ peers ∧
                    KNOWN !! via = Some name).
Proof.
  revert st. induction peers as [|p peers IH]; intros st; cbn [fold_left].
  - cbv zeta. split; [done|]. split; [done|]. split; [|now left].
    intros p Hp. by apply elem_of_nil in Hp.
  - destruct (IH (expand_peer KNOWN address depth st p)) as (Hv & Ht & Hcover & Hshape).
    cbv zeta in *.
    set (st' := fold_left (expand_peer KNOWN address depth) peers
                  (expand_peer KNOWN address depth st p)) in *.
    unfold expand_peer in Hv, Ht, Hshape.
    destruct (decide (p ∈ visited st)) as [Hp|Hp].
    + split; [exact Hv|]. split; [exact Ht|]. split.
      * intros x Hx. apply elem_of_cons in Hx as [->|Hx]; [left; now apply Hv|].
        now apply Hcover.
      * intros t Hin. destruct (Hshape t Hin) as [?|(name & via & ? & ? & ?)];
          [now left|].
        right. exists name, via. split; [done|]. split; [now right|done].
    + destruct (KNOWN !! p) as [name|] eqn:Hk; simpl in *.
      * split; [exact Hv|]. split; [intros t Hin; apply Ht; set_solver|]. split.
        -- intros x Hx. apply elem_of_cons in Hx as [->|Hx]; [|now apply Hcover].
           right. exists name. split; [done|]. apply Ht. set_solver.
        -- intros t Hin. destruct (Hshape t Hin) as [Hold|(n & via & ? & ? & ?)].
           ++ apply elem_of_app in Hold as [?|Hnew]; [now left|].
              apply list_elem_of_singleton in Hnew. right. exists name, p.
              split; [done|]. split; [left|done].
           ++ right. exists n, via. split; [done|]. split; [now right|done].
      * split; [intros x Hx; apply Hv; set_solver|]. split; [exact Ht|]. split.
        -- intros x Hx. apply elem_of_cons in Hx as [->|Hx]; [|now apply Hcover].
           left. apply Hv. set_solver.
        -- intros t Hin. destruct (Hshape t Hin) as [?|(n & via & ? & ? & ?)];
             [now left|].
           right. exists n, via. split; [done|]. split; [now right|done].
Qed.

(** One iteration, as a whole. *)
Lemma iteration_effect v a d q g t e :
  let an := analyze_address a in
  let st' := bfs_iteration a d (mkState v q g t e) in
  graph st' = <[a := mkNode d an]> g ∧
  stderr st' = e ++ [(d, a)] ∧
  (∃ enq, queue st' = q ++ ((λ p, (p, (d + 1)%Z)) <$> enq) ∧
          visited st' = list_to_set enq ∪ v ∧
          ∀ p, p ∈ enq → (p ∉ v) ∧ KNOWN !! p = None) ∧
  (∀ x, x ∈ t → x ∈ kyc_touchpoints st') ∧
  ((d < max_depth)%Z → ∀ p, p ∈ next_addrs an →
     p ∈ visited st' ∨
     ∃ name, KNOWN !! p = Some name ∧ DirectPeer a name d p ∈ kyc_touchpoints st') ∧
  (∀ x, x ∈ kyc_touchpoints st' →
     x ∈ t ∨
     (x = FlaggedAddress a (exchange_name an) d ∧ is_exchange_deposit an = true) ∨
     ∃ name via, x = DirectPeer a name d via ∧ via ∈ next_addrs an ∧
                 KNOWN !! via = Some name ∧ (d < max_depth)%Z).
Proof.
  intros an st'. subst st'. unfold NetworkExpander.bfs_iteration. fold an. simpl.
  set (t' := if is_exchange_deposit an
             then t ++ [FlaggedAddress a (exchange_name an) d] else t).
  assert (∀ x, x ∈ t → x ∈ t') as Hold.
  { intros x Hx. unfold t'. destruct (is_exchange_deposit an); set_solver. }
  assert (∀ x, x ∈ t' → x ∈ t ∨ (x = FlaggedAddress a (exchange_name an) d ∧
                                  is_exchange_deposit an = true)) as Hnew.
  { intros x Hx. unfold t' in Hx. destruct (is_exchange_deposit an); [|now left].
    apply elem_of_app in Hx as [?|Hx]; [now left|].
    apply list_elem_of_singleton in Hx. now right. }
  destruct (max_depth <=? d)%Z eqn:Hd.
  - apply Z.leb_le in Hd. simpl. split; [done|]. split; [done|]. split.
    { exists []. simpl. rewrite app_nil_r. split; [done|]. split; [set_solver|].
      intros p Hp. by apply elem_of_nil in Hp. }
    split; [exact Hold|]. split; [lia|].
    intros x Hx. destruct (Hnew x Hx); [now left|right; now left].
  - apply Z.leb_gt in Hd.
    match goal with |- context [fold_left ?f ?l ?s] =>
      destruct (expand_peers_effect KNOWN api a d l s) as (enq & direct & E);
      destruct (peers_cover a d l s) as (_ & Ht & Hcover & Hshape) end.
    destruct E as [Eg Es Eq Ev _ _ _ Enew _]. cbv zeta in *. simpl in *.
    split; [exact Eg|]. split; [exact Es|]. split; [exists enq; done|].
    split; [intros x Hx; now apply Ht, Hold|]. split; [intros _; exact Hcover|].
    intros x Hx. destruct (Hshape x Hx) as [Hx'|(name & via & ? & ? & ?)].
    + destruct (Hnew x Hx'); [now left|right; now left].
    + right. right. exists name, via. done.
Qed.

(** What a touchpoint says of the graph. *)
Definition touchpoint_ok (g : gmap string Node) (t : Touchpoint) : Prop :=
  match t with
  | FlaggedAddress a exchange d =>
      g !! a = Some (mkNode d (analyze_address a)) ∧
      is_exchange_deposit (analyze_address a) = true ∧
      exchange = exchange_name (analyze_address a)
  | DirectPeer a name d via =>
      g !! a = Some (mkNode d (analyze_address a)) ∧ (d < max_depth)%Z ∧
      via ∈ next_addrs (analyze_address a) ∧ KNOWN !! via = Some name
  end.

(** The breadth-first order of the queue and what it leaves behind: the
    peers of every expanded node are visited or reported; the queue is
    sorted by depth and at most one level ahead of everything reached so
    far, so that no peer of an expanded node lies more than one level
    below it; every touchpoint names a recorded node. *)
Record Levels (st : State) : Prop := {
  lv_closure : ∀ u nu p, graph st !! u = Some nu → (depth nu < max_depth)%Z →
      p ∈ next_addrs (analysis nu) →
      p ∈ visited st ∨
      ∃ name, KNOWN !! p = Some name ∧
              DirectPeer u name (depth nu) p ∈ kyc_touchpoints st;
  lv_sorted : StronglySorted Z.le (queue st).*2;
  lv_window : ∀ b e a d, (b, e) ∈ history st → (a, d) ∈ queue st → (e ≤ d + 1)%Z;
  lv_edges : ∀ u nu p e, graph st !! u = Some nu → (depth nu < max_depth)%Z →
      p ∈ next_addrs (analysis nu) → (p, e) ∈ history st → (e ≤ depth nu + 1)%Z;
  lv_touch : ∀ t, t ∈ kyc_touchpoints st → touchpoint_ok (graph st) t
}.

Lemma levels_init : Levels (bfs_init seeds).
Proof.
  rewrite (bfs_init_eq api seeds). split; simpl.
  - intros u nu p Hu. by rewrite lookup_empty in Hu.
  - unfold seed_entries. generalize seeds. intros l0.
    induction l0 as [|s l IH]; simpl; constructor; [exact IH|].
    apply Forall_forall. intros z Hz.
    apply list_elem_of_fmap in Hz as ([a d] & -> & Hin).
    apply list_elem_of_fmap in Hin as (s' & [= -> ->] & _). simpl. lia.
  - unfold history. simpl. intros b e a d Hb Ha.
    apply seed_entries_depth in Hb. apply seed_entries_depth in Ha. lia.
  - intros u nu p e Hu. by rewrite lookup_empty in Hu.
  - intros t Ht. by apply elem_of_nil in Ht.
Qed.

Lemma levels_iteration v a d q g t e :
  Inv (mkState v ((a, d) :: q) g t e) →
  Levels (mkState v ((a, d) :: q) g t e) →
  Levels (bfs_iteration a d (mkState v q g t e)).
Proof.
  intros HI [Hclo Hsort Hwin Hedge Htouch]. simpl in *.
  destruct (iteration_effect v a d q g t e)
    as (Eg & Es & (enq & Eq & Ev & Enew) & Ekeep & Ecover & Eshape).
  cbv zeta in *.
  set (st' := bfs_iteration a d (mkState v q g t e)) in *.
  set (an := analyze_address a) in *.
  assert (history st'
          = history (mkState v ((a, d) :: q) g t e) ++ ((λ p, (p, (d + 1)%Z)) <$> enq))
    as Hh.
  { unfold history. rewrite Es, Eq. simpl. rewrite fmap_app, <- !app_assoc. done. }
  assert ((a, d) ∈ history (mkState v ((a, d) :: q) g t e)) as Hhead.
  { unfold history. simpl. apply elem_of_app. right. left. }
  assert (∀ b n, g !! b = Some n → (<[a := mkNode d an]> g) !! b = Some n) as Hgrow.
  { intros b n Hb. destruct (decide (a = b)) as [->|Hne].
    - rewrite (retaken_node_same _ _ _ _ _ _ _ _ _ _ _ _ _ HI Hb).
      apply lookup_insert_eq.
    - now rewrite lookup_insert_ne. }
  apply StronglySorted_inv in Hsort as [Hsort Hfirst].
  rewrite Forall_forall in Hfirst.
  assert (∀ a2 d2, (a2, d2) ∈ queue st' → (d ≤ d2)%Z) as Hnext.
  { intros a2 d2. rewrite Eq. intros Hin. apply elem_of_app in Hin as [Hin|Hin].
    - apply Hfirst. apply list_elem_of_fmap. exists (a2, d2). done.
    - apply list_elem_of_fmap in Hin as (p & [= -> ->] & _). lia. }
  assert (∀ b e', (b, e') ∈ history st' → (e' ≤ d + 1)%Z) as Hreach.
  { intros b e'. rewrite Hh. intros Hin. apply elem_of_app in Hin as [Hin|Hin].
    - apply (Hwin b e' a d Hin). left.
    - apply list_elem_of_fmap in Hin as (p & [= -> ->] & _). lia. }
  split.
  - intros u nu p. rewrite Eg, lookup_insert. case_decide as Hau.
    + subst u. intros [= <-]. simpl. intros Hd Hp. now apply Ecover.
    + intros Hu Hd Hp. destruct (Hclo u nu p Hu Hd Hp) as [Hv|(name & Hk & Ht)].
      * left. rewrite Ev. set_solver.
      * right. exists name. split; [done|]. now apply Ekeep.
  - rewrite Eq, fmap_app. apply (sorted_app_const _ _ (d + 1)%Z); [exact Hsort| |].
    + intros x Hx. apply list_elem_of_fmap in Hx as ([b e'] & -> & Hin). simpl.
      apply (Hwin b e' a d); [|left].
      unfold history. simpl. apply elem_of_app. right. now right.
    + intros y Hy. apply list_elem_of_fmap in Hy as ([b e'] & -> & Hin).
      apply list_elem_of_fmap in Hin as (p & [= -> ->] & _). done.
  - intros b e' a2 d2 Hb Ha2. pose proof (Hreach b e' Hb). pose proof (Hnext a2 d2 Ha2).
    lia.
  - intros u nu p e'. rewrite Eg, lookup_insert. case_decide as Hau.
    + subst u. intros [= <-]. simpl. intros _ _ Hin. exact (Hreach p e' Hin).
    + intros Hu Hd Hp. rewrite Hh. intros Hin. apply elem_of_app in Hin as [Hin|Hin].
      * exact (Hedge u nu p e' Hu Hd Hp Hin).
      * exfalso. apply list_elem_of_fmap in Hin as (p' & [= -> ->] & Hin).
        destruct (Enew p' Hin) as [Hnv Hnk].
        destruct (Hclo u nu p' Hu Hd Hp) as [Hv|(name & Hk & _)]; [done|congruence].
  - intros x Hx. rewrite Eg.
    assert (∀ y, touchpoint_ok g y → touchpoint_ok (<[a := mkNode d an]> g) y) as Hmono.
    { intros [b ex db|b name db via]; simpl.
      - intros (Hb & Hrest). split; [now apply Hgrow|exact Hrest].
      - intros (Hb & Hrest). split; [now apply Hgrow|exact Hrest]. }
    destruct (Eshape x Hx) as [Hold|[[-> Hflag]|(name & via & -> & Hvia & Hk & Hd)]].
    + apply Hmono. now apply Htouch.
    + simpl. fold an. split; [apply lookup_insert_eq|done].
    + simpl. fold an. split; [apply lookup_insert_eq|done].
Qed.

Lemma bfs_loop_levels fuel st st' :
  bfs_loop KNOWN api max_depth direction fuel st = Some st' →
  Inv st → Levels st → Levels st'.
Proof.
  revert st. induction fuel as [|fuel IH]; intros [v q g t e] Hrun HI HL;
    simpl in Hrun.
  - destruct q as [|[a d] q]; [|discriminate]. injection Hrun as <-. done.
  - destruct q as [|[a d] q]; [injection Hrun as <-; done|].
    apply (IH _ Hrun); [now apply inv_iteration|now apply levels_iteration].
Qed.

(** The loop returns with both invariants. *)
Lemma bfs_run_levels :
  ∃ st, bfs_run KNOWN api max_depth direction seeds = Some st ∧
        Inv st ∧ Levels st ∧ queue st = [].
Proof.
  destruct (bfs_run_returns KNOWN api max_depth direction seeds) as (st & Hrun & HI & Hq).
  exists st. split; [exact Hrun|]. split; [exact HI|]. split; [|exact Hq].
  unfold bfs_run in Hrun.
  exact (bfs_loop_levels _ _ _ Hrun (inv_init _ _ _ _ _) levels_init).
Qed.

End Levels.

Lemma truthy_nonempty s : truthy s = true ↔ s ≠ "".
Proof. destruct s; simpl; split; intros H; try done. Qed.

(** The two sets after the loop over [txs]. *)
Lemma connect_fold address txs (acc : gset string * gset string) :
  let r := fold_left (connect_step address) txs acc in
  (∀ p, p ∈ r.1 ↔
        p ∈ acc.1 ∨ (p ≠ "" ∧ p ≠ address ∧ ∃ tx, tx ∈ txs ∧ lower (tx_from tx) = p)) ∧
  (∀ p, p ∈ r.2 ↔
        p ∈ acc.2 ∨ (p ≠ "" ∧ p ≠ address ∧ ∃ tx, tx ∈ txs ∧ lower (tx_to tx) = p)).
Proof.
  revert acc. induction txs as [|tx txs IH]; intros [cin cout]; cbn [fold_left].
  - cbv zeta. simpl. split; intros p; split; try tauto;
      intros [?|(_ & _ & tx & Htx & _)]; try done; by apply elem_of_nil in Htx.
  - destruct (IH (connect_step address (cin, cout) tx)) as [Hin Hout]. cbv zeta in *.
    unfold connect_step in Hin, Hout. simpl in Hin, Hout. split; intros p; simpl.
    + rewrite Hin. clear Hin Hout.
      destruct (truthy (lower (tx_from tx))) eqn:Ht;
        [destruct (String.eqb (lower (tx_from tx)) address) eqn:He|]; simpl.
      * apply String.eqb_eq in He. split.
        -- intros [?|(? & ? & tx' & ? & ?)]; [now left|].
           right. split; [done|]. split; [done|]. exists tx'. split; [now right|done].
        -- intros [?|(Hp & Hn & tx' & Htx' & Hfrom)]; [now left|].
           apply elem_of_cons in Htx' as [->|Htx']; [congruence|].
           right. eauto.
      * apply String.eqb_neq in He. apply truthy_nonempty in Ht.
        rewrite elem_of_union, elem_of_singleton. split.
        -- intros [[->|?]|(? & ? & tx' & ? & ?)]; [|now left|].
           ++ right. split; [done|]. split; [done|]. exists tx. split; [left|done].
           ++ right. split; [done|]. split; [done|]. exists tx'. split; [now right|done].
        -- intros [?|(Hp & Hn & tx' & Htx' & Hfrom)]; [left; now right|].
           apply elem_of_cons in Htx' as [->|Htx']; [left; now left|].
           right. eauto.
      * assert (lower (tx_from tx) = "") as He by (destruct (lower (tx_from tx)); done).
        split.
        -- intros [?|(? & ? & tx' & ? & ?)]; [now left|].
           right. split; [done|]. split; [done|]. exists tx'. split; [now right|done].
        -- intros [?|(Hp & Hn & tx' & Htx' & Hfrom)]; [now left|].
           apply elem_of_cons in Htx' as [->|Htx']; [congruence|].
           right. eauto.
    + rewrite Hout. clear Hin Hout.
      destruct (truthy (lower (tx_to tx))) eqn:Ht;
        [destruct (String.eqb (lower (tx_to tx)) address) eqn:He|]; simpl.
      * apply String.eqb_eq in He. split.
        -- intros [?|(? & ? & tx' & ? & ?)]; [now left|].
           right. split; [done|]. split; [done|]. exists tx'. split; [now right|done].
        -- intros [?|(Hp & Hn & tx' & Htx' & Hto)]; [now left|].
           apply elem_of_cons in Htx' as [->|Htx']; [congruence|].
           right. eauto.
      * apply String.eqb_neq in He. apply truthy_nonempty in Ht.
        rewrite elem_of_union, elem_of_singleton. split.
        -- intros [[->|?]|(? & ? & tx' & ? & ?)]; [|now left|].
           ++ right. split; [done|]. split; [done|]. exists tx. split; [left|done].
           ++ right. split; [done|]. split; [done|]. exists tx'. split; [now right|done].
        -- intros [?|(Hp & Hn & tx' & Htx' & Hto)]; [left; now right|].
           apply elem_of_cons in Htx' as [->|Htx']; [left; now left|].
           right. eauto.
      * assert (lower (tx_to tx) = "") as He by (destruct (lower (tx_to tx)); done).
        split.
        -- intros [?|(? & ? & tx' & ? & ?)]; [now left|].
           right. split; [done|]. split; [done|]. exists tx'. split; [now right|done].
        -- intros [?|(Hp & Hn & tx' & Htx' & Hto)]; [now left|].
           apply elem_of_cons in Htx' as [->|Htx']; [congruence|].
           right. eauto.
Qed.

Lemma get_transactions_lower api a tx_type :
  get_transactions api (lower a) tx_type = get_transactions api a tx_type.
Proof. unfold get_transactions. now rewrite lower_idem. Qed.

(** The fields of an analysis, over the transactions fetched. *)
Lemma analyze_address_fields KNOWN api a :
  let normal := get_transactions api a "normal" in
  let erc20 := get_transactions api a "erc20" in
  let sets := fold_left (connect_step (lower a)) erc20
                (fold_left (connect_step (lower a)) normal (∅, ∅)) in
  connected_in (analyze_address KNOWN api a) = elements sets.1 ∧
  connected_out (analyze_address KNOWN api a) = elements sets.2 ∧
  tx_count (analyze_address KNOWN api a) = length normal + length erc20 ∧
  address (analyze_address KNOWN api a) = lower a.
Proof.
  intros normal erc20 sets. subst normal erc20 sets. unfold analyze_address.
  rewrite !get_transactions_lower.
  destruct (is_exchange_deposit_pattern _ _ _) as [is_deposit name].
  destruct (fold_left _ _ _) as [cin cout]. done.
Qed.

(** Every peer that [analyze_address] reports is in lower case. *)
Lemma next_addrs_lower KNOWN api direction a p :
  p ∈ next_addrs direction (analyze_address KNOWN api a) → lower p = p.
Proof.
  unfold next_addrs. intros Hp.
  destruct (analyze_address_fields KNOWN api a) as (Hin & Hout & _). cbv zeta in *.
  destruct (connect_fold (lower a) (get_transactions api a "erc20")
              (fold_left (connect_step (lower a)) (get_transactions api a "normal") (∅, ∅)))
    as [Hin2 Hout2].
  destruct (connect_fold (lower a) (get_transactions api a "normal") (∅, ∅))
    as [Hin1 Hout1].
  cbv zeta in *. rewrite Hin, Hout in Hp.
  apply elem_of_app in Hp as [Hp|Hp];
    (destruct (_ || _); [|by apply elem_of_nil in Hp]);
    apply elem_of_elements in Hp.
  - apply Hin2 in Hp as [Hp|(_ & _ & tx & _ & <-)]; [|apply lower_idem].
    apply Hin1 in Hp as [Hp|(_ & _ & tx & _ & <-)]; [|apply lower_idem].
    by apply elem_of_empty in Hp.
  - apply Hout2 in Hp as [Hp|(_ & _ & tx & _ & <-)]; [|apply lower_idem].
    apply Hout1 in Hp as [Hp|(_ & _ & tx & _ & <-)]; [|apply lower_idem].
    by apply elem_of_empty in Hp.
Qed.

(** X8 [analyze_address]: the peers it reports are exactly the lower-cased
    counterparties of the transactions fetched (normal and ERC-20 together):
    connected_in holds the senders, connected_out the recipients, never the
    empty string and never the analysed address itself; tx_count counts both
    lists and the address is reported in lower case. *)
Theorem analyze_address_peers (KNOWN : gmap string string)
    (api : string → string → Response) (a p : string) :
  let an := analyze_address KNOWN api a in
  let txs := get_transactions api a "normal" ++ get_transactions api a "erc20" in
  (p ∈ connected_in an ↔
     p ≠ "" ∧ p ≠ lower a ∧ ∃ tx, tx ∈ txs ∧ lower (tx_from tx) = p) ∧
  (p ∈ connected_out an ↔
     p ≠ "" ∧ p ≠ lower a ∧ ∃ tx, tx ∈ txs ∧ lower (tx_to tx) = p) ∧
  tx_count an = length txs ∧
  address an = lower a.
Proof.
  intros an txs. subst an txs.
  destruct (analyze_address_fields KNOWN api a) as (-> & -> & -> & ->). cbv zeta.
  set (normal := get_transactions api a "normal").
  set (erc20 := get_transactions api a "erc20").
  destruct (connect_fold (lower a) normal (∅, ∅)) as [Hin1 Hout1].
  destruct (connect_fold (lower a) erc20
              (fold_left (connect_step (lower a)) normal (∅, ∅))) as [Hin2 Hout2].
  cbv zeta in *.
  rewrite !elem_of_elements, Hin2, Hin1, Hout2, Hout1, length_app. simpl.
  split; [|split; [|done]].
  - split.
    + intros [[Hempty|(? & ? & tx & ? & ?)]|(? & ? & tx & ? & ?)];
        [by apply elem_of_empty in Hempty| |];
        (split; [done|]; split; [done|]; exists tx; split; [set_solver|done]).
    + intros (? & ? & tx & Htx & ?). apply elem_of_app in Htx as [?|?];
        [left; right|right]; eauto.
  - split.
    + intros [[Hempty|(? & ? & tx & ? & ?)]|(? & ? & tx & ? & ?)];
        [by apply elem_of_empty in Hempty| |];
        (split; [done|]; split; [done|]; exists tx; split; [set_solver|done]).
    + intros (? & ? & tx & Htx & ?). apply elem_of_app in Htx as [?|?];
        [left; right|right]; eauto.
Qed.

(** X9 [bfs_expand]: it returns, and every node of the returned graph is
    keyed by a lower-case address, holds the analysis of that address under
    the same address, and lies at a depth between 0 and max_depth (0 when
    max_depth is negative). *)
Theorem bfs_expand_nodes_within_depth (KNOWN : gmap string string)
    (api : string → string → Response) (max_depth : Z) (direction : string)
    (seeds : list string) :
  ∃ r, bfs_expand KNOWN api max_depth direction seeds = Some r ∧
       ∀ a n, r_graph r !! a = Some n →
         lower a = a ∧ analysis n = analyze_address KNOWN api a ∧
         address (analysis n) = a ∧
         (0 ≤ depth n ≤ Z.max 0 max_depth)%Z.
Proof.
  destruct (bfs_run_returns KNOWN api max_depth direction seeds) as (st & Hrun & HI & Hq).
  unfold bfs_expand. rewrite Hrun. simpl. eexists. split; [reflexivity|]. simpl.
  intros a n Hn.
  pose proof (node_in_history _ _ _ _ _ _ _ _ HI Hn) as Hh.
  destruct (inv_node _ _ _ _ _ _ HI a n Hn) as [Han _].
  assert (lower a = a ∧ (0 ≤ depth n ≤ Z.max 0 max_depth)%Z) as [Hlow Hd].
  { destruct (decide (a ∈ seedset seeds)) as [Hs|Hs].
    - rewrite (history_seed_depth _ _ _ _ _ _ _ _ HI Hh Hs). split; [|lia].
      apply list_elem_of_fmap in Hs as (s & -> & _). apply lower_idem.
    - destruct (inv_parent _ _ _ _ _ _ HI a (depth n) Hh Hs)
        as (u & nu & Hu & Ha & Hd & Hlt).
      destruct (inv_node _ _ _ _ _ _ HI u nu Hu) as [Hau _]. rewrite Hau in Ha.
      pose proof (inv_depth _ _ _ _ _ _ HI u (depth nu)
                    (node_in_history _ _ _ _ _ _ _ _ HI Hu)).
      split; [exact (next_addrs_lower _ _ _ _ _ Ha)|lia]. }
  split; [exact Hlow|]. split; [exact Han|]. split; [|exact Hd].
  rewrite Han. destruct (analyze_address_fields KNOWN api a) as (_ & _ & _ & ->).
  exact Hlow.
Qed.

(** X10 [bfs_expand]: the expansion is complete below the depth limit.
    Every peer (in the requested direction) of a recorded node whose depth
    is less than max_depth is itself a recorded node, or is an address of
    the hot-wallet table reported as a direct touchpoint of that node. *)
Theorem bfs_expand_covers_peers (KNOWN : gmap string string)
    (api : string → string → Response) (max_depth : Z) (direction : string)
    (seeds : list string) :
  ∃ r, bfs_expand KNOWN api max_depth direction seeds = Some r ∧
       ∀ u nu p, r_graph r !! u = Some nu → (depth nu < max_depth)%Z →
         p ∈ next_addrs direction (analysis nu) →
         is_Some (r_graph r !! p) ∨
         ∃ name, KNOWN !! p = Some name ∧
                 DirectPeer u name (depth nu) p ∈ r_kyc_touchpoints r.
Proof.
  destruct (bfs_run_levels KNOWN api max_depth direction seeds)
    as (st & Hrun & HI & HL & Hq).
  unfold bfs_expand. rewrite Hrun. simpl. eexists. split; [reflexivity|]. simpl.
  intros u nu p Hu Hd Hp.
  destruct (lv_closure _ _ _ _ _ HL u nu p Hu Hd Hp) as [Hv|Hk]; [left|now right].
  apply elem_of_dom. now rewrite (final_dom_visited _ _ _ _ _ _ HI Hq).
Qed.

(** X11 [bfs_expand]: breadth-first order.  A recorded peer of a recorded
    node whose depth is less than max_depth is never more than one level
    deeper than that node: the queue is served in order of depth, so an
    address is recorded at the level it was first reached from. *)
Theorem bfs_expand_peers_one_level_down (KNOWN : gmap string string)
    (api : string → string → Response) (max_depth : Z) (direction : string)
    (seeds : list string) :
  ∃ r, bfs_expand KNOWN api max_depth direction seeds = Some r ∧
       ∀ u nu p np, r_graph r !! u = Some nu → (depth nu < max_depth)%Z →
         p ∈ next_addrs direction (analysis nu) → r_graph r !! p = Some np →
         (depth np ≤ depth nu + 1)%Z.
Proof.
  destruct (bfs_run_levels KNOWN api max_depth direction seeds)
    as (st & Hrun & HI & HL & Hq).
  unfold bfs_expand. rewrite Hrun. simpl. eexists. split; [reflexivity|]. simpl.
  intros u nu p np Hu Hd Hp Hnp.
  apply (lv_edges _ _ _ _ _ HL u nu p (depth np) Hu Hd Hp).
  exact (node_in_history _ _ _ _ _ _ _ _ HI Hnp).
Qed.

(** X12 [bfs_expand]: every touchpoint reported names a recorded node.  A
    touchpoint of a flagged address carries the depth of its node and the
    exchange name of its analysis; a direct touchpoint is reported by a
    recorded node whose depth is less than max_depth, for one of its peers,
    with the label the hot-wallet table gives that peer. *)
Theorem bfs_expand_touchpoints_sound (KNOWN : gmap string string)
    (api : string → string → Response) (max_depth : Z) (direction : string)
    (seeds : list string) :
  ∃ r, bfs_expand KNOWN api max_depth direction seeds = Some r ∧
       ∀ t, t ∈ r_kyc_touchpoints r →
         match t with
         | FlaggedAddress a exchange d =>
             ∃ n, r_graph r !! a = Some n ∧ depth n = d ∧
                  is_exchange_deposit (analysis n) = true ∧
                  exchange = exchange_name (analysis n)
         | DirectPeer a name d via =>
             ∃ n, r_graph r !! a = Some n ∧ depth n = d ∧ (d < max_depth)%Z ∧
                  via ∈ next_addrs direction (analysis n) ∧
                  KNOWN !! via = Some name
         end.
Proof.
  destruct (bfs_run_levels KNOWN api max_depth direction seeds)
    as (st & Hrun & HI & HL & Hq).
  unfold bfs_expand. rewrite Hrun. simpl. eexists. split; [reflexivity|]. simpl.
  intros t Ht. pose proof (lv_touch _ _ _ _ _ HL t Ht) as Hok.
  destruct t as [a ex d|a name d via]; simpl in Hok.
  - destruct Hok as (Ha & Hf & He). eexists. split; [exact Ha|]. done.
  - destruct Hok as (Ha & Hd & Hv & Hk). eexists. split; [exact Ha|]. done.
Qed.

(** X13 [bfs_expand]: a direction other than "in", "out" and "both" follows
    no peer at all: the returned graph holds the lower-cased seeds and
    nothing else, each at depth 0, whatever max_depth is. *)
Theorem bfs_expand_unknown_direction (KNOWN : gmap string string)
    (api : string → string → Response) (max_depth : Z) (direction : string)
    (seeds : list string) :
  direction ≠ "in" → direction ≠ "out" → direction ≠ "both" →
  ∃ r, bfs_expand KNOWN api max_depth direction seeds = Some r ∧
       dom (r_graph r) = list_to_set (lower <$> seeds) ∧
       total_addresses_discovered r = size (dom (r_graph r)) ∧
       ∀ a n, r_graph r !! a = Some n → depth n = 0%Z.
Proof.
  intros Hin Hout Hboth.
  destruct (bfs_run_returns KNOWN api max_depth direction seeds) as (st & Hrun & HI & Hq).
  unfold bfs_expand. rewrite Hrun. simpl. eexists. split; [reflexivity|]. simpl.
  assert (∀ an, next_addrs direction an = []) as Hnone.
  { intros an. unfold next_addrs.
    apply String.eqb_neq in Hin, Hout, Hboth. now rewrite Hin, Hout, Hboth. }
  assert (∀ a d, (a, d) ∈ history st → a ∈ seedset seeds) as Hseed.
  { intros a d Hh. destruct (decide (a ∈ seedset seeds)) as [Hs|Hs]; [done|].
    destruct (inv_parent _ _ _ _ _ _ HI a d Hh Hs) as (u & nu & _ & Ha & _).
    rewrite Hnone in Ha. by apply elem_of_nil in Ha. }
  pose proof (final_dom_visited _ _ _ _ _ _ HI Hq) as Hdom.
  split; [|split].
  - rewrite Hdom, (inv_visited _ _ _ _ _ _ HI).
    destruct (inv_hist _ _ _ _ _ _ HI) as (disc & Hh & _ & _).
    apply set_eq. intros a. rewrite !elem_of_list_to_set. split.
    + intros Ha. apply list_elem_of_fmap in Ha as ([a' d] & -> & Ha).
      exact (Hseed _ _ Ha).
    + intros Ha. rewrite Hh, fmap_app, seed_entries_fst. apply elem_of_app. now left.
  - now rewrite Hdom.
  - intros a n Hn. pose proof (node_in_history _ _ _ _ _ _ _ _ HI Hn) as Hh.
    exact (history_seed_depth _ _ _ _ _ _ _ _ HI Hh (Hseed _ _ Hh)).
Qed.

Lemma bfs_expand_unknown_direction_witness :
  ∃ r, bfs_expand ∅ (λ _ _, Answer "1" [mkTx "0xa1" "0xb2"]) 3 "OUT" ["0xA1"] = Some r ∧
       dom (r_graph r) = list_to_set (lower <$> ["0xA1"]) ∧
       total_addresses_discovered r = size (dom (r_graph r)) ∧
       ∀ a n, r_graph r !! a = Some n → depth n = 0%Z.
Proof. apply bfs_expand_unknown_direction; discriminate. Defined.

(** [v] is reached in [k] steps: from a recorded seed, along [k] recorded
    nodes that each list the next among their peers in the requested
    direction. *)
Inductive reach (direction : string) (seeds : list string) (g : gmap string Node)
  : string → nat → Prop :=
| reach_seed a n :
    g !! a = Some n → a ∈ lower <$> seeds → reach direction seeds g a 0
| reach_step u nu v k :
    reach direction seeds g u k → g !! u = Some nu →
    v ∈ next_addrs direction (analysis nu) → is_Some (g !! v) →
    reach direction seeds g v (S k).

(** X25 [bfs_expand]: the depth recorded for a node is its distance from
    the seeds in the returned graph.  The node is reached from a seed in
    exactly depth steps along recorded nodes, and in no fewer. *)
Theorem bfs_expand_depth_is_distance (KNOWN : gmap string string)
    (api : string → string → Response) (max_depth : Z) (direction : string)
    (seeds : list string) :
  ∃ r, bfs_expand KNOWN api max_depth direction seeds = Some r ∧
       ∀ v n, r_graph r !! v = Some n →
         (0 ≤ depth n)%Z ∧
         reach direction seeds (r_graph r) v (Z.to_nat (depth n)) ∧
         ∀ k, reach direction seeds (r_graph r) v k → Z.to_nat (depth n) ≤ k.
Proof.
  destruct (bfs_run_levels KNOWN api max_depth direction seeds)
    as (st & Hrun & HI & HL & Hq).
  unfold bfs_expand. rewrite Hrun. simpl. eexists. split; [reflexivity|]. simpl.
  assert (∀ v n, graph st !! v = Some n → (0 ≤ depth n)%Z) as Hpos.
  { intros v n Hn.
    exact (inv_depth _ _ _ _ _ _ HI v (depth n) (node_in_history _ _ _ _ _ _ _ _ HI Hn)). }
  assert (∀ v n, graph st !! v = Some n → (depth n ≤ Z.max 0 max_depth)%Z) as Hmax.
  { intros v n Hn.
    destruct (node_depth_parent _ _ _ _ _ _ _ _ HI Hn) as [[_ ->]|[Hs _]]; [lia|].
    destruct (inv_parent _ _ _ _ _ _ HI v (depth n)
                (node_in_history _ _ _ _ _ _ _ _ HI Hn) Hs) as (u & nu & _ & _ & -> & Hlt).
    lia. }
  assert (∀ m v n, graph st !! v = Some n → Z.to_nat (depth n) = m →
                   reach direction seeds (graph st) v m) as Hreach.
  { induction m as [|m IH]; intros v n Hn Hm; pose proof (Hpos v n Hn) as Hv.
    - destruct (node_depth_parent _ _ _ _ _ _ _ _ HI Hn)
        as [[Hs _]|[_ (u & nu & Hu & _ & Hd)]].
      + exact (reach_seed _ _ _ v n Hn Hs).
      + pose proof (Hpos u nu Hu). lia.
    - destruct (node_depth_parent _ _ _ _ _ _ _ _ HI Hn)
        as [[_ Hd]|[_ (u & nu & Hu & Hv' & Hd)]]; [lia|].
      pose proof (Hpos u nu Hu).
      apply (reach_step _ _ _ u nu v m); [|exact Hu|exact Hv'|by eexists].
      apply (IH u nu Hu). lia. }
  assert (∀ v k, reach direction seeds (graph st) v k →
                 ∀ n, graph st !! v = Some n → (depth n ≤ Z.of_nat k)%Z) as Hshort.
  { induction 1 as [a na Ha Hs|u nu v k _ IH Hu Hv _]; intros n Hn.
    - rewrite (history_seed_depth _ _ _ _ _ _ _ _ HI
                 (node_in_history _ _ _ _ _ _ _ _ HI Hn) Hs). lia.
    - pose proof (IH nu Hu) as Hku. pose proof (Hpos u nu Hu).
      destruct (decide (depth nu < max_depth)%Z) as [Hlt|Hge].
      + pose proof (lv_edges _ _ _ _ _ HL u nu v (depth n) Hu Hlt Hv
                      (node_in_history _ _ _ _ _ _ _ _ HI Hn)). lia.
      + pose proof (Hmax v n Hn). lia. }
  intros v n Hn. split; [exact (Hpos v n Hn)|]. split; [exact (Hreach _ v n Hn eq_refl)|].
  intros k Hk. pose proof (Hshort v k Hk n Hn). pose proof (Hpos v n Hn). lia.
Qed.

End ExpanderExtras.

(* ===================================================================== *)
(** * tools/multi_hop_tracer_v2.py: paths, edges and totals of a trace *)
(* ===================================================================== *)

Module TracerExtras.
Import PyStr MultiHopTracerV2 TracerFacts.

(** [total += value], transfer after transfer, from zero. *)
Definition float_sum (l : list float) : float := fold_left PrimFloat.add l 0%float.

Lemma float_sum_snoc l x : float_sum (l ++ [x]) = PrimFloat.add (float_sum l) x.
Proof. unfold float_sum. now rewrite fold_left_app. Qed.

Lemma float_sum_fmap_snoc {A} (f : A → float) l x :
  float_sum (f <$> (l ++ [x])) = PrimFloat.add (float_sum (f <$> l)) (f x).
Proof. rewrite fmap_app. apply float_sum_snoc. Qed.

(** A recorded edge leads from [x] to [y]; a path follows recorded edges. *)
Definition linked (es : list Edge) (x y : string) : Prop :=
  ∃ e, e ∈ es ∧ e_from e = x ∧ e_to e = y.

Definition chain (es : list Edge) (p : list string) : Prop :=
  ∀ i x y, p !! i = Some x → p !! S i = Some y → linked es x y.

Lemma chain_mono es es' p : (∀ e, e ∈ es → e ∈ es') → chain es p → chain es' p.
Proof.
  intros Hsub Hc i x y Hx Hy. destruct (Hc i x y Hx Hy) as (e & He & Hxy).
  exists e. split; [now apply Hsub|exact Hxy].
Qed.

Lemma chain_snoc es p a b :
  last p = Some a → chain es p → linked es a b → chain es (p ++ [b]).
Proof.
  intros Hlast Hc Hab i x y Hx Hy.
  destruct (decide (S i < length p)) as [Hlt|Hge].
  - rewrite lookup_app_l in Hx by lia. rewrite lookup_app_l in Hy by lia.
    exact (Hc i x y Hx Hy).
  - pose proof (lookup_lt_Some _ _ _ Hy) as Hlen. rewrite length_app in Hlen.
    simpl in Hlen. assert (S i = length p) as Hi by lia.
    rewrite lookup_app_r in Hy by lia. rewrite Hi, Nat.sub_diag in Hy.
    injection Hy as <-.
    rewrite lookup_app_l in Hx by lia. rewrite last_lookup in Hlast.
    replace (pred (length p)) with i in Hlast by lia.
    rewrite Hx in Hlast. injection Hlast as ->. exact Hab.
Qed.

Section Ledger.

Variable KNOWN : gmap string string.
Variable address_api : string → option (option string).
Variable transactions_api : string → option (list Item).
Variable depth : Z.
Variable min_eth : float.
Variable verbose : bool.
Variable start_addr : string.

Local Abbreviation trace_edge := (trace_edge KNOWN depth).
Local Abbreviation trace_iteration :=
  (trace_iteration KNOWN address_api transactions_api depth min_eth verbose).
Local Abbreviation get_outgoing_transactions :=
  (get_outgoing_transactions address_api transactions_api).

(** The path kept with an address reached at hop [d]. *)
Definition good_path (es : list Edge) (a : string) (d : Z) (p : list string) : Prop :=
  hd_error p = Some start_addr ∧ last p = Some a ∧
  Z.of_nat (length p) = (d + 1)%Z ∧ chain es p.

Definition good_endpoint (es : list Edge) (ep : Endpoint) : Prop :=
  hd_error (ep_path ep) = Some start_addr ∧
  last (ep_path ep) = Some (ep_address ep) ∧
  (2 ≤ Z.of_nat (length (ep_path ep)) ≤ depth + 1)%Z ∧
  chain es (ep_path ep) ∧
  (∃ e, e ∈ es ∧ e_to e = ep_address ep ∧ e_eth e = ep_eth ep) ∧
  (ep_type ep = "mixer" ∨ ep_type ep = "exchange").

(** The transfer an outgoing entry or an edge was read from. *)
Definition transfer_of (from to : string) (eth : float) (hash : string) : Prop :=
  PrimFloat.leb min_eth eth = true ∧
  ∃ tx, tx ∈ get_outgoing_transactions from ∧ item_to tx = Some to ∧
        eth = PyFloat.wei_to_eth (item_value tx) ∧ hash = item_hash tx.

Definition good_edge (vis : gset string) (e : Edge) : Prop :=
  lower (e_from e) ∈ vis ∧ transfer_of (e_from e) (e_to e) (e_eth e) (e_hash e).

Definition unlabelled (e : Edge) : Prop := known_label KNOWN (lower (e_to e)) = None.

Record Ledger (st : TraceState) : Prop := {
  lg_queue : ∀ a d p, (a, d, p) ∈ queue st → good_path (edges (graph st)) a d p;
  lg_endpoints : ∀ ep, ep ∈ endpoints (graph st) → good_endpoint (edges (graph st)) ep;
  lg_edges : ∀ e, e ∈ edges (graph st) → good_edge (visited st) e;
  lg_traced : addresses_traced (totals (graph st)) = Z.of_nat (size (visited st));
  lg_total : total_eth_tracked (totals (graph st))
             = float_sum (e_eth <$> edges (graph st));
  lg_mixers : eth_to_mixers (totals (graph st))
              = float_sum (ep_eth <$> filter (λ ep, ep_type ep = "mixer")
                                        (endpoints (graph st)));
  lg_exchanges : eth_to_exchanges (totals (graph st))
                 = float_sum (ep_eth <$> filter (λ ep, ep_type ep = "exchange")
                                           (endpoints (graph st)));
  lg_unknown : eth_to_unknown (totals (graph st))
               = float_sum (e_eth <$> filter unlabelled (edges (graph st)))
}.

Lemma filter_outgoing_source txs (o : Outgoing) :
  o ∈ filter_outgoing min_eth txs →
  PrimFloat.leb min_eth (o_eth o) = true ∧
  ∃ tx, tx ∈ txs ∧ item_to tx = Some (o_to o) ∧
        o_eth o = PyFloat.wei_to_eth (item_value tx) ∧ o_hash o = item_hash tx.
Proof.
  unfold filter_outgoing.
  assert (∀ acc, o ∈ fold_left
            (λ outgoing tx,
               let value := PyFloat.wei_to_eth (item_value tx) in
               if PrimFloat.leb min_eth value then
                 match item_to tx with
                 | Some to_addr =>
                     outgoing ++ [mkOutgoing to_addr value (item_hash tx)
                                    (item_timestamp tx)]
                 | None => outgoing
                 end
               else outgoing) txs acc →
          o ∈ acc ∨
          (PrimFloat.leb min_eth (o_eth o) = true ∧
           ∃ tx, tx ∈ txs ∧ item_to tx = Some (o_to o) ∧
                 o_eth o = PyFloat.wei_to_eth (item_value tx) ∧
                 o_hash o = item_hash tx)) as Hgen.
  { induction txs as [|tx txs IH]; intros acc; simpl; [now left|].
    intros Hin. destruct (IH _ Hin) as [Hacc|(Hle & tx' & Htx' & Hrest)].
    - destruct (PrimFloat.leb min_eth (PyFloat.wei_to_eth (item_value tx))) eqn:Hle;
        [|now left].
      destruct (item_to tx) as [to_addr|] eqn:Hto; [|now left].
      apply elem_of_app in Hacc as [?|Hnew]; [now left|].
      apply list_elem_of_singleton in Hnew. subst o. simpl. right.
      split; [exact Hle|]. exists tx. split; [left|done].
    - right. split; [exact Hle|]. exists tx'. split; [now right|exact Hrest]. }
  intros Hin. destruct (Hgen [] Hin) as [Hnil|?]; [by apply elem_of_nil in Hnil|done].
Qed.

Lemma filter_snoc {A} (P : A → Prop) `{∀ x, Decision (P x)} (l : list A) x :
  filter P (l ++ [x]) = if decide (P x) then filter P l ++ [x] else filter P l.
Proof.
  rewrite filter_app. destruct (decide (P x)).
  - now rewrite filter_cons_True.
  - rewrite filter_cons_False by done. apply app_nil_r.
Qed.

Lemma good_endpoint_mono es es' ep :
  (∀ e, e ∈ es → e ∈ es') → good_endpoint es ep → good_endpoint es' ep.
Proof.
  intros Hsub (Hh & Hl & Hlen & Hc & (e & He & Hrest) & Hty).
  split; [done|]. split; [done|]. split; [done|].
  split; [exact (chain_mono _ _ _ Hsub Hc)|]. split; [|done].
  exists e. split; [now apply Hsub|done].
Qed.

(** One transfer of the expanded address: the edge is recorded, and the
    target is reported as an endpoint, queued one hop further or dropped. *)
Lemma ledger_edge cur d path st o :
  Ledger st → good_path (edges (graph st)) cur d path → (d < depth)%Z →
  lower cur ∈ visited st → transfer_of cur (o_to o) (o_eth o) (o_hash o) →
  Ledger (trace_edge cur d path st o) ∧
  good_path (edges (graph (trace_edge cur d path st o))) cur d path ∧
  visited (trace_edge cur d path st o) = visited st.
Proof.
  intros [Hq Hep He Htr Htot Hmix Hex Hunk] (Hhd & Hlast & Hlen & Hchain) Hd Hcur Hsrc.
  set (ne := mkEdge cur (o_to o) (o_eth o) (o_hash o)).
  set (es' := edges (graph st) ++ [ne]).
  assert (∀ e, e ∈ edges (graph st) → e ∈ es') as Hsub.
  { intros e Hin. apply elem_of_app. now left. }
  assert (ne ∈ es') as Hne by (apply elem_of_app; right; left).
  assert (good_path es' cur d path) as Hcurpath.
  { split; [done|]. split; [done|]. split; [done|]. exact (chain_mono _ _ _ Hsub Hchain). }
  assert (hd_error (path ++ [o_to o]) = Some start_addr) as Hhd'.
  { destruct path; [discriminate|exact Hhd]. }
  assert (chain es' (path ++ [o_to o])) as Hchain'.
  { apply (chain_snoc _ _ cur); [exact Hlast|exact (chain_mono _ _ _ Hsub Hchain)|].
    exists ne. done. }
  assert (Z.of_nat (length (path ++ [o_to o])) = (d + 1 + 1)%Z) as Hlen'.
  { rewrite length_app. simpl. lia. }
  assert (∀ e, e ∈ es' → good_edge (visited st) e) as He'.
  { intros e Hin. apply elem_of_app in Hin as [Hin|Hin]; [now apply He|].
    apply list_elem_of_singleton in Hin. subst e. split; [exact Hcur|exact Hsrc]. }
  assert (float_sum (e_eth <$> es') = PrimFloat.add (float_sum (e_eth <$> edges (graph st)))
                                        (o_eth o)) as Hsum.
  { unfold es'. now rewrite float_sum_fmap_snoc. }
  assert (∀ label ty, ty = "mixer" ∨ ty = "exchange" →
            good_endpoint es' (mkEndpoint (o_to o) label ty (o_eth o) (path ++ [o_to o])))
    as Hnewep.
  { intros label ty Hty. split; [exact Hhd'|]. simpl. split; [apply last_snoc|].
    assert (1 ≤ length path) by (destruct path; [discriminate|simpl; lia]).
    split; [lia|]. split; [exact Hchain'|]. split; [|exact Hty].
    exists ne. done. }
  assert (∀ ep, ep ∈ endpoints (graph st) → good_endpoint es' ep) as Hep'.
  { intros ep Hin. exact (good_endpoint_mono _ _ _ Hsub (Hep ep Hin)). }
  assert (∀ a' d' p', (a', d', p') ∈ queue st → good_path es' a' d' p') as Hq'.
  { intros a' d' p' Hin. destruct (Hq a' d' p' Hin) as (? & ? & ? & Hc).
    split; [done|]. split; [done|]. split; [done|]. exact (chain_mono _ _ _ Hsub Hc). }
  unfold MultiHopTracerV2.trace_edge. fold ne. fold es'.
  destruct (known_label KNOWN (lower (o_to o))) as [label|] eqn:Hl.
  - assert (filter unlabelled es' = filter unlabelled (edges (graph st))) as Hfil.
    { unfold es'. rewrite filter_snoc. rewrite decide_False; [done|].
      unfold unlabelled. simpl. congruence. }
    destruct (contains "Tornado" label); [|destruct (is_exchange_label label)];
      (split; [|split; [exact Hcurpath|reflexivity]]); split; simpl;
      rewrite ?Hfil, ?Hsum, ?filter_snoc, ?Htot; simpl; try done.
    + intros ep Hin. apply elem_of_app in Hin as [Hin|Hin]; [now apply Hep'|].
      apply list_elem_of_singleton in Hin. subst ep. apply Hnewep. now left.
    + now rewrite float_sum_fmap_snoc, Hmix.
    + intros ep Hin. apply elem_of_app in Hin as [Hin|Hin]; [now apply Hep'|].
      apply list_elem_of_singleton in Hin. subst ep. apply Hnewep. now right.
    + now rewrite float_sum_fmap_snoc, Hex.
  - assert (filter unlabelled es' = filter unlabelled (edges (graph st)) ++ [ne]) as Hfil.
    { unfold es'. rewrite filter_snoc. now rewrite decide_True. }
    split; [|split; [exact Hcurpath|reflexivity]]. split; simpl;
      rewrite ?Hfil, ?Hsum, ?Htot; try done.
    + intros a' d' p' Hin.
      destruct (bool_decide (lower (o_to o) ∉ visited st) && (d + 1 <? depth)%Z);
        [|now apply Hq'].
      apply elem_of_app in Hin as [Hin|Hin]; [now apply Hq'|].
      apply list_elem_of_singleton in Hin. injection Hin as -> -> ->.
      split; [exact Hhd'|]. split; [apply last_snoc|]. split; [exact Hlen'|exact Hchain'].
    + now rewrite float_sum_fmap_snoc, Hunk.
Qed.

Lemma ledger_edges cur d path outgoing st :
  Ledger st → good_path (edges (graph st)) cur d path → (d < depth)%Z →
  lower cur ∈ visited st →
  (∀ o, o ∈ outgoing → transfer_of cur (o_to o) (o_eth o) (o_hash o)) →
  Ledger (fold_left (trace_edge cur d path) outgoing st).
Proof.
  revert st. induction outgoing as [|o outgoing IH]; intros st HL Hp Hd Hcur Hsrc;
    simpl; [exact HL|].
  destruct (ledger_edge cur d path st o HL Hp Hd Hcur) as (HL' & Hp' & Hv');
    [apply Hsrc; left|].
  apply IH; [exact HL'|exact Hp'|exact Hd|now rewrite Hv'|].
  intros o' Ho'. apply Hsrc. now right.
Qed.

Lemma ledger_iteration a d p v q g o :
  Ledger (mkTraceState v ((a, d, p) :: q) g o) →
  Ledger (trace_iteration a d p (mkTraceState v q g o)).
Proof.
  intros [Hq Hep He Htr Htot Hmix Hex Hunk]. simpl in *.
  assert (∀ a' d' p', (a', d', p') ∈ q → good_path (edges g) a' d' p') as Hq'.
  { intros a' d' p' Hin. apply Hq. now right. }
  unfold MultiHopTracerV2.trace_iteration. simpl.
  destruct (bool_decide (lower a ∈ v)) eqn:Hv; simpl; [by split|].
  destruct (depth <=? d)%Z eqn:Hd; simpl; [by split|].
  apply bool_decide_eq_false in Hv. apply Z.leb_gt in Hd.
  match goal with |- context [fold_left ?f ?l ?s] =>
    pose proof (ledger_edges a d p l s) as HL;
    destruct (fold_left f l s) as [v' q' [n' e' ep' t'] o'] end.
  simpl in HL. destruct HL as [Hq2 Hep2 He2 Htr2 Htot2 Hmix2 Hex2 Hunk2].
  - destruct g as [gn ge gep gt]. split; simpl in *; try done.
    + intros e Hin. destruct (He e Hin) as [Hfrom Hsrc].
      split; [set_solver|exact Hsrc].
    + rewrite size_union by set_solver. rewrite size_singleton, Htr. lia.
  - apply Hq. left.
  - exact Hd.
  - set_solver.
  - intros x Hx. now apply filter_outgoing_source.
  - split; simpl in *; done.
Qed.

Lemma ledger_init : Ledger (trace_init start_addr).
Proof.
  split; simpl; try done.
  - intros a d p Hin. apply list_elem_of_singleton in Hin. injection Hin as -> -> ->.
    split; [done|]. split; [done|]. split; [done|].
    intros i x y Hx Hy. destruct i; discriminate.
  - intros ep Hin. by apply elem_of_nil in Hin.
  - intros e Hin. by apply elem_of_nil in Hin.
Qed.

Lemma trace_loop_ledger fuel st st' :
  trace_loop KNOWN address_api transactions_api depth min_eth verbose fuel st = Some st' →
  Ledger st → Ledger st'.
Proof.
  revert st. induction fuel as [|fuel IH]; intros [v q g o] Hrun HL; simpl in Hrun.
  - destruct q as [|[[a d] p] q]; [|discriminate]. now injection Hrun as <-.
  - destruct q as [|[[a d] p] q]; [now injection Hrun as <-|].
    apply (IH _ Hrun). now apply ledger_iteration.
Qed.

(** The loop returns with the ledger in order and as many nodes as visited
    addresses. *)
Lemma trace_run_ledger :
  ∃ st, trace_run KNOWN address_api transactions_api depth min_eth verbose start_addr
        = Some st ∧ Ledger st ∧ dom (nodes (graph st)) = visited st.
Proof.
  destruct (trace_run_returns KNOWN address_api transactions_api depth min_eth verbose
              start_addr) as (st & Hrun & HV & _).
  exists st. split; [exact Hrun|]. split; [|exact (tvis_dom _ _ HV)].
  unfold trace_run in Hrun. exact (trace_loop_ledger _ _ _ Hrun ledger_init).
Qed.

End Ledger.

(** X14 [trace_hops]: the path reported with every endpoint starts at the
    start address, ends at the endpoint, follows recorded edges from one
    entry to the next and has between 2 and depth + 1 entries; the endpoint
    is a mixer or an exchange and the amount reported is that of a recorded
    edge into it. *)
Theorem trace_hops_endpoint_paths (KNOWN : gmap string string)
    (address_api : string → option (option string))
    (transactions_api : string → option (list Item))
    (depth : Z) (min_eth : float) (verbose : bool) (start_addr : string) :
  ∃ g, trace_hops KNOWN address_api transactions_api depth min_eth verbose start_addr
       = Some g ∧
       ∀ ep, ep ∈ endpoints g →
         hd_error (ep_path ep) = Some start_addr ∧
         last (ep_path ep) = Some (ep_address ep) ∧
         (2 ≤ Z.of_nat (length (ep_path ep)) ≤ depth + 1)%Z ∧
         chain (edges g) (ep_path ep) ∧
         (∃ e, e ∈ edges g ∧ e_to e = ep_address ep ∧ e_eth e = ep_eth ep) ∧
         (ep_type ep = "mixer" ∨ ep_type ep = "exchange").
Proof.
  destruct (trace_run_ledger KNOWN address_api transactions_api depth min_eth verbose
              start_addr) as (st & Hrun & HL & _).
  unfold trace_hops. rewrite Hrun. simpl. exists (graph st). split; [done|].
  exact (lg_endpoints _ _ _ _ _ _ _ HL).
Qed.

(** X15 [trace_hops]: every recorded edge is a transfer that was fetched for
    its source address, with a recipient, the amount [value / 1e18] and the
    hash of that transfer; it carries at least min_eth, and its source is a
    recorded node.  No edge is recorded below the threshold. *)
Theorem trace_hops_edges_are_transfers (KNOWN : gmap string string)
    (address_api : string → option (option string))
    (transactions_api : string → option (list Item))
    (depth : Z) (min_eth : float) (verbose : bool) (start_addr : string) :
  ∃ g, trace_hops KNOWN address_api transactions_api depth min_eth verbose start_addr
       = Some g ∧
       ∀ e, e ∈ edges g →
         lower (e_from e) ∈ dom (nodes g) ∧
         PrimFloat.leb min_eth (e_eth e) = true ∧
         ∃ tx, tx ∈ get_outgoing_transactions address_api transactions_api (e_from e) ∧
               item_to tx = Some (e_to e) ∧
               e_eth e = PyFloat.wei_to_eth (item_value tx) ∧
               e_hash e = item_hash tx.
Proof.
  destruct (trace_run_ledger KNOWN address_api transactions_api depth min_eth verbose
              start_addr) as (st & Hrun & HL & Hdom).
  unfold trace_hops. rewrite Hrun. simpl. exists (graph st). split; [done|].
  intros e He. destruct (lg_edges _ _ _ _ _ _ _ HL e He) as (Hfrom & Hle & Htx).
  rewrite Hdom. done.
Qed.

(** X16 [trace_hops]: the totals agree with the rest of the graph.
    addresses_traced is the number of nodes; total_eth_tracked is the sum of
    the edges in the order recorded; eth_to_mixers and eth_to_exchanges are
    the sums of the endpoints of each type, and eth_to_unknown the sum of
    the edges into addresses without a label. *)
Theorem trace_hops_totals_add_up (KNOWN : gmap string string)
    (address_api : string → option (option string))
    (transactions_api : string → option (list Item))
    (depth : Z) (min_eth : float) (verbose : bool) (start_addr : string) :
  ∃ g, trace_hops KNOWN address_api transactions_api depth min_eth verbose start_addr
       = Some g ∧
       addresses_traced (totals g) = Z.of_nat (size (dom (nodes g))) ∧
       total_eth_tracked (totals g) = float_sum (e_eth <$> edges g) ∧
       eth_to_mixers (totals g)
       = float_sum (ep_eth <$> filter (λ ep, ep_type ep = "mixer") (endpoints g)) ∧
       eth_to_exchanges (totals g)
       = float_sum (ep_eth <$> filter (λ ep, ep_type ep = "exchange") (endpoints g)) ∧
       eth_to_unknown (totals g)
       = float_sum (e_eth <$> filter (unlabelled KNOWN) (edges g)).
Proof.
  destruct (trace_run_ledger KNOWN address_api transactions_api depth min_eth verbose
              start_addr) as (st & Hrun & HL & Hdom).
  unfold trace_hops. rewrite Hrun. simpl. exists (graph st). split; [done|].
  destruct HL as [_ _ _ Htr Htot Hmix Hex Hunk]. rewrite Hdom. done.
Qed.

End TracerExtras.

(* ===================================================================== *)
(** * RateLimiter: bursts and the rate under contention *)
(* ===================================================================== *)

Module RateLimiterExtras.
Import RateLimiter.
Local Open Scope Q_scope.

Lemma acquire_sleeps l now :
  topped_up l now < 1 →
  acquire l now = (mkLimiter (rate l) 0 now, (1 - topped_up l now) / rate l).
Proof.
  intros Hlt. unfold acquire. destruct (Qlt_le_dec (topped_up l now) 1); [done|].
  exfalso. lra.
Qed.

Lemma acquire_takes l now :
  1 <= topped_up l now →
  acquire l now = (mkLimiter (rate l) (topped_up l now - 1) now, 0).
Proof.
  intros Hge. unfold acquire. destruct (Qlt_le_dec (topped_up l now) 1); [|done].
  exfalso. lra.
Qed.

Lemma topped_up_cap l now : topped_up l now <= rate l.
Proof. apply Q.le_min_l. Qed.

Lemma topped_up_full l now :
  rate l <= tokens l + (now - last_update l) * rate l → topped_up l now == rate l.
Proof. intros H. unfold topped_up. now apply Q.min_l. Qed.

Lemma topped_up_part l now :
  tokens l + (now - last_update l) * rate l <= rate l →
  topped_up l now == tokens l + (now - last_update l) * rate l.
Proof. intros H. unfold topped_up. now apply Q.min_r. Qed.

Lemma inject_nat_succ n :
  inject_Z (Z.of_nat (S n)) == inject_Z (Z.of_nat n) + 1.
Proof. rewrite Nat2Z.inj_succ. unfold Z.succ. now rewrite inject_Z_plus. Qed.

Lemma inject_nat_nonneg n : 0 <= inject_Z (Z.of_nat n).
Proof. change 0 with (inject_Z 0). rewrite <- Zle_Qle. lia. Qed.

(** With [n] tokens in the bucket, [n] contending callers return at once. *)
Lemma contend_while_tokens n l now :
  inject_Z (Z.of_nat n) <= topped_up l now →
  Forall (λ g, g == now) (contend l now n).
Proof.
  revert l now. induction n as [|n IH]; intros l now Hn; [constructor|].
  rewrite inject_nat_succ in Hn. pose proof (inject_nat_nonneg n) as Hpos.
  cbn [contend]. rewrite acquire_takes by lra.
  constructor; [lra|].
  set (l' := mkLimiter (rate l) (topped_up l now - 1) now).
  assert (inject_Z (Z.of_nat n) <= topped_up l' (now + 0)) as Hn'.
  { pose proof (topped_up_cap l now) as Hcap.
    assert (tokens l' + (now + 0 - last_update l') * rate l' == topped_up l now - 1)
      as Heq by (simpl; ring).
    rewrite topped_up_part; [rewrite Heq; lra|]. rewrite Heq. simpl. lra. }
  eapply Forall_impl; [exact (IH l' (now + 0) Hn')|].
  intros g Hg. simpl in Hg. rewrite Hg. ring.
Qed.

(** X17 [RateLimiter.acquire]: after one idle second the bucket is full, and
    as many contending callers as the rate allows (its integral part) all
    return at once, without sleeping: a burst of the whole rate is let
    through at a single instant. *)
Theorem full_bucket_burst (l : Limiter) (now : Q) (n : nat) :
  0 < rate l → 0 <= tokens l → last_update l + 1 <= now →
  inject_Z (Z.of_nat n) <= rate l →
  Forall (λ g, g == now) (contend l now n).
Proof.
  intros Hrate Htok Hidle Hn. apply contend_while_tokens.
  rewrite topped_up_full; [exact Hn|].
  assert (1 * rate l <= (now - last_update l) * rate l) as Hmul.
  { apply Qmult_le_compat_r; lra. }
  lra.
Qed.

Lemma full_bucket_burst_witness :
  Forall (λ g, g == 3) (contend (mkLimiter 5 0 2) 3 5).
Proof.
  apply full_bucket_burst; vm_compute; first [reflexivity|discriminate].
Defined.

(** Two grants at every multiple of [step] after [now]. *)
Fixpoint two_per_tick (now step : Q) (k : nat) : list Q :=
  match k with
  | O => []
  | S k' => (now + step) :: (now + step) :: two_per_tick (now + step) step k'
  end.

Lemma two_per_tick_shift now now' step k :
  now == now' → Forall2 Qeq (two_per_tick now step k) (two_per_tick now' step k).
Proof.
  revert now now'. induction k as [|k IH]; intros now now' Heq; simpl; [constructor|].
  assert (now + step == now' + step) as Hs by (rewrite Heq; reflexivity).
  constructor; [exact Hs|]. constructor; [exact Hs|]. now apply IH.
Qed.

Lemma Forall2_Qeq_trans (l1 l2 l3 : list Q) :
  Forall2 Qeq l1 l2 → Forall2 Qeq l2 l3 → Forall2 Qeq l1 l3.
Proof.
  intros H12. revert l3. induction H12 as [|x y l1 l2 Hxy _ IH]; intros l3 H23.
  - inversion H23. constructor.
  - inversion H23 as [|y' z l2' l3' Hyz Hrest]; subst.
    constructor; [now rewrite Hxy|now apply IH].
Qed.

Lemma two_per_tick_bound now step k :
  0 <= step →
  Forall (λ g, now <= g ∧ g <= now + inject_Z (Z.of_nat k) * step)
    (two_per_tick now step k).
Proof.
  intros Hstep. revert now. induction k as [|k IH]; intros now; simpl; [constructor|].
  pose proof (inject_nat_succ k) as Hk. pose proof (inject_nat_nonneg k) as Hpos.
  assert (0 <= inject_Z (Z.of_nat k) * step) as Hprod by (apply Qmult_le_0_compat; lra).
  assert (inject_Z (Z.of_nat (S k)) * step == inject_Z (Z.of_nat k) * step + step)
    as Hsucc by (rewrite Hk; ring).
  constructor; [split; lra|]. constructor; [split; lra|].
  eapply Forall_impl; [exact (IH (now + step))|].
  intros g [Hlo Hhi]. simpl in *. split; lra.
Qed.

Lemma Forall2_Qeq_between (a b : Q) (l1 l2 : list Q) :
  Forall2 Qeq l1 l2 → Forall (λ g, a <= g ∧ g <= b) l2 →
  Forall (λ g, a <= g ∧ g <= b) l1.
Proof.
  induction 1 as [|x y l1 l2 Hxy _ IH]; intros Hb; [constructor|].
  apply Forall_cons in Hb as [Hy Hrest].
  constructor; [rewrite Hxy; exact Hy|now apply IH].
Qed.

(** Contention on an empty bucket: every other caller sleeps [1 / rate] and
    the next one is let through as soon as it returns. *)
Lemma contend_two_per_tick k l now :
  1 <= rate l → tokens l == 0 → last_update l == now →
  Forall2 Qeq (contend l now (2 * k)) (two_per_tick now (1 / rate l) k).
Proof.
  revert l now. induction k as [|k IH]; intros l now Hrate Htok Hlast; [constructor|].
  replace (2 * S k)%nat with (S (S (2 * k))) by lia.
  assert (~ rate l == 0) as Hnz by lra.
  assert (tokens l + (now - last_update l) * rate l == 0) as Hx
    by (rewrite Htok, Hlast; ring).
  assert (topped_up l now == 0) as Ht0.
  { rewrite topped_up_part; [exact Hx|]. rewrite Hx. lra. }
  cbn [contend]. rewrite acquire_sleeps by lra.
  set (w := (1 - topped_up l now) / rate l).
  assert (w == 1 / rate l) as Hw.
  { unfold w. rewrite Ht0. unfold Qdiv. ring. }
  set (l1 := mkLimiter (rate l) 0 now).
  assert (tokens l1 + (now + w - last_update l1) * rate l1 == 1) as Hx1.
  { cbn [tokens last_update rate l1].
    assert (0 + (now + w - now) * rate l == w * rate l) as -> by ring.
    rewrite Hw. field. exact Hnz. }
  assert (topped_up l1 (now + w) == 1) as Ht1.
  { rewrite topped_up_part; [exact Hx1|]. rewrite Hx1. exact Hrate. }
  rewrite acquire_takes by lra.
  set (l2 := mkLimiter (rate l1) (topped_up l1 (now + w) - 1) (now + w)).
  constructor; [now rewrite Hw|]. constructor; [rewrite Hw; ring|].
  eapply Forall2_Qeq_trans.
  - apply (IH l2 (now + w + 0)); cbn [rate tokens last_update l2 l1].
    + exact Hrate.
    + rewrite Ht1. ring.
    + ring.
  - cbn [rate l2 l1]. apply two_per_tick_shift. rewrite Hw. ring.
Qed.

(** X18 [RateLimiter.acquire]: last_update is set before the sleep, so the
    time slept is credited again to the next caller.  Once the bucket is
    empty, contending callers are served two at every [1 / rate] seconds:
    2k callers all return within [k / rate] seconds, twice the rate the
    limiter is configured for. *)
Theorem contention_doubles_rate (l : Limiter) (now : Q) (k : nat) :
  1 <= rate l → tokens l == 0 → last_update l == now →
  Forall2 Qeq (contend l now (2 * k)) (two_per_tick now (1 / rate l) k) ∧
  Forall (λ g, now <= g ∧ g <= now + inject_Z (Z.of_nat k) / rate l)
    (contend l now (2 * k)).
Proof.
  intros Hrate Htok Hlast.
  pose proof (contend_two_per_tick k l now Hrate Htok Hlast) as Hpairs.
  split; [exact Hpairs|].
  assert (0 <= 1 / rate l) as Hstep.
  { unfold Qdiv. rewrite Qmult_1_l. apply Qinv_le_0_compat. lra. }
  pose proof (two_per_tick_bound now (1 / rate l) k Hstep) as Hbound.
  apply (Forall2_Qeq_between _ _ _ _ Hpairs).
  eapply Forall_impl; [exact Hbound|].
  intros g [Hlo Hhi]. split; [exact Hlo|].
  assert (inject_Z (Z.of_nat k) / rate l == inject_Z (Z.of_nat k) * (1 / rate l))
    as -> by (unfold Qdiv; ring).
  exact Hhi.
Qed.

Lemma contention_doubles_rate_witness :
  Forall (λ g, 0 <= g ∧ g <= 0 + inject_Z (Z.of_nat 5) / 5)
    (contend (mkLimiter 5 0 0) 0 (2 * 5)).
Proof.
  apply (contention_doubles_rate (mkLimiter 5 0 0) 0 5);
    vm_compute; first [reflexivity|discriminate].
Defined.

End RateLimiterExtras.

(* ===================================================================== *)
(** * tools/multi_hop_tracer.py: the tracer over the local node *)
(* ===================================================================== *)

Module MultiHopTracer.
Import PyStr.

(** One element of a [trace_filter] answer: [tr_to] is
    [action.get('to') or ''], [tr_value] is
    [hex_to_int(action.get('value', '0x0'))]. *)
Record Trace := mkTrace {
  tr_to : string;
  tr_value : Z;
  tr_block : Z;
  tr_hash : string
}.

(** An element of [transfers]. *)
Record Transfer := mkTransfer {
  t_to : string;
  value_eth : float;
  t_block : Z;
  tx_hash : string;
  t_label : option string
}.

(** [graph['hops'][address]]. *)
Record Hop := mkHop {
  h_depth : Z;
  h_path : list string;
  h_transfers : list Transfer;
  h_balance : float
}.

Record HopEndpoint := mkHopEndpoint {
  hep_address : string;
  hep_label : string;
  hep_type : string;
  hep_eth : float;
  hep_from_path : list string
}.

(** The [graph] dictionary ('start', 'depth' and 'min_eth' repeat the
    arguments and 'timestamp' is the clock); the totals have the keys of
    the second tracer. *)
Record HopGraph := mkHopGraph {
  hops : gmap string Hop;
  hop_endpoints : list HopEndpoint;
  hop_totals : MultiHopTracerV2.Totals
}.

(** The variables of the [while] loop.  The lines printed when [verbose]
    repeat values kept in [graph]. *)
Record HopState := mkHopState {
  hs_visited : gset string;
  hs_queue : list (string * Z * list string);
  hs_graph : HopGraph
}.

Section Tracer.

Variable KNOWN_ADDRESSES : gmap string string.

(** The node: the block number ([None]: the call failed), the answer to
    [trace_filter] for an address and a block range, and the balance of an
    address ([None]: the call failed or gave an empty result). *)
Variable eth_blockNumber : option Z.
Variable trace_filter : string → Z → Z → option (list Trace).
Variable eth_getBalance : string → option Z.

Definition get_label (address : string) : option string :=
  KNOWN_ADDRESSES !! lower address.

Definition get_balance (address : string) : float :=
  match eth_getBalance address with
  | Some wei => PyFloat.wei_to_eth wei
  | None => 0%float
  end.

Definition get_outgoing_transfers (address : string) (num_blocks : Z) : list Transfer :=
  let address := lower address in
  let current_block := default 0%Z eth_blockNumber in
  let from_blk := Z.max 0 (current_block - num_blocks) in
  let traces := default [] (trace_filter address from_blk current_block) in
  fold_left
    (λ transfers trace,
       let to_addr := lower (tr_to trace) in
       let value := PyFloat.wei_to_eth (tr_value trace) in
       if PrimFloat.ltb 0%float value && truthy to_addr
       then transfers ++ [mkTransfer to_addr value (tr_block trace) (tr_hash trace)
                            (get_label to_addr)]
       else transfers)
    traces [].

Variable depth : Z.
Variable min_eth : float.

(** [[t for t in transfers if t['value_eth'] >= min_eth]] *)
Definition significant (address : string) : list Transfer :=
  List.filter (λ t, PrimFloat.leb min_eth (value_eth t))
    (get_outgoing_transfers address 200000).

(** [if label:] on the label of a transfer. *)
Definition truthy_label (t : Transfer) : option string :=
  match t_label t with
  | Some label => if truthy label then Some label else None
  | None => None
  end.

(** The body of [for t in significant]. *)
Definition hop_transfer (current_depth : Z) (path : list string)
    (st : HopState) (t : Transfer) : HopState :=
  let to_addr := t_to t in
  let value := value_eth t in
  let g := hs_graph st in
  let tt := hop_totals g in
  let tracked := PrimFloat.add (MultiHopTracerV2.total_eth_tracked tt) value in
  match truthy_label t with
  | Some label =>
      if contains "Tornado" label then
        mkHopState (hs_visited st) (hs_queue st)
          (mkHopGraph (hops g)
             (hop_endpoints g ++
                [mkHopEndpoint to_addr label "mixer" value (path ++ [to_addr])])
             (MultiHopTracerV2.mkTotals (MultiHopTracerV2.addresses_traced tt) tracked
                (MultiHopTracerV2.eth_to_exchanges tt)
                (PrimFloat.add (MultiHopTracerV2.eth_to_mixers tt) value)
                (MultiHopTracerV2.eth_to_unknown tt)))
      else if MultiHopTracerV2.is_exchange_label label then
        mkHopState (hs_visited st) (hs_queue st)
          (mkHopGraph (hops g)
             (hop_endpoints g ++
                [mkHopEndpoint to_addr label "exchange" value (path ++ [to_addr])])
             (MultiHopTracerV2.mkTotals (MultiHopTracerV2.addresses_traced tt) tracked
                (PrimFloat.add (MultiHopTracerV2.eth_to_exchanges tt) value)
                (MultiHopTracerV2.eth_to_mixers tt)
                (MultiHopTracerV2.eth_to_unknown tt)))
      else
        mkHopState (hs_visited st) (hs_queue st)
          (mkHopGraph (hops g) (hop_endpoints g)
             (MultiHopTracerV2.mkTotals (MultiHopTracerV2.addresses_traced tt) tracked
                (MultiHopTracerV2.eth_to_exchanges tt)
                (MultiHopTracerV2.eth_to_mixers tt)
                (MultiHopTracerV2.eth_to_unknown tt)))
  | None =>
      mkHopState (hs_visited st)
        (if bool_decide (to_addr ∉ hs_visited st)
         then hs_queue st ++ [(to_addr, (current_depth + 1)%Z, path ++ [to_addr])]
         else hs_queue st)
        (mkHopGraph (hops g) (hop_endpoints g)
           (MultiHopTracerV2.mkTotals (MultiHopTracerV2.addresses_traced tt) tracked
              (MultiHopTracerV2.eth_to_exchanges tt)
              (MultiHopTracerV2.eth_to_mixers tt)
              (PrimFloat.add (MultiHopTracerV2.eth_to_unknown tt) value)))
  end.

(** One iteration of the [while] loop, after [queue.pop(0)] returned
    [(address, current_depth, path)] and left [st]. *)
Definition hop_iteration (address : string) (current_depth : Z) (path : list string)
    (st : HopState) : HopState :=
  if bool_decide (address ∈ hs_visited st) then st
  else
    let st := mkHopState ({[address]} ∪ hs_visited st) (hs_queue st) (hs_graph st) in
    if (depth <=? current_depth)%Z then st
    else
      let g := hs_graph st in
      let tt := hop_totals g in
      let st :=
        mkHopState (hs_visited st) (hs_queue st)
          (mkHopGraph
             (<[address := mkHop current_depth path (significant address)
                             (get_balance address)]> (hops g))
             (hop_endpoints g)
             (MultiHopTracerV2.mkTotals (MultiHopTracerV2.addresses_traced tt + 1)%Z
                (MultiHopTracerV2.total_eth_tracked tt)
                (MultiHopTracerV2.eth_to_exchanges tt)
                (MultiHopTracerV2.eth_to_mixers tt)
                (MultiHopTracerV2.eth_to_unknown tt))) in
      fold_left (hop_transfer current_depth path) (significant address) st.

Fixpoint hop_loop (fuel : nat) (st : HopState) : option HopState :=
  match hs_queue st with
  | [] => Some st
  | (address, current_depth, path) :: rest =>
      match fuel with
      | 0 => None
      | S fuel' =>
          hop_loop fuel'
            (hop_iteration address current_depth path
               (mkHopState (hs_visited st) rest (hs_graph st)))
      end
  end.

(** A bound on the iterations one queue entry can cause. *)
Fixpoint transfer_weight (rank : nat) (address : string) : nat :=
  match rank with
  | 0 => 1
  | S rank' => S (list_sum (map (λ t, transfer_weight rank' (t_to t)) (significant address)))
  end.

Definition hop_init (start_address : string) : HopState :=
  mkHopState ∅ [(lower start_address, 0%Z, [lower start_address])]
    (mkHopGraph ∅ [] (MultiHopTracerV2.mkTotals 0 0%float 0%float 0%float 0%float)).

Definition hop_run (start_address : string) : option HopState :=
  hop_loop (transfer_weight (Z.to_nat depth) (lower start_address))
    (hop_init start_address).

(** [trace_hops(start_address, depth, min_eth)] of multi_hop_tracer.py. *)
Definition trace_hops_v1 (start_address : string) : option HopGraph :=
  hs_graph <$> hop_run start_address.

End Tracer.

End MultiHopTracer.

Module HopFacts.
Import PyStr MultiHopTracer.

Section Loop.

Variable KNOWN : gmap string string.
Variable eth_blockNumber : option Z.
Variable trace_filter : string → Z → Z → option (list Trace).
Variable eth_getBalance : string → option Z.
Variable depth : Z.
Variable min_eth : float.

Local Abbreviation significant :=
  (significant KNOWN eth_blockNumber trace_filter min_eth).
Local Abbreviation hop_iteration :=
  (hop_iteration KNOWN eth_blockNumber trace_filter eth_getBalance depth min_eth).
Local Abbreviation hop_loop :=
  (hop_loop KNOWN eth_blockNumber trace_filter eth_getBalance depth min_eth).
Local Abbreviation transfer_weight :=
  (transfer_weight KNOWN eth_blockNumber trace_filter min_eth).

Definition hop_entry_weight (e : string * Z * list string) : nat :=
  transfer_weight (Z.to_nat (depth - snd (fst e))) (fst (fst e)).

Definition hop_queue_weight (q : list (string * Z * list string)) : nat :=
  list_sum (map hop_entry_weight q).

(** What the [for t in significant] loop leaves: the visited set and the
    hops as they were, and the queue longer by one entry per transfer of a
    sublist of the transfers, all without a label. *)
Lemma hop_transfers_frame d path ts st :
  let st' := fold_left (hop_transfer d path) ts st in
  hs_visited st' = hs_visited st ∧ hops (hs_graph st') = hops (hs_graph st) ∧
  MultiHopTracerV2.addresses_traced (hop_totals (hs_graph st'))
  = MultiHopTracerV2.addresses_traced (hop_totals (hs_graph st)) ∧
  ∃ sub, sublist sub ts ∧
         (∀ t, t ∈ sub → truthy_label t = None) ∧
         hs_queue st'
         = hs_queue st ++ ((λ t, (t_to t, (d + 1)%Z, path ++ [t_to t])) <$> sub).
Proof.
  revert st. induction ts as [|t ts IH]; intros st; cbn [fold_left].
  - cbv zeta. split; [done|]. split; [done|]. split; [done|].
    exists []. split; [constructor|]. split; [|simpl; now rewrite app_nil_r].
    intros t Ht. by apply elem_of_nil in Ht.
  - destruct (IH (hop_transfer d path st t)) as (Hv & Hh & Ha & sub & Hsub & Hlab & Hq).
    cbv zeta in *. rewrite Hv, Hh, Ha, Hq. clear Hv Hh Ha Hq.
    unfold hop_transfer.
    destruct (truthy_label t) as [label|] eqn:Hl.
    + assert (∃ sub0, sublist sub0 (t :: ts) ∧ (∀ x, x ∈ sub0 → truthy_label x = None) ∧
                hs_queue st ++ ((λ t, (t_to t, (d + 1)%Z, path ++ [t_to t])) <$> sub)
                = hs_queue st ++ ((λ t, (t_to t, (d + 1)%Z, path ++ [t_to t])) <$> sub0))
        as Hex by (exists sub; split; [now constructor|done]).
      destruct (contains "Tornado" label); [|destruct (MultiHopTracerV2.is_exchange_label label)];
        simpl; (split; [done|]; split; [done|]; split; [done|]; exact Hex).
    + simpl. split; [done|]. split; [done|]. split; [done|].
      destruct (bool_decide (t_to t ∉ hs_visited st)).
      * exists (t :: sub). split; [now constructor|]. split.
        -- intros x Hx. apply elem_of_cons in Hx as [->|Hx]; [exact Hl|now apply Hlab].
        -- simpl. now rewrite <- app_assoc.
      * exists sub. split; [now constructor|done].
Qed.

Lemma hop_queue_weight_app q1 q2 :
  hop_queue_weight (q1 ++ q2) = hop_queue_weight q1 + hop_queue_weight q2.
Proof. unfold hop_queue_weight. now rewrite map_app, list_sum_app. Qed.

Lemma hop_entry_weight_pos e : 0 < hop_entry_weight e.
Proof. unfold hop_entry_weight. destruct (Z.to_nat _); simpl; lia. Qed.

Lemma hop_iteration_weight a d p st :
  hop_queue_weight (hs_queue (hop_iteration a d p st))
  < hop_queue_weight ((a, d, p) :: hs_queue st).
Proof.
  pose proof (hop_entry_weight_pos (a, d, p)) as Hpos.
  change (hop_queue_weight ((a, d, p) :: hs_queue st))
    with (hop_entry_weight (a, d, p) + hop_queue_weight (hs_queue st)).
  unfold MultiHopTracer.hop_iteration.
  destruct (bool_decide (a ∈ hs_visited st)); simpl; [lia|].
  destruct (depth <=? d)%Z eqn:Hd; simpl; [lia|].
  apply Z.leb_gt in Hd.
  match goal with |- context [fold_left ?f ?l ?s] =>
    destruct (hop_transfers_frame d p l s) as (_ & _ & _ & sub & Hsub & _ & Hq) end.
  cbv zeta in Hq. rewrite Hq. simpl hs_queue. rewrite hop_queue_weight_app.
  assert (hop_entry_weight (a, d, p)
          = S (list_sum (map (λ t, transfer_weight (Z.to_nat (depth - (d + 1))) (t_to t))
                           (significant a)))) as Hw.
  { unfold hop_entry_weight. simpl.
    replace (Z.to_nat (depth - d)) with (S (Z.to_nat (depth - (d + 1)))) by lia.
    reflexivity. }
  assert (hop_queue_weight ((λ t, (t_to t, (d + 1)%Z, p ++ [t_to t])) <$> sub)
          ≤ list_sum (map (λ t, transfer_weight (Z.to_nat (depth - (d + 1))) (t_to t))
                        (significant a))) as Hle.
  { unfold hop_queue_weight.
    change (list_fmap ?A ?B ?f ?l) with (map f l). rewrite map_map.
    unfold hop_entry_weight. simpl.
    apply (ExpanderFacts.list_sum_sublist
             (λ t, transfer_weight (Z.to_nat (depth - (d + 1))) (t_to t))).
    exact Hsub. }
  rewrite Hw. lia.
Qed.

Lemma hop_loop_terminates fuel st :
  hop_queue_weight (hs_queue st) ≤ fuel → ∃ st', hop_loop fuel st = Some st'.
Proof.
  revert st. induction fuel as [|fuel IH]; intros [v q g] Hw; simpl in *.
  - destruct q as [|[[a d] p] q]; [eauto|]. exfalso.
    pose proof (hop_entry_weight_pos (a, d, p)).
    change (hop_queue_weight ((a, d, p) :: q))
      with (hop_entry_weight (a, d, p) + hop_queue_weight q) in Hw. lia.
  - destruct q as [|[[a d] p] q]; [eauto|]. apply IH.
    pose proof (hop_iteration_weight a d p (mkHopState v q g)) as Hlt.
    simpl hs_queue in Hlt. lia.
Qed.

(** ** What a trace records *)

(** Where a transfer comes from. *)
Lemma outgoing_transfer_source a n t :
  t ∈ get_outgoing_transfers KNOWN eth_blockNumber trace_filter a n →
  PrimFloat.ltb 0%float (value_eth t) = true ∧ t_to t ≠ "" ∧ lower (t_to t) = t_to t ∧
  t_label t = KNOWN !! t_to t ∧
  ∃ trace,
    trace ∈ default [] (trace_filter (lower a)
                          (Z.max 0 (default 0%Z eth_blockNumber - n))
                          (default 0%Z eth_blockNumber)) ∧
    t_to t = lower (tr_to trace) ∧
    value_eth t = PyFloat.wei_to_eth (tr_value trace) ∧
    t_block t = tr_block trace ∧ tx_hash t = tr_hash trace.
Proof.
  unfold get_outgoing_transfers.
  set (traces := default [] _).
  set (step := λ (transfers : list Transfer) (trace : Trace), _).
  assert (∀ acc, t ∈ fold_left step traces acc →
            t ∈ acc ∨
            (PrimFloat.ltb 0%float (value_eth t) = true ∧ t_to t ≠ "" ∧
             lower (t_to t) = t_to t ∧ t_label t = KNOWN !! t_to t ∧
             ∃ trace, trace ∈ traces ∧ t_to t = lower (tr_to trace) ∧
                      value_eth t = PyFloat.wei_to_eth (tr_value trace) ∧
                      t_block t = tr_block trace ∧ tx_hash t = tr_hash trace)) as Hgen.
  { induction traces as [|tr traces IH]; intros acc; simpl; [now left|].
    intros Hin. destruct (IH _ Hin) as [Hacc|(? & ? & ? & ? & tr' & ? & ?)].
    - unfold step in Hacc.
      destruct (PrimFloat.ltb 0%float (PyFloat.wei_to_eth (tr_value tr))) eqn:Hpos;
        simpl in Hacc; [|now left].
      destruct (truthy (lower (tr_to tr))) eqn:Htr; [|now left].
      apply elem_of_app in Hacc as [?|Hnew]; [now left|].
      apply list_elem_of_singleton in Hnew. subst t. simpl. right.
      split; [exact Hpos|]. split; [now destruct (lower (tr_to tr))|].
      split; [apply lower_idem|]. split; [unfold get_label; now rewrite lower_idem|].
      exists tr. split; [left|done].
    - right. split; [done|]. split; [done|]. split; [done|]. split; [done|].
      exists tr'. split; [now right|done]. }
  intros Hin. destruct (Hgen [] Hin) as [Hnil|?]; [by apply elem_of_nil in Hnil|done].
Qed.

Lemma significant_source a t :
  t ∈ significant a →
  t ∈ get_outgoing_transfers KNOWN eth_blockNumber trace_filter a 200000 ∧
  PrimFloat.leb min_eth (value_eth t) = true.
Proof.
  unfold MultiHopTracer.significant. rewrite list_elem_of_In, filter_In.
  now rewrite <- list_elem_of_In.
Qed.

Variable start_address : string.

(** A path follows recorded transfers: each entry but the last is a
    recorded hop with a transfer to the next entry. *)
Definition hop_chain (hs : gmap string Hop) (p : list string) : Prop :=
  ∀ i x y, p !! i = Some x → p !! S i = Some y →
    ∃ h t, hs !! x = Some h ∧ t ∈ h_transfers h ∧ t_to t = y.

Definition hop_path (hs : gmap string Hop) (a : string) (d : Z) (p : list string) : Prop :=
  hd_error p = Some (lower start_address) ∧ last p = Some a ∧
  Z.of_nat (length p) = (d + 1)%Z ∧ hop_chain hs p.

(** The table gives the address no label, or an empty one. *)
Definition unlabelled_address (a : string) : Prop :=
  ∀ label, KNOWN !! a = Some label → truthy label = false.

Definition good_hop_endpoint (hs : gmap string Hop) (ep : HopEndpoint) : Prop :=
  hd_error (hep_from_path ep) = Some (lower start_address) ∧
  last (hep_from_path ep) = Some (hep_address ep) ∧
  (2 ≤ Z.of_nat (length (hep_from_path ep)) ≤ depth + 1)%Z ∧
  hop_chain hs (hep_from_path ep) ∧
  KNOWN !! hep_address ep = Some (hep_label ep) ∧ truthy (hep_label ep) = true ∧
  (hep_type ep = "mixer" ∨ hep_type ep = "exchange").

Definition good_hop (hs : gmap string Hop) (vis : gset string) (a : string) (h : Hop)
  : Prop :=
  a ∈ vis ∧ (0 ≤ h_depth h < depth)%Z ∧ hop_path hs a (h_depth h) (h_path h) ∧
  h_transfers h = significant a ∧
  h_balance h = get_balance eth_getBalance a ∧
  (a = lower start_address ∨ unlabelled_address a).

Record HInv (st : HopState) : Prop := {
  hi_queue : ∀ a d p, (a, d, p) ∈ hs_queue st →
      hop_path (hops (hs_graph st)) a d p ∧
      (a = lower start_address ∨ unlabelled_address a);
  hi_hops : ∀ a h, hops (hs_graph st) !! a = Some h →
      good_hop (hops (hs_graph st)) (hs_visited st) a h;
  hi_traced : MultiHopTracerV2.addresses_traced (hop_totals (hs_graph st))
              = Z.of_nat (size (dom (hops (hs_graph st))));
  hi_endpoints : ∀ ep, ep ∈ hop_endpoints (hs_graph st) →
      good_hop_endpoint (hops (hs_graph st)) ep
}.

Lemma hop_chain_mono hs hs' p :
  (∀ x h, hs !! x = Some h → hs' !! x = Some h) → hop_chain hs p → hop_chain hs' p.
Proof.
  intros Hsub Hc i x y Hx Hy. destruct (Hc i x y Hx Hy) as (h & t & Hh & Ht).
  exists h, t. split; [now apply Hsub|exact Ht].
Qed.

Lemma hop_chain_snoc hs p a b h t :
  last p = Some a → hop_chain hs p →
  hs !! a = Some h → t ∈ h_transfers h → t_to t = b →
  hop_chain hs (p ++ [b]).
Proof.
  intros Hlast Hc Hh Ht Hb i x y Hx Hy.
  destruct (decide (S i < length p)) as [Hlt|Hge].
  - rewrite lookup_app_l in Hx by lia. rewrite lookup_app_l in Hy by lia.
    exact (Hc i x y Hx Hy).
  - pose proof (lookup_lt_Some _ _ _ Hy) as Hlen. rewrite length_app in Hlen.
    simpl in Hlen. assert (S i = length p) as Hi by lia.
    rewrite lookup_app_r in Hy by lia. rewrite Hi, Nat.sub_diag in Hy.
    injection Hy as <-.
    rewrite lookup_app_l in Hx by lia. rewrite last_lookup in Hlast.
    replace (pred (length p)) with i in Hlast by lia.
    rewrite Hx in Hlast. injection Hlast as ->. exists h, t. done.
Qed.

(** One transfer of the hop being expanded. *)
Lemma hinv_transfer a d path st t h :
  HInv st → hops (hs_graph st) !! a = Some h → t ∈ h_transfers h →
  hop_path (hops (hs_graph st)) a d path → (d < depth)%Z →
  t_label t = KNOWN !! t_to t →
  HInv (hop_transfer d path st t) ∧
  hops (hs_graph (hop_transfer d path st t)) = hops (hs_graph st).
Proof.
  intros [Hq Hh Htr Hep] Ha Ht (Hhd & Hlast & Hlen & Hchain) Hd Hlab.
  assert (1 ≤ length path) as Hne by (destruct path; [discriminate|simpl; lia]).
  assert (hd_error (path ++ [t_to t]) = Some (lower start_address)) as Hhd'.
  { destruct path; [discriminate|exact Hhd]. }
  assert (hop_chain (hops (hs_graph st)) (path ++ [t_to t])) as Hchain'.
  { exact (hop_chain_snoc _ _ _ _ _ _ Hlast Hchain Ha Ht eq_refl). }
  assert (Z.of_nat (length (path ++ [t_to t])) = (d + 1 + 1)%Z) as Hlen'.
  { rewrite length_app. simpl. lia. }
  assert (∀ label ty, truthy_label t = Some label → ty = "mixer" ∨ ty = "exchange" →
            good_hop_endpoint (hops (hs_graph st))
              (mkHopEndpoint (t_to t) label ty (value_eth t) (path ++ [t_to t])))
    as Hnewep.
  { intros label ty Hl Hty. unfold truthy_label in Hl. rewrite Hlab in Hl.
    destruct (KNOWN !! t_to t) as [l0|] eqn:Hk; [|discriminate].
    destruct (truthy l0) eqn:Htl; [|discriminate]. injection Hl as <-.
    split; [exact Hhd'|]. simpl. split; [apply last_snoc|]. split; [lia|].
    split; [exact Hchain'|]. done. }
  unfold hop_transfer.
  destruct (truthy_label t) as [label|] eqn:Hl.
  - destruct (contains "Tornado" label); [|destruct (MultiHopTracerV2.is_exchange_label label)];
      (split; [|reflexivity]); split; simpl; try done;
      intros ep Hin; (apply elem_of_app in Hin as [Hin|Hin]; [now apply Hep|]);
      apply list_elem_of_singleton in Hin; subst ep; apply Hnewep; auto.
  - split; [|reflexivity]. split; simpl; try done.
    intros a' d' p' Hin.
    destruct (bool_decide (t_to t ∉ hs_visited st)); [|now apply Hq].
    apply elem_of_app in Hin as [Hin|Hin]; [now apply Hq|].
    apply list_elem_of_singleton in Hin. injection Hin as -> -> ->.
    split; [split; [exact Hhd'|]; split; [apply last_snoc|]; split; [exact Hlen'|exact Hchain']|].
    right. intros label Hk. unfold truthy_label in Hl. rewrite Hlab, Hk in Hl.
    destruct (truthy label); [discriminate|done].
Qed.

Lemma hinv_transfers a d path ts st h :
  HInv st → hops (hs_graph st) !! a = Some h → (∀ t, t ∈ ts → t ∈ h_transfers h) →
  hop_path (hops (hs_graph st)) a d path → (d < depth)%Z →
  (∀ t, t ∈ ts → t_label t = KNOWN !! t_to t) →
  HInv (fold_left (hop_transfer d path) ts st).
Proof.
  revert st. induction ts as [|t ts IH]; intros st HI Ha Hts Hp Hd Hlab; simpl;
    [exact HI|].
  destruct (hinv_transfer a d path st t h HI Ha) as [HI' Hsame];
    [apply Hts; left|exact Hp|exact Hd|apply Hlab; left|].
  apply IH; [exact HI'|now rewrite Hsame| |now rewrite Hsame|exact Hd|].
  - intros t' Ht'. apply Hts. now right.
  - intros t' Ht'. apply Hlab. now right.
Qed.

Lemma good_hop_mono hs hs' vis vis' a h :
  (∀ x h, hs !! x = Some h → hs' !! x = Some h) → vis ⊆ vis' →
  good_hop hs vis a h → good_hop hs' vis' a h.
Proof.
  intros Hsub Hvis (Hv & Hd & (Hhd & Hl & Hlen & Hc) & Hrest).
  split; [set_solver|]. split; [exact Hd|]. split; [|exact Hrest].
  split; [done|]. split; [done|]. split; [done|]. exact (hop_chain_mono _ _ _ Hsub Hc).
Qed.

Lemma hinv_iteration a d p v q g :
  HInv (mkHopState v ((a, d, p) :: q) g) →
  HInv (hop_iteration a d p (mkHopState v q g)).
Proof.
  intros [Hq Hh Htr Hep]. simpl in *.
  destruct (Hq a d p) as [(Hhd & Hlast & Hlen & Hchain) Hlabel]; [left|].
  assert (∀ a' d' p', (a', d', p') ∈ q →
            hop_path (hops g) a' d' p' ∧
            (a' = lower start_address ∨ unlabelled_address a')) as Hq'.
  { intros a' d' p' Hin. apply Hq. now right. }
  unfold MultiHopTracer.hop_iteration. simpl.
  destruct (bool_decide (a ∈ v)) eqn:Hv; [by split|].
  apply bool_decide_eq_false in Hv.
  destruct (depth <=? d)%Z eqn:Hd.
  { split; simpl; try done. intros a' h Ha'.
    apply (good_hop_mono (hops g) (hops g) v); [done|set_solver|now apply Hh]. }
  apply Z.leb_gt in Hd.
  assert (hops g !! a = None) as Hfresh.
  { destruct (hops g !! a) as [h|] eqn:Ha; [|done].
    destruct (Hh a h Ha) as (Hin & _). done. }
  set (hop := mkHop d p (significant a) (get_balance eth_getBalance a)).
  assert (∀ x h, hops g !! x = Some h → (<[a := hop]> (hops g)) !! x = Some h) as Hsub.
  { intros x h Hx. rewrite lookup_insert_ne; [exact Hx|]. intros ->. congruence. }
  assert (1 ≤ length p) as Hne by (destruct p; [discriminate|simpl; lia]).
  assert (hop_path (<[a := hop]> (hops g)) a d p) as Hpath.
  { split; [done|]. split; [done|]. split; [done|]. exact (hop_chain_mono _ _ _ Hsub Hchain). }
  eapply (hinv_transfers a d p (significant a) _ hop).
  - destruct g as [gh ge gt]. split; simpl in *.
    + intros a' d' p' Hin. destruct (Hq' a' d' p' Hin) as [(? & ? & ? & Hc) ?].
      split; [|done]. split; [done|]. split; [done|]. split; [done|].
      exact (hop_chain_mono _ _ _ Hsub Hc).
    + intros a' h. rewrite lookup_insert. case_decide as Haa.
      * intros [= <-]. subst a'. split; [set_solver|]. split; [simpl; lia|].
        split; [exact Hpath|]. done.
      * intros Ha'. apply (good_hop_mono gh _ v); [exact Hsub|set_solver|now apply Hh].
    + rewrite dom_insert_L, size_union, size_singleton, Htr; [lia|].
      apply not_elem_of_dom in Hfresh. set_solver.
    + intros ep Hin. destruct (Hep ep Hin) as (? & ? & ? & Hc & ?).
      split; [done|]. split; [done|]. split; [done|].
      split; [exact (hop_chain_mono _ _ _ Hsub Hc)|done].
  - simpl. apply lookup_insert_eq.
  - done.
  - exact Hpath.
  - exact Hd.
  - intros t Ht. apply significant_source in Ht as [Ht _].
    now apply outgoing_transfer_source in Ht as (_ & _ & _ & ? & _).
Qed.

Lemma hinv_init : HInv (hop_init start_address).
Proof.
  split; simpl; try done.
  - intros a d p Hin. apply list_elem_of_singleton in Hin. injection Hin as -> -> ->.
    split; [|now left]. split; [done|]. split; [done|]. split; [done|].
    intros i x y Hx Hy. destruct i; discriminate.
  - intros ep Hin. by apply elem_of_nil in Hin.
Qed.

Lemma hop_loop_inv fuel st st' :
  hop_loop fuel st = Some st' → HInv st → HInv st'.
Proof.
  revert st. induction fuel as [|fuel IH]; intros [v q g] Hrun HI; simpl in Hrun.
  - destruct q as [|[[a d] p] q]; [|discriminate]. now injection Hrun as <-.
  - destruct q as [|[[a d] p] q]; [now injection Hrun as <-|].
    apply (IH _ Hrun). now apply hinv_iteration.
Qed.

(** The loop returns with the invariant. *)
Lemma hop_run_returns :
  ∃ st, hop_run KNOWN eth_blockNumber trace_filter eth_getBalance depth min_eth
          start_address = Some st ∧ HInv st.
Proof.
  unfold hop_run.
  destruct (hop_loop_terminates
              (transfer_weight (Z.to_nat depth) (lower start_address))
              (hop_init start_address)) as (st & Hst).
  - unfold hop_queue_weight, hop_init. simpl. unfold hop_entry_weight. simpl.
    rewrite Z.sub_0_r. lia.
  - exists st. split; [exact Hst|]. exact (hop_loop_inv _ _ _ Hst hinv_init).
Qed.

End Loop.

(** X19 [trace_hops] of multi_hop_tracer.py: it returns, and every hop of
    the returned graph is recorded at a depth from 0 to depth - 1 with a
    path of depth + 1 entries from the lower-cased start address to the hop
    itself, each entry a recorded hop with a recorded transfer to the next;
    its transfers are the transfers of the address of at least min_eth; only
    the start address can be a labelled address; and addresses_traced is
    the number of hops. *)
Theorem trace_hops_v1_hops (KNOWN : gmap string string) (eth_blockNumber : option Z)
    (trace_filter : string → Z → Z → option (list Trace))
    (eth_getBalance : string → option Z) (depth : Z) (min_eth : float)
    (start_address : string) :
  ∃ g, trace_hops_v1 KNOWN eth_blockNumber trace_filter eth_getBalance depth min_eth
         start_address = Some g ∧
       MultiHopTracerV2.addresses_traced (hop_totals g) = Z.of_nat (size (dom (hops g))) ∧
       ∀ a h, hops g !! a = Some h →
         (0 ≤ h_depth h < depth)%Z ∧
         hd_error (h_path h) = Some (lower start_address) ∧
         last (h_path h) = Some a ∧
         Z.of_nat (length (h_path h)) = (h_depth h + 1)%Z ∧
         hop_chain (hops g) (h_path h) ∧
         h_transfers h = significant KNOWN eth_blockNumber trace_filter min_eth a ∧
         h_balance h = get_balance eth_getBalance a ∧
         (a = lower start_address ∨ unlabelled_address KNOWN a).
Proof.
  destruct (hop_run_returns KNOWN eth_blockNumber trace_filter eth_getBalance depth
              min_eth start_address) as (st & Hrun & HI).
  unfold trace_hops_v1. rewrite Hrun. simpl. exists (hs_graph st). split; [done|].
  split; [exact (hi_traced _ _ _ _ _ _ _ _ HI)|].
  intros a h Ha.
  destruct (hi_hops _ _ _ _ _ _ _ _ HI a h Ha)
    as (_ & Hd & (Hhd & Hl & Hlen & Hc) & Ht & Hb & Hlab).
  done.
Qed.

(** X20 [get_outgoing_transfers], [trace_hops] of multi_hop_tracer.py: every
    transfer recorded in a hop was read from a trace that the node returned
    for that address over the last 200000 blocks; its value is positive and
    at least min_eth, its recipient is not empty and in lower case, and its
    label is the one the table gives the recipient. *)
Theorem trace_hops_v1_transfers (KNOWN : gmap string string) (eth_blockNumber : option Z)
    (trace_filter : string → Z → Z → option (list Trace))
    (eth_getBalance : string → option Z) (depth : Z) (min_eth : float)
    (start_address : string) :
  ∃ g, trace_hops_v1 KNOWN eth_blockNumber trace_filter eth_getBalance depth min_eth
         start_address = Some g ∧
       ∀ a h t, hops g !! a = Some h → t ∈ h_transfers h →
         PrimFloat.leb min_eth (value_eth t) = true ∧
         PrimFloat.ltb 0%float (value_eth t) = true ∧
         t_to t ≠ "" ∧ lower (t_to t) = t_to t ∧ t_label t = KNOWN !! t_to t ∧
         ∃ trace,
           trace ∈ default [] (trace_filter (lower a)
                                 (Z.max 0 (default 0%Z eth_blockNumber - 200000))
                                 (default 0%Z eth_blockNumber)) ∧
           t_to t = lower (tr_to trace) ∧
           value_eth t = PyFloat.wei_to_eth (tr_value trace) ∧
           t_block t = tr_block trace ∧ tx_hash t = tr_hash trace.
Proof.
  destruct (hop_run_returns KNOWN eth_blockNumber trace_filter eth_getBalance depth
              min_eth start_address) as (st & Hrun & HI).
  unfold trace_hops_v1. rewrite Hrun. simpl. exists (hs_graph st). split; [done|].
  intros a h t Ha Ht.
  destruct (hi_hops _ _ _ _ _ _ _ _ HI a h Ha) as (_ & _ & _ & Htr & _).
  rewrite Htr in Ht. apply significant_source in Ht as [Ht Hmin].
  apply outgoing_transfer_source in Ht. split; [exact Hmin|exact Ht].
Qed.

(** X21 [trace_hops] of multi_hop_tracer.py: every endpoint is an address
    the table labels, of type mixer or exchange, reported with a path of 2
    to depth + 1 entries that leads from the lower-cased start address to
    the endpoint along recorded transfers. *)
Theorem trace_hops_v1_endpoints (KNOWN : gmap string string) (eth_blockNumber : option Z)
    (trace_filter : string → Z → Z → option (list Trace))
    (eth_getBalance : string → option Z) (depth : Z) (min_eth : float)
    (start_address : string) :
  ∃ g, trace_hops_v1 KNOWN eth_blockNumber trace_filter eth_getBalance depth min_eth
         start_address = Some g ∧
       ∀ ep, ep ∈ hop_endpoints g →
         hd_error (hep_from_path ep) = Some (lower start_address) ∧
         last (hep_from_path ep) = Some (hep_address ep) ∧
         (2 ≤ Z.of_nat (length (hep_from_path ep)) ≤ depth + 1)%Z ∧
         hop_chain (hops g) (hep_from_path ep) ∧
         KNOWN !! hep_address ep = Some (hep_label ep) ∧
         truthy (hep_label ep) = true ∧
         (hep_type ep = "mixer" ∨ hep_type ep = "exchange").
Proof.
  destruct (hop_run_returns KNOWN eth_blockNumber trace_filter eth_getBalance depth
              min_eth start_address) as (st & Hrun & HI).
  unfold trace_hops_v1. rewrite Hrun. simpl. exists (hs_graph st). split; [done|].
  exact (hi_endpoints _ _ _ _ _ _ _ _ HI).
Qed.

End HopFacts.

(* ===================================================================== *)
(** * haiku_tracer.py: one address, and the recursive trace *)
(* ===================================================================== *)

Module HaikuTracer.
Import PyStr.

Definition MIN_VALUE_ETH : float := 0.001%float.

(** MIN_VALUE_USD is the int 10; it is compared with floats only. *)
Definition MIN_VALUE_USD : float := 10%float.

(** [a / b] for Python ints, [b] not zero: the quotient, correctly rounded
    to the nearest binary64 value (ties to even).  The quotient of the
    magnitudes is computed to at least 56 bits and a sticky bit records a
    remainder. *)
Definition int_truediv (a b : Z) : float :=
  let neg := xorb (a <? 0)%Z (b <? 0)%Z in
  let n := Z.abs a in
  let d := Z.abs b in
  if (n =? 0)%Z then (if neg then (-0)%float else 0%float)
  else
    let k := Z.max 0 (56 + Z.log2 d - Z.log2 n) in
    let q := (n * 2 ^ k / d)%Z in
    let sticky := if (n * 2 ^ k mod d =? 0)%Z then 0%Z else 1%Z in
    let m := (2 * q + sticky)%Z in
    SF2Prim (binary_normalize 53 1024 (if neg then - m else m) (- k - 1) neg).

(** An Etherscan transaction and a token transfer, with the keys the tracer
    reads.  A record is taken to be well formed: the numbers parse, and the
    decimals of a token are not negative.  [None] is an absent "hash". *)
Record EthTx := mkEthTx {
  etx_value : Z;
  etx_from : string;
  etx_to : string;
  etx_hash : option string;
  etx_timeStamp : Z;
  etx_blockNumber : Z
}.

Record TokenTx := mkTokenTx {
  ttx_tokenSymbol : string;
  ttx_tokenDecimal : N;
  ttx_value : Z;
  ttx_from : string;
  ttx_to : string;
  ttx_hash : option string;
  ttx_timeStamp : Z;
  ttx_blockNumber : Z
}.

(** An element of [outflows] or [inflows]. *)
Record Flow := mkFlow {
  f_hash : option string;
  f_from : string;
  f_to : string;
  f_token : string;
  f_value : float;
  f_timestamp : Z;
  f_block : Z
}.

Record Stats := mkStats {
  total_normal_txs : nat;
  total_erc20_txs : nat;
  eth_in : float;
  eth_out : float;
  usdt_in : float;
  usdt_out : float;
  usdc_in : float;
  usdc_out : float
}.

(** The dictionary [trace_address] returns ("traced_at" is the clock). *)
Record TraceResult := mkTraceResult {
  r_address : string;
  r_depth : Z;
  classification : string;
  stats : Stats;
  outflows : list Flow;
  inflows : list Flow;
  destinations_to_trace : list string
}.

(** What one request comes to: it raised, or a JSON object with its
    "status", its "message" and its "result" (the empty list when absent). *)
Inductive HResponse (T : Type) :=
| HRequestFailed
| HAnswer (status message : option string) (result : list T).
Arguments HRequestFailed {T}.
Arguments HAnswer {T} status message result.

(** The sums and lists that the two loops of [trace_address] build. *)
Record Tally := mkTally {
  t_eth_in : float;
  t_eth_out : float;
  t_usdt_in : float;
  t_usdt_out : float;
  t_usdc_in : float;
  t_usdc_out : float;
  t_outflows : list Flow;
  t_inflows : list Flow
}.

(** The body of [for tx in normal_txs]. *)
Definition eth_step (address : string) (acc : Tally) (tx : EthTx) : Tally :=
  let value := PyFloat.wei_to_eth (etx_value tx) in
  if PrimFloat.ltb value MIN_VALUE_ETH then acc
  else
    let tx_from := lower (etx_from tx) in
    let tx_to := lower (etx_to tx) in
    let flow := mkFlow (etx_hash tx) tx_from tx_to "ETH" value (etx_timeStamp tx)
                  (etx_blockNumber tx) in
    if String.eqb tx_from address then
      mkTally (t_eth_in acc) (PrimFloat.add (t_eth_out acc) value)
        (t_usdt_in acc) (t_usdt_out acc) (t_usdc_in acc) (t_usdc_out acc)
        (t_outflows acc ++ [flow]) (t_inflows acc)
    else if String.eqb tx_to address then
      mkTally (PrimFloat.add (t_eth_in acc) value) (t_eth_out acc)
        (t_usdt_in acc) (t_usdt_out acc) (t_usdc_in acc) (t_usdc_out acc)
        (t_outflows acc) (t_inflows acc ++ [flow])
    else acc.

(** The body of [for tx in erc20_txs]. *)
Definition token_step (address : string) (acc : Tally) (tx : TokenTx) : Tally :=
  let token := ttx_tokenSymbol tx in
  let decimals := ttx_tokenDecimal tx in
  let value := int_truediv (ttx_value tx) (10 ^ Z.of_N decimals) in
  if negb (String.eqb token "USDT" || String.eqb token "USDC" || String.eqb token "DAI")
  then acc
  else if PrimFloat.ltb value MIN_VALUE_USD then acc
  else
    let tx_from := lower (ttx_from tx) in
    let tx_to := lower (ttx_to tx) in
    let flow := mkFlow (ttx_hash tx) tx_from tx_to token value (ttx_timeStamp tx)
                  (ttx_blockNumber tx) in
    if String.eqb tx_from address then
      mkTally (t_eth_in acc) (t_eth_out acc)
        (t_usdt_in acc)
        (if String.eqb token "USDT" then PrimFloat.add (t_usdt_out acc) value
         else t_usdt_out acc)
        (t_usdc_in acc)
        (if String.eqb token "USDT" then t_usdc_out acc
         else if String.eqb token "USDC" then PrimFloat.add (t_usdc_out acc) value
         else t_usdc_out acc)
        (t_outflows acc ++ [flow]) (t_inflows acc)
    else if String.eqb tx_to address then
      mkTally (t_eth_in acc) (t_eth_out acc)
        (if String.eqb token "USDT" then PrimFloat.add (t_usdt_in acc) value
         else t_usdt_in acc)
        (t_usdt_out acc)
        (if String.eqb token "USDT" then t_usdc_in acc
         else if String.eqb token "USDC" then PrimFloat.add (t_usdc_in acc) value
         else t_usdc_in acc)
        (t_usdc_out acc)
        (t_outflows acc) (t_inflows acc ++ [flow])
    else acc.

Section Tracer.

Variable KNOWN_EXCHANGES : gmap string string.

(** The Etherscan endpoint for the actions "txlist" and "tokentx". *)
Variable txlist : string → HResponse EthTx.
Variable tokentx : string → HResponse TokenTx.

(** [list(s)] for a set [s] of strings: Python leaves the order open. *)
Variable set_order : gset string → list string.

Definition etherscan_result {T} (r : HResponse T) : list T :=
  match r with
  | HAnswer status message result =>
      if bool_decide (status = Some "1") || bool_decide (message = Some "OK")
      then result else []
  | HRequestFailed => []
  end.

Definition get_both_transactions (address : string) : list EthTx * list TokenTx :=
  let address := lower address in
  (etherscan_result (txlist address), etherscan_result (tokentx address)).

(** The loop that collects [destinations]. *)
Definition destinations_of (outflows : list Flow) : gset string :=
  fold_left
    (λ destinations tx,
       let dest := f_to tx in
       if truthy dest && bool_decide (KNOWN_EXCHANGES !! dest = None)
       then {[dest]} ∪ destinations else destinations)
    outflows ∅.

Definition trace_address (address : string) : TraceResult :=
  let address := lower address in
  let '(normal_txs, erc20_txs) := get_both_transactions address in
  let acc :=
    fold_left (token_step address) erc20_txs
      (fold_left (eth_step address) normal_txs
         (mkTally 0%float 0%float 0%float 0%float 0%float 0%float [] [])) in
  let classification :=
    match KNOWN_EXCHANGES !! address with
    | Some name => String.append "exchange:" name
    | None => "unknown"
    end in
  mkTraceResult address 0 classification
    (mkStats (length normal_txs) (length erc20_txs)
       (t_eth_in acc) (t_eth_out acc) (t_usdt_in acc) (t_usdt_out acc)
       (t_usdc_in acc) (t_usdc_out acc))
    (t_outflows acc) (t_inflows acc)
    (set_order (destinations_of (t_outflows acc))).

(** [result["depth"] = current_depth] *)
Definition with_depth (r : TraceResult) (current_depth : Z) : TraceResult :=
  mkTraceResult (r_address r) current_depth (classification r) (stats r)
    (outflows r) (inflows r) (destinations_to_trace r).

(** [trace_address_with_depth] on the shared [traced] set and [results]
    list, which every recursive call updates in place; [None] when the fuel
    runs out first. *)
Fixpoint trace_recursive (fuel : nat) (max_depth : Z) (address : string)
    (current_depth : Z) (st : gset string * list TraceResult)
  : option (gset string * list TraceResult) :=
  match fuel with
  | 0 => None
  | S fuel' =>
      let address := lower address in
      if bool_decide (address ∈ fst st) then Some st
      else
        let result := with_depth (trace_address address) current_depth in
        let st := ({[address]} ∪ fst st, snd st ++ [result]) in
        if (current_depth <? max_depth)%Z then
          fold_left
            (λ ost dest,
               match ost with
               | None => None
               | Some st =>
                   if bool_decide (dest ∈ fst st) then Some st
                   else trace_recursive fuel' max_depth dest (current_depth + 1)%Z st
               end)
            (destinations_to_trace result) (Some st)
        else Some st
  end.

(** A call with fresh [traced] and [results]: the list returned. *)
Definition trace_address_with_depth (address : string) (max_depth current_depth : Z)
  : option (list TraceResult) :=
  snd <$> trace_recursive (S (Z.to_nat (max_depth - current_depth))) max_depth address
            current_depth (∅, []).

End Tracer.

End HaikuTracer.

Module HaikuFacts.
Import PyStr HaikuTracer.

(** The running total of the flows of one token. *)
Definition sum_of (token : string) (flows : list Flow) : float :=
  TracerExtras.float_sum (f_value <$> filter (λ f, f_token f = token) flows).

Lemma sum_of_snoc token flows f :
  sum_of token (flows ++ [f])
  = if String.eqb (f_token f) token
    then PrimFloat.add (sum_of token flows) (f_value f)
    else sum_of token flows.
Proof.
  unfold sum_of. rewrite TracerExtras.filter_snoc.
  destruct (String.eqb (f_token f) token) eqn:He.
  - apply String.eqb_eq in He. rewrite decide_True by done.
    apply TracerExtras.float_sum_fmap_snoc.
  - apply String.eqb_neq in He. now rewrite decide_False.
Qed.

(** A flow that passed the filters of [trace_address]. *)
Definition kept (f : Flow) : Prop :=
  lower (f_from f) = f_from f ∧ lower (f_to f) = f_to f ∧
  ((f_token f = "ETH" ∧ PrimFloat.ltb (f_value f) MIN_VALUE_ETH = false) ∨
   ((f_token f = "USDT" ∨ f_token f = "USDC" ∨ f_token f = "DAI") ∧
    PrimFloat.ltb (f_value f) MIN_VALUE_USD = false)).

Record TallyInv (address : string) (acc : Tally) : Prop := {
  ti_out : ∀ f, f ∈ t_outflows acc → f_from f = address ∧ kept f;
  ti_in : ∀ f, f ∈ t_inflows acc → f_to f = address ∧ f_from f ≠ address ∧ kept f;
  ti_eth_out : t_eth_out acc = sum_of "ETH" (t_outflows acc);
  ti_eth_in : t_eth_in acc = sum_of "ETH" (t_inflows acc);
  ti_usdt_out : t_usdt_out acc = sum_of "USDT" (t_outflows acc);
  ti_usdt_in : t_usdt_in acc = sum_of "USDT" (t_inflows acc);
  ti_usdc_out : t_usdc_out acc = sum_of "USDC" (t_outflows acc);
  ti_usdc_in : t_usdc_in acc = sum_of "USDC" (t_inflows acc)
}.

Lemma flows_snoc (P : Flow → Prop) flows f :
  (∀ x, x ∈ flows → P x) → P f → ∀ x, x ∈ flows ++ [f] → P x.
Proof.
  intros Hall Hf x Hx. apply elem_of_app in Hx as [Hx|Hx]; [now apply Hall|].
  apply list_elem_of_singleton in Hx. now subst x.
Qed.

Lemma eth_step_inv address acc tx :
  TallyInv address acc → TallyInv address (eth_step address acc tx).
Proof.
  intros [Hout Hin Heo Hei Huo Hui Hco Hci]. unfold eth_step.
  destruct (PrimFloat.ltb (PyFloat.wei_to_eth (etx_value tx)) MIN_VALUE_ETH) eqn:Hv;
    [by split|].
  assert (kept (mkFlow (etx_hash tx) (lower (etx_from tx)) (lower (etx_to tx)) "ETH"
                  (PyFloat.wei_to_eth (etx_value tx)) (etx_timeStamp tx)
                  (etx_blockNumber tx))) as Hkept.
  { split; [apply lower_idem|]. split; [apply lower_idem|]. left. done. }
  destruct (String.eqb (lower (etx_from tx)) address) eqn:Hf.
  - apply String.eqb_eq in Hf. split; simpl; rewrite ?sum_of_snoc; simpl; try done.
    + apply flows_snoc; [exact Hout|done].
    + now rewrite Heo.
  - apply String.eqb_neq in Hf.
    destruct (String.eqb (lower (etx_to tx)) address) eqn:Ht; [|by split].
    apply String.eqb_eq in Ht. split; simpl; rewrite ?sum_of_snoc; simpl; try done.
    + apply flows_snoc; [exact Hin|done].
    + now rewrite Hei.
Qed.

Lemma token_step_inv address acc tx :
  TallyInv address acc → TallyInv address (token_step address acc tx).
Proof.
  intros [Hout Hin Heo Hei Huo Hui Hco Hci]. unfold token_step.
  set (value := int_truediv (ttx_value tx) (10 ^ Z.of_N (ttx_tokenDecimal tx))).
  assert (ttx_tokenSymbol tx = "USDT" ∨ ttx_tokenSymbol tx = "USDC" ∨
          ttx_tokenSymbol tx = "DAI" ∨
          negb (String.eqb (ttx_tokenSymbol tx) "USDT" ||
                String.eqb (ttx_tokenSymbol tx) "USDC" ||
                String.eqb (ttx_tokenSymbol tx) "DAI") = true) as Htoken.
  { destruct (String.eqb (ttx_tokenSymbol tx) "USDT") eqn:E1;
      [apply String.eqb_eq in E1; now left|].
    destruct (String.eqb (ttx_tokenSymbol tx) "USDC") eqn:E2;
      [apply String.eqb_eq in E2; right; now left|].
    destruct (String.eqb (ttx_tokenSymbol tx) "DAI") eqn:E3;
      [apply String.eqb_eq in E3; right; right; now left|].
    right. right. now right. }
  destruct Htoken as [Htok|[Htok|[Htok|Htok]]]; [| | |rewrite Htok; by split];
    rewrite Htok; simpl;
    (destruct (PrimFloat.ltb value MIN_VALUE_USD) eqn:Hv; [by split|]);
    (assert (kept (mkFlow (ttx_hash tx) (lower (ttx_from tx)) (lower (ttx_to tx))
                     (ttx_tokenSymbol tx) value (ttx_timeStamp tx) (ttx_blockNumber tx)))
       as Hkept
       by (split; [apply lower_idem|]; split; [apply lower_idem|]; right;
           split; [simpl; rewrite Htok; tauto|done]));
    rewrite Htok in Hkept;
    (destruct (String.eqb (lower (ttx_from tx)) address) eqn:Hf;
     [apply String.eqb_eq in Hf
     |apply String.eqb_neq in Hf;
      destruct (String.eqb (lower (ttx_to tx)) address) eqn:Ht;
      [apply String.eqb_eq in Ht|by split]]);
    split; simpl; rewrite ?sum_of_snoc; simpl; try done;
    first [apply flows_snoc; [assumption|done] | congruence].
Qed.

Section Address.

Variable KNOWN : gmap string string.
Variable txlist : string → HResponse EthTx.
Variable tokentx : string → HResponse TokenTx.
Variable set_order : gset string → list string.

Local Abbreviation trace_address := (trace_address KNOWN txlist tokentx set_order).

Lemma destinations_of_spec flows d :
  d ∈ destinations_of KNOWN flows ↔
  d ≠ "" ∧ KNOWN !! d = None ∧ ∃ f, f ∈ flows ∧ f_to f = d.
Proof.
  unfold destinations_of.
  assert (∀ acc : gset string,
            d ∈ fold_left
                  (λ (destinations : gset string) (tx : Flow),
                     if truthy (f_to tx) && bool_decide (KNOWN !! f_to tx = None)
                     then {[f_to tx]} ∪ destinations else destinations) flows acc ↔
            d ∈ acc ∨ (d ≠ "" ∧ KNOWN !! d = None ∧ ∃ f, f ∈ flows ∧ f_to f = d)) as Hgen.
  { induction flows as [|f flows IH]; intros acc; simpl.
    - split; [now left|]. intros [?|(_ & _ & f & Hf & _)]; [done|].
      by apply elem_of_nil in Hf.
    - rewrite IH. clear IH.
      destruct (truthy (f_to f)) eqn:Ht; simpl;
        [destruct (bool_decide (KNOWN !! f_to f = None)) eqn:Hk|].
      + apply bool_decide_eq_true in Hk. apply ExpanderExtras.truthy_nonempty in Ht.
        rewrite elem_of_union, elem_of_singleton. split.
        * intros [[->|?]|(? & ? & f' & ? & ?)]; [|now left|].
          -- right. split; [done|]. split; [done|]. exists f. split; [left|done].
          -- right. split; [done|]. split; [done|]. exists f'. split; [now right|done].
        * intros [?|(Hd & Hn & f' & Hf' & Hto)]; [left; now right|].
          apply elem_of_cons in Hf' as [->|Hf']; [left; now left|]. right. eauto.
      + apply bool_decide_eq_false in Hk. split.
        * intros [?|(? & ? & f' & ? & ?)]; [now left|].
          right. split; [done|]. split; [done|]. exists f'. split; [now right|done].
        * intros [?|(Hd & Hn & f' & Hf' & Hto)]; [now left|].
          apply elem_of_cons in Hf' as [->|Hf']; [congruence|]. right. eauto.
      + assert (f_to f = "") as He by (destruct (f_to f); done). split.
        * intros [?|(? & ? & f' & ? & ?)]; [now left|].
          right. split; [done|]. split; [done|]. exists f'. split; [now right|done].
        * intros [?|(Hd & Hn & f' & Hf' & Hto)]; [now left|].
          apply elem_of_cons in Hf' as [->|Hf']; [congruence|]. right. eauto. }
  rewrite Hgen. split; [intros [Hin|?]; [by apply elem_of_empty in Hin|done]|now right].
Qed.

(** The tally that [trace_address] reports. *)
Lemma trace_address_tally a :
  ∃ acc, TallyInv (lower a) acc ∧
         outflows (trace_address a) = t_outflows acc ∧
         inflows (trace_address a) = t_inflows acc ∧
         stats (trace_address a)
         = mkStats (length (etherscan_result (txlist (lower a))))
             (length (etherscan_result (tokentx (lower a))))
             (t_eth_in acc) (t_eth_out acc) (t_usdt_in acc) (t_usdt_out acc)
             (t_usdc_in acc) (t_usdc_out acc) ∧
         destinations_to_trace (trace_address a)
         = set_order (destinations_of KNOWN (t_outflows acc)) ∧
         r_address (trace_address a) = lower a ∧ r_depth (trace_address a) = 0%Z.
Proof.
  unfold HaikuTracer.trace_address, get_both_transactions. rewrite lower_idem.
  eexists. split; [|repeat split].
  assert (∀ l acc, TallyInv (lower a) acc →
                   TallyInv (lower a) (fold_left (eth_step (lower a)) l acc)) as Heth.
  { induction l as [|tx l IH]; intros acc Hacc; simpl; [done|].
    apply IH. now apply eth_step_inv. }
  assert (∀ l acc, TallyInv (lower a) acc →
                   TallyInv (lower a) (fold_left (token_step (lower a)) l acc)) as Htok.
  { induction l as [|tx l IH]; intros acc Hacc; simpl; [done|].
    apply IH. now apply token_step_inv. }
  apply Htok, Heth. split; simpl; try done; intros f Hf; by apply elem_of_nil in Hf.
Qed.

(** X22 [trace_address]: the flows it lists passed its filters.  Every
    outflow is sent by the traced address and every inflow is received by
    it from another address; a flow is an ETH transfer of at least
    MIN_VALUE_ETH or a USDT, USDC or DAI transfer of at least MIN_VALUE_USD,
    with lower-cased parties; and the destinations to trace are exactly the
    non-empty recipients of the outflows that are not known exchanges. *)
Theorem trace_address_flows (a : string) :
  (∀ s x, x ∈ set_order s ↔ x ∈ s) →
  let r := trace_address a in
  r_address r = lower a ∧
  (∀ f, f ∈ outflows r → f_from f = lower a ∧ kept f) ∧
  (∀ f, f ∈ inflows r → f_to f = lower a ∧ f_from f ≠ lower a ∧ kept f) ∧
  (∀ d, d ∈ destinations_to_trace r ↔
        d ≠ "" ∧ KNOWN !! d = None ∧ ∃ f, f ∈ outflows r ∧ f_to f = d).
Proof.
  intros Hset r. subst r.
  destruct (trace_address_tally a) as (acc & HI & -> & -> & _ & -> & -> & _).
  split; [done|]. split; [exact (ti_out _ _ HI)|]. split; [exact (ti_in _ _ HI)|].
  intros d. rewrite Hset. apply destinations_of_spec.
Qed.

(** X23 [trace_address]: the statistics are the sums of the flows listed, in
    order: eth_out and eth_in of the ETH flows, usdt_out, usdt_in, usdc_out
    and usdc_in of the USDT and USDC flows (DAI flows are listed and
    followed but counted in no total); total_normal_txs and total_erc20_txs
    count everything fetched, filtered or not. *)
Theorem trace_address_stats (a : string) :
  let r := trace_address a in
  eth_out (stats r) = sum_of "ETH" (outflows r) ∧
  eth_in (stats r) = sum_of "ETH" (inflows r) ∧
  usdt_out (stats r) = sum_of "USDT" (outflows r) ∧
  usdt_in (stats r) = sum_of "USDT" (inflows r) ∧
  usdc_out (stats r) = sum_of "USDC" (outflows r) ∧
  usdc_in (stats r) = sum_of "USDC" (inflows r) ∧
  total_normal_txs (stats r) = length (etherscan_result (txlist (lower a))) ∧
  total_erc20_txs (stats r) = length (etherscan_result (tokentx (lower a))).
Proof.
  intros r. subst r.
  destruct (trace_address_tally a) as (acc & HI & -> & -> & -> & _).
  destruct HI as [_ _ Heo Hei Huo Hui Hco Hci]. simpl. done.
Qed.

End Address.

Definition sample_txlist (address : string) : HResponse EthTx :=
  if String.eqb address "0xa1"
  then HAnswer (Some "1") (Some "OK")
         [mkEthTx 2000000000000000000 "0xA1" "0xB2" (Some "0x01") 10 100;
          mkEthTx 1 "0xA1" "0xC3" (Some "0x02") 11 101]
  else HRequestFailed.

Definition sample_tokentx (address : string) : HResponse TokenTx :=
  HAnswer (Some "0") (Some "No transactions found") [].

Lemma trace_address_flows_witness :
  destinations_to_trace (trace_address ∅ sample_txlist sample_tokentx elements "0xA1")
  = ["0xb2"] ∧
  ∀ d, d ∈ destinations_to_trace
             (trace_address ∅ sample_txlist sample_tokentx elements "0xA1") ↔
       d ≠ "" ∧ (∅ : gmap string string) !! d = None ∧
       ∃ f, f ∈ outflows (trace_address ∅ sample_txlist sample_tokentx elements "0xA1") ∧
            f_to f = d.
Proof.
  split; [vm_compute; reflexivity|].
  apply (trace_address_flows ∅ sample_txlist sample_tokentx elements "0xA1").
  intros s x. apply elem_of_elements.
Defined.

Section Recursive.

Variable KNOWN : gmap string string.
Variable txlist : string → HResponse EthTx.
Variable tokentx : string → HResponse TokenTx.
Variable set_order : gset string → list string.
Variable max_depth : Z.

Hypothesis set_order_elements : ∀ s x, x ∈ set_order s ↔ x ∈ s.

Local Abbreviation trace_address := (trace_address KNOWN txlist tokentx set_order).
Local Abbreviation trace_recursive :=
  (trace_recursive KNOWN txlist tokentx set_order).

(** The result appended for [a] at depth [d]. *)
Definition result_of (a : string) (d : Z) : TraceResult :=
  with_depth (trace_address a) d.

(** [r] was reached from a result one level up that lists it among its
    destinations. *)
Definition has_parent (results : list TraceResult) (r : TraceResult) : Prop :=
  ∃ p, p ∈ results ∧ r_depth r = (r_depth p + 1)%Z ∧ (r_depth p < max_depth)%Z ∧
       r_address r ∈ destinations_to_trace p.

(** What a call adds to [traced] and [results]. *)
Definition Grown (lo : Z) (R : TraceResult → Prop)
    (st st' : gset string * list TraceResult) : Prop :=
  ∃ news,
    snd st' = snd st ++ news ∧
    fst st' = list_to_set (r_address <$> news) ∪ fst st ∧
    NoDup (r_address <$> news) ∧
    (∀ r, r ∈ news → r_address r ∉ fst st) ∧
    (∀ r, r ∈ news → r = result_of (r_address r) (r_depth r) ∧
                     (lo ≤ r_depth r ≤ Z.max lo max_depth)%Z) ∧
    (∀ r, r ∈ news → R r ∨ has_parent (snd st ++ news) r).

Lemma has_parent_mono l l' r :
  (∀ x, x ∈ l → x ∈ l') → has_parent l r → has_parent l' r.
Proof. intros Hsub (p & Hp & Hrest). exists p. split; [now apply Hsub|exact Hrest]. Qed.

Lemma grown_refl lo R st : Grown lo R st st.
Proof.
  exists []. simpl. rewrite app_nil_r. split; [done|]. split; [set_solver|].
  split; [constructor|]. split; [|split]; intros r Hr; by apply elem_of_nil in Hr.
Qed.

Lemma grown_trans lo R st st1 st2 :
  Grown lo R st st1 → Grown lo R st1 st2 → Grown lo R st st2.
Proof.
  intros (n1 & Hs1 & Hv1 & Hnd1 & Hnew1 & Hok1 & Hp1)
         (n2 & Hs2 & Hv2 & Hnd2 & Hnew2 & Hok2 & Hp2).
  exists (n1 ++ n2). rewrite Hs2, Hs1, Hv2, Hv1, fmap_app, app_assoc.
  split; [done|]. split; [rewrite list_to_set_app_L; set_solver|]. split; [|split; [|split]].
  - apply NoDup_app. split; [exact Hnd1|]. split; [|exact Hnd2].
    intros x Hx1 Hx2. apply list_elem_of_fmap in Hx2 as (r & -> & Hr).
    apply (Hnew2 r Hr). rewrite Hv1. apply elem_of_union. left.
    now apply elem_of_list_to_set.
  - intros r Hr. apply elem_of_app in Hr as [Hr|Hr]; [now apply Hnew1|].
    intros Hin. apply (Hnew2 r Hr). rewrite Hv1. set_solver.
  - intros r Hr. apply elem_of_app in Hr as [Hr|Hr]; [now apply Hok1|now apply Hok2].
  - intros r Hr. apply elem_of_app in Hr as [Hr|Hr].
    + destruct (Hp1 r Hr) as [?|Hpar]; [now left|right].
      eapply has_parent_mono; [|exact Hpar]. intros x Hx. set_solver.
    + destruct (Hp2 r Hr) as [?|Hpar]; [now left|right].
      rewrite Hs1 in Hpar. exact Hpar.
Qed.

Lemma result_of_address a d : r_address (result_of a d) = lower a.
Proof.
  unfold result_of, with_depth. cbn [r_address].
  now destruct (trace_address_tally KNOWN txlist tokentx set_order a)
    as (acc & _ & _ & _ & _ & _ & -> & _).
Qed.

(** A destination to trace is a lower-case address, not empty and not a
    known exchange. *)
Lemma destination_facts a d dest :
  dest ∈ destinations_to_trace (result_of a d) →
  lower dest = dest ∧ dest ≠ "" ∧ KNOWN !! dest = None.
Proof.
  unfold result_of, with_depth. cbn [destinations_to_trace].
  destruct (trace_address_tally KNOWN txlist tokentx set_order a)
    as (acc & HI & _ & _ & _ & -> & _).
  rewrite set_order_elements, destinations_of_spec.
  intros (Hne & Hk & f & Hf & <-).
  destruct (ti_out _ _ HI f Hf) as (_ & _ & Hlow & _). done.
Qed.

(** The loop over the destinations of [res], given what a recursive call
    one level down does. *)
Lemma visit_destinations fuel d res dests st :
  (∀ a st0, ∃ st1,
      trace_recursive fuel max_depth a (d + 1)%Z st0 = Some st1 ∧
      Grown (d + 1) (λ r, r = result_of (lower a) (d + 1)) st0 st1) →
  res ∈ snd st → r_depth res = d → (d < max_depth)%Z →
  (∀ x, x ∈ dests → x ∈ destinations_to_trace res ∧ lower x = x) →
  ∃ st',
    fold_left
      (λ ost dest,
         match ost with
         | None => None
         | Some st =>
             if bool_decide (dest ∈ fst st) then Some st
             else trace_recursive fuel max_depth dest (d + 1)%Z st
         end) dests (Some st) = Some st' ∧
    Grown (d + 1) (λ _, False) st st'.
Proof.
  intros Hcall. revert st. induction dests as [|dest dests IH];
    intros st Hres Hd Hlt Hdests; cbn [fold_left].
  - exists st. split; [done|apply grown_refl].
  - assert (∀ x, x ∈ dests → x ∈ destinations_to_trace res ∧ lower x = x) as Hrest.
    { intros x Hx. apply Hdests. now right. }
    destruct (bool_decide (dest ∈ fst st)); [now apply IH|].
    destruct (Hcall dest st) as (st1 & -> & Hg).
    destruct (Hdests dest) as [Hdest Hlow]; [left|].
    assert (Grown (d + 1) (λ _, False) st st1) as Hg'.
    { destruct Hg as (news & Hs & Hv & Hnd & Hnew & Hok & Hpar).
      exists news. split; [done|]. split; [done|]. split; [done|].
      split; [done|]. split; [done|].
      intros r Hr. right. destruct (Hpar r Hr) as [->|?]; [|done].
      exists res. split; [apply elem_of_app; now left|].
      rewrite result_of_address, !Hlow, Hd. unfold result_of, with_depth. simpl.
      done. }
    destruct (IH st1) as (st' & Hfold & Hg2); [|exact Hd|exact Hlt|exact Hrest|].
    + destruct Hg as (news & -> & _). apply elem_of_app. now left.
    + exists st'. split; [exact Hfold|]. exact (grown_trans _ _ _ _ _ Hg' Hg2).
Qed.

Lemma trace_recursive_grows fuel a d st :
  Z.to_nat (max_depth - d) < fuel →
  ∃ st', trace_recursive fuel max_depth a d st = Some st' ∧
         Grown d (λ r, r = result_of (lower a) d) st st' ∧
         (lower a ∉ fst st → ∃ rest, snd st' = snd st ++ result_of (lower a) d :: rest).
Proof.
  revert a d st. induction fuel as [|fuel IH]; intros a d st Hfuel; [lia|].
  cbn [HaikuTracer.trace_recursive].
  destruct (bool_decide (lower a ∈ fst st)) eqn:Hin.
  { apply bool_decide_eq_true in Hin. exists st. split; [done|].
    split; [apply grown_refl|done]. }
  apply bool_decide_eq_false in Hin. fold (result_of (lower a) d).
  set (res := result_of (lower a) d).
  set (st1 := ({[lower a]} ∪ fst st, snd st ++ [res])).
  assert (r_address res = lower a) as Hres.
  { unfold res. rewrite result_of_address. apply lower_idem. }
  assert (Grown d (λ r, r = res) st st1) as Hg1.
  { exists [res]. simpl. rewrite lower_idem. split; [done|]. split; [set_solver|].
    split; [apply NoDup_singleton|].
    split; [intros r Hr; apply list_elem_of_singleton in Hr; subst r; now rewrite Hres|].
    split.
    - intros r Hr. apply list_elem_of_singleton in Hr. subst r. rewrite Hres.
      split; [unfold res at 1; unfold result_of, with_depth; simpl; done|].
      unfold res, result_of, with_depth. simpl. lia.
    - intros r Hr. apply list_elem_of_singleton in Hr. now left. }
  destruct (d <? max_depth)%Z eqn:Hd.
  - apply Z.ltb_lt in Hd.
    destruct (visit_destinations fuel d res (destinations_to_trace res) st1)
      as (st' & Hfold & Hg2).
    + intros a0 st0. destruct (IH a0 (d + 1)%Z st0) as (st2 & H2 & Hg & _); [lia|].
      exists st2. done.
    + simpl. apply elem_of_app. right. left.
    + done.
    + exact Hd.
    + intros x Hx. split; [exact Hx|].
      now destruct (destination_facts (lower a) d x Hx).
    + exists st'. split; [exact Hfold|]. split.
      * apply (grown_trans _ _ _ st1); [exact Hg1|].
        destruct Hg2 as (news & Hs & Hv & Hnd & Hnew & Hok & Hpar).
        exists news. split; [done|]. split; [done|]. split; [done|].
        split; [done|]. split.
        -- intros r Hr. destruct (Hok r Hr) as [? ?]. split; [done|lia].
        -- intros r Hr. destruct (Hpar r Hr) as [[]|?]. now right.
      * intros _. destruct Hg2 as (news & -> & _). exists news. simpl.
        now rewrite <- app_assoc.
  - exists st1. split; [done|]. split; [exact Hg1|].
    intros _. exists []. done.
Qed.

End Recursive.

(** X24 [trace_address_with_depth]: called with fresh [traced] and
    [results], it returns; the list starts with the trace of the lower-cased
    address at current_depth and holds no address twice, whatever order the
    destinations are visited in; every entry is the trace of its address
    with its depth set, at a depth from current_depth to max_depth; and
    every entry but the first was reached from an entry one level up, at a
    depth less than max_depth, that lists it among its destinations, so
    that it is neither empty nor a known exchange. *)
Theorem trace_address_with_depth_results (KNOWN : gmap string string)
    (txlist : string → HResponse EthTx) (tokentx : string → HResponse TokenTx)
    (set_order : gset string → list string) (a : string) (max_depth current_depth : Z) :
  (∀ s x, x ∈ set_order s ↔ x ∈ s) →
  ∃ results,
    trace_address_with_depth KNOWN txlist tokentx set_order a max_depth current_depth
    = Some results ∧
    head results
    = Some (with_depth (trace_address KNOWN txlist tokentx set_order (lower a))
              current_depth) ∧
    NoDup (r_address <$> results) ∧
    ∀ r, r ∈ results →
      r = with_depth (trace_address KNOWN txlist tokentx set_order (r_address r))
            (r_depth r) ∧
      (current_depth ≤ r_depth r ≤ Z.max current_depth max_depth)%Z ∧
      (r = with_depth (trace_address KNOWN txlist tokentx set_order (lower a))
             current_depth ∨
       (r_address r ≠ "" ∧ KNOWN !! r_address r = None ∧
        ∃ p, p ∈ results ∧ r_depth r = (r_depth p + 1)%Z ∧ (r_depth p < max_depth)%Z ∧
             r_address r ∈ destinations_to_trace p)).
Proof.
  intros Hset. unfold trace_address_with_depth.
  destruct (trace_recursive_grows KNOWN txlist tokentx set_order max_depth Hset
              (S (Z.to_nat (max_depth - current_depth))) a current_depth (∅, []))
    as (st' & -> & (news & Hs & Hv & Hnd & Hnew & Hok & Hpar) & Hhead); [lia|].
  simpl in *. exists (snd st'). split; [done|]. rewrite Hs. split; [|split].
  - destruct Hhead as (rest & Hrest); [set_solver|]. rewrite Hs in Hrest.
    now rewrite Hrest.
  - exact Hnd.
  - intros r Hr. destruct (Hok r Hr) as [Heq Hrange].
    split; [exact Heq|]. split; [exact Hrange|].
    destruct (Hpar r Hr) as [?|(p & Hp & Hd & Hlt & Hdest)]; [now left|right].
    destruct (Hok p Hp) as [Hpeq _]. rewrite Hpeq in Hdest.
    destruct (destination_facts KNOWN txlist tokentx set_order Hset _ _ _ Hdest)
      as (_ & Hne & Hk).
    split; [exact Hne|]. split; [exact Hk|]. exists p. rewrite <- Hpeq in Hdest. done.
Qed.

Lemma trace_address_with_depth_results_witness :
  ∃ results,
    trace_address_with_depth ∅ sample_txlist sample_tokentx elements "0xA1" 2 0
    = Some results ∧
    (r_address <$> results) = ["0xa1"; "0xb2"] ∧ (r_depth <$> results) = [0%Z; 1%Z] ∧
    NoDup (r_address <$> results).
Proof.
  destruct (trace_address_with_depth_results ∅ sample_txlist sample_tokentx elements
              "0xA1" 2 0 ltac:(intros s x; apply elem_of_elements))
    as (results & Hrun & _ & Hnd & _).
  exists results. split; [exact Hrun|].
  assert (trace_address_with_depth ∅ sample_txlist sample_tokentx elements "0xA1" 2 0
          = Some [with_depth (trace_address ∅ sample_txlist sample_tokentx elements "0xa1") 0;
                  with_depth (trace_address ∅ sample_txlist sample_tokentx elements "0xb2") 1])
    as Hval by (vm_compute; reflexivity).
  rewrite Hval in Hrun. injection Hrun as <-.
  split; [vm_compute; reflexivity|]. split; [reflexivity|exact Hnd].
Defined.

End HaikuFacts.

(* ===================================================================== *)
(** * What the second tracer writes for every transfer it meets *)
(* ===================================================================== *)

Module TracerWritten.
Import PyStr MultiHopTracerV2 TracerFacts.

Section Written.

Variable KNOWN : gmap string string.
Variable address_api : string → option (option string).
Variable transactions_api : string → option (list Item).
Variable depth : Z.
Variable min_eth : float.
Variable verbose : bool.
Variable start_addr : string.

Local Abbreviation trace_edge := (trace_edge KNOWN depth).
Local Abbreviation trace_iteration :=
  (trace_iteration KNOWN address_api transactions_api depth min_eth verbose).
Local Abbreviation get_outgoing_transactions :=
  (get_outgoing_transactions address_api transactions_api).

(** The entry of [outgoing] that the filter loop keeps for a transfer. *)
Definition kept_outgoing (tx : Item) : option Outgoing :=
  let value := PyFloat.wei_to_eth (item_value tx) in
  if PrimFloat.leb min_eth value then
    match item_to tx with
    | Some to_addr => Some (mkOutgoing to_addr value (item_hash tx) (item_timestamp tx))
    | None => None
    end
  else None.

Lemma filter_outgoing_kept txs : filter_outgoing min_eth txs = omap kept_outgoing txs.
Proof.
  unfold filter_outgoing.
  assert (∀ acc,
            fold_left
              (λ outgoing tx,
                 let value := PyFloat.wei_to_eth (item_value tx) in
                 if PrimFloat.leb min_eth value then
                   match item_to tx with
                   | Some to_addr =>
                       outgoing ++ [mkOutgoing to_addr value (item_hash tx)
                                      (item_timestamp tx)]
                   | None => outgoing
                   end
                 else outgoing) txs acc
            = acc ++ omap kept_outgoing txs) as Hgen.
  { induction txs as [|tx txs IH]; intros acc; simpl; [now rewrite app_nil_r|].
    rewrite IH. unfold kept_outgoing.
    destruct (PrimFloat.leb min_eth (PyFloat.wei_to_eth (item_value tx))); [|done].
    destruct (item_to tx); [|done]. now rewrite <- app_assoc. }
  exact (Hgen []).
Qed.

(** The edge written for an entry of [outgoing], and the endpoint written
    when the label of its target names a mixer or an exchange. *)
Definition edge_of (current_addr : string) (o : Outgoing) : Edge :=
  mkEdge current_addr (o_to o) (o_eth o) (o_hash o).

Definition endpoint_of (path : list string) (o : Outgoing) : option Endpoint :=
  match known_label KNOWN (lower (o_to o)) with
  | Some label =>
      if contains "Tornado" label
      then Some (mkEndpoint (o_to o) label "mixer" (o_eth o) (path ++ [o_to o]))
      else if is_exchange_label label
      then Some (mkEndpoint (o_to o) label "exchange" (o_eth o) (path ++ [o_to o]))
      else None
  | None => None
  end.

(** The [for tx_info in outgoing] loop writes one edge per entry and one
    endpoint per entry whose target is a mixer or an exchange. *)
Lemma trace_edges_written current_addr current_depth path outgoing st :
  let st' := fold_left (trace_edge current_addr current_depth path) outgoing st in
  edges (graph st') = edges (graph st) ++ (edge_of current_addr <$> outgoing) ∧
  endpoints (graph st') = endpoints (graph st) ++ omap (endpoint_of path) outgoing.
Proof.
  revert st. induction outgoing as [|o outgoing IH]; intros st; cbn [fold_left].
  - cbv zeta. simpl. now rewrite !app_nil_r.
  - destruct (IH (trace_edge current_addr current_depth path st o)) as [He Hp].
    cbv zeta in *. rewrite He, Hp. clear He Hp IH.
    unfold MultiHopTracerV2.trace_edge, endpoint_of. simpl.
    destruct (known_label KNOWN (lower (o_to o))) as [label|]; simpl.
    + destruct (contains "Tornado" label); [|destruct (is_exchange_label label)];
        simpl; rewrite <- ?app_assoc; done.
    + rewrite <- app_assoc. done.
Qed.

(** A transfer that the tracer follows up: at least [min_eth], with a
    recipient; and the edge that stands for it. *)
Definition qualifying (tx : Item) (to_addr : string) : Prop :=
  PrimFloat.leb min_eth (PyFloat.wei_to_eth (item_value tx)) = true ∧
  item_to tx = Some to_addr.

Definition transfer_edge (a : string) (tx : Item) (to_addr : string) : Edge :=
  mkEdge a to_addr (PyFloat.wei_to_eth (item_value tx)) (item_hash tx).

(** Every qualifying transfer fetched for [a] is among the edges. *)
Definition source_complete (es : list Edge) (a : string) : Prop :=
  ∀ tx to_addr, tx ∈ get_outgoing_transactions a → qualifying tx to_addr →
                transfer_edge a tx to_addr ∈ es.

(** An endpoint entry of the given label and type reports the edge. *)
Definition has_endpoint (eps : list Endpoint) (e : Edge) (label ty : string) : Prop :=
  ∃ ep, ep ∈ eps ∧ ep_address ep = e_to e ∧ ep_label ep = label ∧
        ep_type ep = ty ∧ ep_eth ep = e_eth e.

(** An edge into a mixer or an exchange has its endpoint entry. *)
Definition edge_reported (eps : list Endpoint) (e : Edge) : Prop :=
  ∀ label, known_label KNOWN (lower (e_to e)) = Some label →
    (contains "Tornado" label = true → has_endpoint eps e label "mixer") ∧
    (contains "Tornado" label = false → is_exchange_label label = true →
     has_endpoint eps e label "exchange").

Record Written (st : TraceState) : Prop := {
  wr_sources : ∀ e, e ∈ edges (graph st) → source_complete (edges (graph st)) (e_from e);
  wr_reported : ∀ e, e ∈ edges (graph st) → edge_reported (endpoints (graph st)) e;
  wr_nodes : ∀ k, k ∈ visited st →
      ∃ a, lower a = k ∧ source_complete (edges (graph st)) a;
  wr_start : visited st ≠ ∅ → source_complete (edges (graph st)) start_addr;
  wr_fresh : visited st = ∅ →
      queue st = [(start_addr, 0%Z, [start_addr])] ∨ (queue st = [] ∧ (depth ≤ 0)%Z)
}.

Lemma written_init : Written (trace_init start_addr).
Proof.
  split; simpl.
  - intros e He. by apply elem_of_nil in He.
  - intros e He. by apply elem_of_nil in He.
  - intros k Hk. by apply elem_of_empty in Hk.
  - done.
  - now left.
Qed.

Lemma edge_reported_mono eps eps' e :
  (∀ ep, ep ∈ eps → ep ∈ eps') → edge_reported eps e → edge_reported eps' e.
Proof.
  intros Hsub Hrep label Hl. destruct (Hrep label Hl) as [Hmix Hex].
  split.
  - intros Ht. destruct (Hmix Ht) as (ep & Hep & Hrest). exists ep. split; [auto|done].
  - intros Ht Hx. destruct (Hex Ht Hx) as (ep & Hep & Hrest). exists ep. split; [auto|done].
Qed.

(** The edges and endpoints written while [a] is expanded cover every
    qualifying transfer of [a]. *)
Lemma expansion_written a path es eps :
  let outgoing := filter_outgoing min_eth (get_outgoing_transactions a) in
  source_complete (es ++ (edge_of a <$> outgoing)) a ∧
  ∀ e, e ∈ edge_of a <$> outgoing →
       edge_reported (eps ++ omap (endpoint_of path) outgoing) e.
Proof.
  intros outgoing. subst outgoing. rewrite filter_outgoing_kept. split.
  - intros tx to_addr Htx [Hle Hto]. apply elem_of_app. right.
    apply list_elem_of_fmap.
    exists (mkOutgoing to_addr (PyFloat.wei_to_eth (item_value tx)) (item_hash tx)
              (item_timestamp tx)).
    split; [done|]. apply list_elem_of_omap. exists tx. split; [exact Htx|].
    unfold kept_outgoing. now rewrite Hle, Hto.
  - intros e He. apply list_elem_of_fmap in He as (o & -> & Ho).
    intros label Hl. simpl in Hl.
    assert (∀ ty, endpoint_of path o
                  = Some (mkEndpoint (o_to o) label ty (o_eth o) (path ++ [o_to o])) →
                  has_endpoint (eps ++ omap (endpoint_of path) (omap kept_outgoing
                                  (get_outgoing_transactions a))) (edge_of a o) label ty)
      as Hhas.
    { intros ty Hep. eexists. split.
      - apply elem_of_app. right. apply list_elem_of_omap. exists o. split; [exact Ho|exact Hep].
      - done. }
    split.
    + intros Ht. apply Hhas. unfold endpoint_of. now rewrite Hl, Ht.
    + intros Ht Hx. apply Hhas. unfold endpoint_of. now rewrite Hl, Ht, Hx.
Qed.

Lemma written_iteration a d p v q g o :
  Written (mkTraceState v ((a, d, p) :: q) g o) →
  Written (trace_iteration a d p (mkTraceState v q g o)).
Proof.
  intros [Hsrc Hrep Hnodes Hstart Hfresh]. simpl in *.
  unfold MultiHopTracerV2.trace_iteration. simpl.
  destruct (bool_decide (lower a ∈ v)) eqn:Hv; simpl.
  { apply bool_decide_eq_true in Hv. split; simpl; try done. intros ->. set_solver. }
  apply bool_decide_eq_false in Hv.
  destruct (depth <=? d)%Z eqn:Hd; simpl.
  { apply Z.leb_le in Hd. split; simpl; try done. intros Hempty.
    destruct (Hfresh Hempty) as [Hq|[Hq _]]; [|discriminate].
    injection Hq as -> -> -> ->. now right. }
  match goal with |- context [fold_left ?f ?l ?s] =>
    destruct (trace_edges_written a d p l s) as [He Hp];
    destruct (trace_edges_frame KNOWN depth a d p l s) as (Hvis & _ & _);
    destruct (fold_left f l s) as [v' q' [n' e' ep' t'] o'] end.
  cbv zeta in *. simpl in *. subst v' e' ep'.
  destruct (expansion_written a p (edges g) (endpoints g)) as [Hcomplete Hnew].
  cbv zeta in *.
  assert (∀ b, source_complete (edges g) b →
               source_complete
                 (edges g ++ (edge_of a <$> filter_outgoing min_eth
                                              (get_outgoing_transactions a))) b) as Hmono.
  { intros b Hb tx to_addr Htx Hq. apply elem_of_app. left. exact (Hb tx to_addr Htx Hq). }
  split; simpl.
  - intros e Hin. apply elem_of_app in Hin as [Hin|Hin]; [now apply Hmono, Hsrc|].
    apply list_elem_of_fmap in Hin as (x & -> & _). exact Hcomplete.
  - intros e Hin. apply elem_of_app in Hin as [Hin|Hin]; [|now apply Hnew].
    eapply edge_reported_mono; [|exact (Hrep e Hin)].
    intros ep Hep. apply elem_of_app. now left.
  - intros k Hk. apply elem_of_union in Hk as [Hk|Hk].
    + apply elem_of_singleton in Hk as ->. now exists a.
    + destruct (Hnodes k Hk) as (b & Hb & Hcb). exists b. split; [exact Hb|now apply Hmono].
  - intros _. destruct (decide (v = ∅)) as [Hempty|Hne]; [|now apply Hmono, Hstart].
    destruct (Hfresh Hempty) as [Hq|[Hq _]]; [|discriminate].
    injection Hq as -> -> -> ->. exact Hcomplete.
  - intros Hempty. exfalso. set_solver.
Qed.

Lemma trace_loop_written fuel st st' :
  trace_loop KNOWN address_api transactions_api depth min_eth verbose fuel st = Some st' →
  Written st → Written st'.
Proof.
  revert st. induction fuel as [|fuel IH]; intros [v q g o] Hrun HW; simpl in Hrun.
  - destruct q as [|[[a d] p] q]; [|discriminate]. now injection Hrun as <-.
  - destruct q as [|[[a d] p] q]; [now injection Hrun as <-|].
    apply (IH _ Hrun). now apply written_iteration.
Qed.

(** The run returns a state in which labelled addresses were not followed
    and every transfer met was written. *)
Lemma trace_run_written :
  ∃ st, trace_run KNOWN address_api transactions_api depth min_eth verbose start_addr
        = Some st ∧
        TInv KNOWN start_addr st ∧ Written st ∧
        ((0 < depth)%Z → source_complete (edges (graph st)) start_addr).
Proof.
  destruct (trace_run_returns KNOWN address_api transactions_api depth min_eth verbose
              start_addr) as (st & Hrun & _).
  exists st. split; [exact Hrun|]. unfold trace_run in Hrun.
  pose proof (trace_loop_inv _ _ _ _ _ _ _ _ _ _ Hrun (tinv_init _ _)) as HT.
  pose proof (trace_loop_written _ _ _ Hrun written_init) as HW.
  split; [exact HT|]. split; [exact HW|].
  intros Hpos. apply (wr_start _ HW). intros Hempty.
  destruct (wr_fresh _ HW Hempty) as [Hq|[_ Hle]]; [|lia].
  assert (queue st = []) as Hdone.
  { clear -Hrun. revert Hrun. generalize (trace_init start_addr).
    induction (hop_weight address_api transactions_api min_eth (Z.to_nat depth) start_addr)
      as [|fuel IH]; intros [v q g o] Hrun; simpl in Hrun.
    - destruct q as [|[[a d] p] q]; [|discriminate]. now injection Hrun as <-.
    - destruct q as [|[[a d] p] q]; [now injection Hrun as <-|]. exact (IH _ Hrun). }
  rewrite Hdone in Hq. discriminate.
Qed.

End Written.

End TracerWritten.

(* ===================================================================== *)
(** * Touchpoints and endpoints: what both traversals write *)
(* ===================================================================== *)

Module TouchpointClaims.
Import PyStr NetworkExpander ExpanderFacts.

(** C1, amended.  [bfs_expand] returns, and in what it returns:
    every recorded node that the analysis flags as an exchange deposit
    address has its entry in kyc_touchpoints; the only addresses of the
    hot-wallet table among the recorded nodes are seeds; a node, flagged or
    not, whose depth is less than max_depth has every peer (in the requested
    direction) recorded as a node, or else the peer is an address of the
    table and a direct touchpoint naming the node, the exchange, the depth
    and the peer is in kyc_touchpoints; in particular a table peer that is
    not a seed is not a node and has its direct touchpoint.
    [trace_hops] returns, and in what it returns: every recorded node other
    than the start address is unlabelled and every endpoint is a labelled
    address; every recorded node is the lower case of a traced address all
    of whose outgoing transactions of at least min_eth with a recipient have
    their edge in edges, and so has the start address when the hop limit is
    positive; and for every edge whose recipient is labelled, an endpoint
    entry with the recipient, the label and the amount of the edge is in
    endpoints, of type mixer when the label contains Tornado and of type
    exchange when it does not and names one of the five exchanges. *)
Theorem C1_touchpoints_and_endpoints_written
    (KNOWN : gmap string string) (api : string → string → Response)
    (max_depth : Z) (direction : string) (seeds : list string)
    (KNOWN_ADDRESSES : gmap string string)
    (address_api : string → option (option string))
    (transactions_api : string → option (list MultiHopTracerV2.Item))
    (hops : Z) (min_eth : float) (verbose : bool) (start_addr : string) :
  (∃ r, bfs_expand KNOWN api max_depth direction seeds = Some r ∧
        (∀ a n, r_graph r !! a = Some n → is_exchange_deposit (analysis n) = true →
                FlaggedAddress a (exchange_name (analysis n)) (depth n)
                ∈ r_kyc_touchpoints r) ∧
        (∀ a, a ∈ dom (r_graph r) → is_Some (KNOWN !! a) → a ∈ lower <$> seeds) ∧
        (∀ u nu p, r_graph r !! u = Some nu → (depth nu < max_depth)%Z →
                   p ∈ next_addrs direction (analysis nu) →
                   is_Some (r_graph r !! p) ∨
                   ∃ name, KNOWN !! p = Some name ∧
                           DirectPeer u name (depth nu) p ∈ r_kyc_touchpoints r) ∧
        (∀ u nu p name, r_graph r !! u = Some nu → (depth nu < max_depth)%Z →
                   p ∈ next_addrs direction (analysis nu) →
                   KNOWN !! p = Some name → p ∉ lower <$> seeds →
                   r_graph r !! p = None ∧
                   DirectPeer u name (depth nu) p ∈ r_kyc_touchpoints r)) ∧
  (∃ g, MultiHopTracerV2.trace_hops KNOWN_ADDRESSES address_api transactions_api
          hops min_eth verbose start_addr = Some g ∧
        (∀ k, k ∈ dom (MultiHopTracerV2.nodes g) →
              k = lower start_addr ∨
              MultiHopTracerV2.known_label KNOWN_ADDRESSES k = None) ∧
        (∀ ep, ep ∈ MultiHopTracerV2.endpoints g →
               MultiHopTracerV2.known_label KNOWN_ADDRESSES
                 (lower (MultiHopTracerV2.ep_address ep))
               = Some (MultiHopTracerV2.ep_label ep)) ∧
        (∀ k, k ∈ dom (MultiHopTracerV2.nodes g) →
              ∃ a, lower a = k ∧
                   TracerWritten.source_complete address_api transactions_api min_eth
                     (MultiHopTracerV2.edges g) a) ∧
        ((0 < hops)%Z →
         TracerWritten.source_complete address_api transactions_api min_eth
           (MultiHopTracerV2.edges g) start_addr) ∧
        (∀ e, e ∈ MultiHopTracerV2.edges g →
              TracerWritten.edge_reported KNOWN_ADDRESSES
                (MultiHopTracerV2.endpoints g) e)).
Proof.
  split.
  - destruct (ExpanderExtras.bfs_run_levels KNOWN api max_depth direction seeds)
      as (st & Hrun & HI & HL & Hq).
    unfold bfs_expand. rewrite Hrun. simpl. eexists. split; [reflexivity|]. simpl.
    assert (∀ a, a ∈ dom (graph st) → is_Some (KNOWN !! a) → a ∈ lower <$> seeds)
      as Hseed.
    { intros a Ha Hk. exact (graph_table_is_seed _ _ _ _ _ _ _ HI Ha Hk). }
    assert (∀ u nu p, graph st !! u = Some nu → (depth nu < max_depth)%Z →
                      p ∈ next_addrs direction (analysis nu) →
                      is_Some (graph st !! p) ∨
                      ∃ name, KNOWN !! p = Some name ∧
                              DirectPeer u name (depth nu) p ∈ kyc_touchpoints st)
      as Hclosed.
    { intros u nu p Hu Hd Hp.
      destruct (ExpanderExtras.lv_closure _ _ _ _ _ HL u nu p Hu Hd Hp) as [Hv|Hk];
        [left|now right].
      apply elem_of_dom. now rewrite (final_dom_visited _ _ _ _ _ _ HI Hq). }
    split; [exact (inv_flag _ _ _ _ _ _ HI)|]. split; [exact Hseed|].
    split; [exact Hclosed|].
    intros u nu p name Hu Hd Hp Hk Hns.
    assert (graph st !! p = None) as Hnone.
    { destruct (graph st !! p) as [np|] eqn:Hgp; [|reflexivity].
      exfalso. apply Hns, Hseed; [|now rewrite Hk].
      apply elem_of_dom. now rewrite Hgp. }
    split; [exact Hnone|].
    destruct (Hclosed u nu p Hu Hd Hp) as [[np Hnp]|(name' & Hk' & Ht)].
    + rewrite Hnone in Hnp. discriminate.
    + rewrite Hk in Hk'. now injection Hk' as <-.
  - destruct (TracerWritten.trace_run_written KNOWN_ADDRESSES address_api
                transactions_api hops min_eth verbose start_addr)
      as (st & Hrun & HT & HW & Hstart).
    destruct (TracerFacts.trace_run_returns KNOWN_ADDRESSES address_api
                transactions_api hops min_eth verbose start_addr)
      as (st' & Hrun' & HV & _).
    rewrite Hrun in Hrun'. injection Hrun' as <-.
    unfold MultiHopTracerV2.trace_hops. rewrite Hrun. simpl.
    eexists. split; [reflexivity|].
    split; [exact (TracerFacts.tinv_nodes _ _ _ HT)|].
    split; [exact (TracerFacts.tinv_endpoints _ _ _ HT)|].
    split; [|split; [exact Hstart|exact (TracerWritten.wr_reported _ _ _ _ _ _ _ HW)]].
    intros k Hk. rewrite (TracerFacts.tvis_dom _ _ HV) in Hk.
    exact (TracerWritten.wr_nodes _ _ _ _ _ _ _ HW k Hk).
Qed.

End TouchpointClaims.
